(** * Verification of the werf chart preparation and cleanup command

    Shallow embedding of [pkg/deploy/dapp_chart.go] (package [deploy]) and of
    the [cleanup] command ([NewCmd], [runCleanup]).

    Go functions are state transformers over an explicit machine state: a
    store of [DappChart] cells (the targets of [*DappChart] pointers), a file
    system and a trace of the calls made to the operating system and to
    external collaborators.  A Go [error] is an ordinary value, as in Go;
    what does not return (a nil dereference, an exhausted recursion budget)
    is a separate status. *)

From stdpp Require Import gmap strings list fin_maps pretty sorting.
From Stdlib.Strings Require Import Ascii Byte.

Open Scope string_scope.
Open Scope list_scope.

(** ** Paths, bytes and errors *)

(** A path is kept in cleaned component form: ["a/b/c"] is [["a"; "b"; "c"]]
    and the empty list is the directory all paths start from. *)
Abbreviation path := (list string).
Abbreviation bytes := (list byte).

Inductive errno := ENOENT | ENOTDIR | EISDIR.

(** [*os.PathError], [errors.New]/[fmt.Errorf] values, and the sentinel
    [filepath.SkipDir], which Go compares by identity. *)
Inductive error :=
| PathError (op : string) (p : path) (e : errno)
| ErrorString (msg : string)
| SkipDir.

Global Instance errno_eq_dec : EqDecision errno.
Proof. solve_decision. Defined.
Global Instance error_eq_dec : EqDecision error.
Proof. solve_decision. Defined.

Definition path_string (p : path) : string := String.concat "/" p.

Definition errno_string (e : errno) : string :=
  match e with
  | ENOENT => "no such file or directory"
  | ENOTDIR => "not a directory"
  | EISDIR => "is a directory"
  end.

(** [err.Error()] *)
Definition Error (e : error) : string :=
  match e with
  | PathError op p e => op +:+ " " +:+ path_string p +:+ ": " +:+ errno_string e
  | ErrorString msg => msg
  | SkipDir => "skip this directory"
  end.

(** [fmt.Sprintf] for the verbs the sources use ([%s], [%d], [%#v]); the
    operands come already rendered. *)
Fixpoint fmt_Sprintf (format : string) (args : list string) : string :=
  match format with
  | EmptyString => EmptyString
  | String c rest =>
      if Ascii.eqb c "%"%char then
        match rest with
        | EmptyString => "%!(NOVERB)"
        | String v rest' =>
            if Ascii.eqb v "#"%char then
              match rest' with
              | EmptyString => "%!(NOVERB)"
              | String _ rest'' =>
                  hd "%!v(MISSING)" args +:+ fmt_Sprintf rest'' (tl args)
              end
            else hd "%!v(MISSING)" args +:+ fmt_Sprintf rest' (tl args)
        end
      else String c (fmt_Sprintf rest args)
  end.

Definition fmt_Errorf (format : string) (args : list string) : error :=
  ErrorString (fmt_Sprintf format args).

(** [os.IsNotExist] *)
Definition os_IsNotExist (err : option error) : bool :=
  match err with
  | Some (PathError _ _ ENOENT) => true
  | _ => false
  end.

(** [filepath.Join] and [filepath.Dir] on component lists. *)
Definition filepath_Join (elem : list path) : path := concat elem.
Definition filepath_Dir (p : path) : path := removelast p.
Global Arguments filepath_Join : simpl never.
Global Arguments filepath_Dir : simpl never.

(** [rel dir p]: the rest of [p] below [dir], when [p] lies under [dir]. *)
Fixpoint path_rel (dir p : path) : option path :=
  match dir, p with
  | [], _ => Some p
  | x :: dir', y :: p' => if decide (x = y) then path_rel dir' p' else None
  | _ :: _, [] => None
  end.

(** [strings.TrimPrefix] on whole components (the callers trim a
    directory off a path the walk built below it). *)
Definition strings_TrimPrefix (s prefix : path) : path :=
  default s (path_rel prefix s).

(** ** UTF-8 and [strings.TrimRightFunc] *)

Definition rune := N.
Definition utf8_RuneError : rune := 65533%N.
Definition utf8_RuneSelf : N := 128%N.
Definition utf8_UTFMax : nat := 4.

(** [unicode.IsSpace]: the Latin-1 spaces and the code points with the
    White_Space property. *)
Definition unicode_IsSpace (r : rune) : bool :=
  if (r <? 256)%N then
    ((9 <=? r) && (r <=? 13) || (r =? 32) || (r =? 133) || (r =? 160))%N
  else
    ((r =? 5760) || (8192 <=? r) && (r <=? 8202) || (r =? 8232) || (r =? 8233)
     || (r =? 8239) || (r =? 8287) || (r =? 12288))%N.

Definition utf8_RuneStart (b : byte) : bool :=
  negb (N.land (Byte.to_N b) 192 =? 128)%N.

Definition in_range (lo hi b : N) : bool := ((lo <=? b) && (b <=? hi))%N.

(** [utf8.DecodeRune]: the rune at the front of [p] and its width.  The
    first byte selects the width and the range accepted for the second
    byte (the [first] and [acceptRanges] tables of the library). *)
Definition utf8_DecodeRune (p : bytes) : rune * nat :=
  match p with
  | [] => (utf8_RuneError, 0)
  | c0 :: p1 =>
      let p0 := Byte.to_N c0 in
      if (p0 <? 128)%N then (p0, 1)
      else if (p0 <? 194)%N || (244 <? p0)%N then (utf8_RuneError, 1)
      else
        let sz : nat := if (p0 <? 224)%N then 2 else if (p0 <? 240)%N then 3 else 4 in
        let lo := if (p0 =? 224)%N then 160%N else if (p0 =? 240)%N then 144%N else 128%N in
        let hi := if (p0 =? 237)%N then 159%N else if (p0 =? 244)%N then 143%N else 191%N in
        if (length p <? sz)%nat then (utf8_RuneError, 1)
        else
          match p1 with
          | c1 :: p2 =>
              let b1 := Byte.to_N c1 in
              if negb (in_range lo hi b1) then (utf8_RuneError, 1)
              else if (sz <=? 2)%nat then
                (N.lor (N.shiftl (N.land p0 31) 6) (N.land b1 63), 2)
              else
                match p2 with
                | c2 :: p3 =>
                    let b2 := Byte.to_N c2 in
                    if negb (in_range 128 191 b2) then (utf8_RuneError, 1)
                    else if (sz <=? 3)%nat then
                      (N.lor (N.lor (N.shiftl (N.land p0 15) 12)
                                    (N.shiftl (N.land b1 63) 6))
                             (N.land b2 63), 3)
                    else
                      match p3 with
                      | c3 :: _ =>
                          let b3 := Byte.to_N c3 in
                          if negb (in_range 128 191 b3) then (utf8_RuneError, 1)
                          else
                            (N.lor (N.lor (N.lor (N.shiftl (N.land p0 7) 18)
                                                 (N.shiftl (N.land b1 63) 12))
                                          (N.shiftl (N.land b2 63) 6))
                                   (N.land b3 63), 4)
                      | [] => (utf8_RuneError, 1)
                      end
                | [] => (utf8_RuneError, 1)
                end
          | [] => (utf8_RuneError, 1)
          end
  end.

(** The backward scan of [utf8.DecodeLastRune]: from index [start], step
    down to the nearest byte that starts a rune, not below [lim]. *)
Fixpoint scan_rune_start (p : bytes) (lim : nat) (steps : nat) (start : Z) : Z :=
  match steps with
  | O => start
  | S steps' =>
      if (start <? Z.of_nat lim)%Z then start
      else
        match p !! Z.to_nat start with
        | Some b => if utf8_RuneStart b then start
                    else scan_rune_start p lim steps' (start - 1)
        | None => start
        end
  end.

(** [utf8.DecodeLastRune] *)
Definition utf8_DecodeLastRune (p : bytes) : rune * nat :=
  let end_ := length p in
  match last p with
  | None => (utf8_RuneError, 0)
  | Some c =>
      let r := Byte.to_N c in
      if (r <? utf8_RuneSelf)%N then (r, 1)
      else
        let lim := end_ - utf8_UTFMax in
        let start := scan_rune_start p lim utf8_UTFMax (Z.of_nat end_ - 2) in
        let start := if (start <? 0)%Z then 0 else Z.to_nat start in
        let '(r, size) := utf8_DecodeRune (drop start p) in
        if negb (start + size =? end_)%nat then (utf8_RuneError, 1)
        else (r, size)
  end.

(** [lastIndexFunc(s, f, false)] of package [strings]: the index of the
    last rune that does not satisfy [f], or [-1].  [i] runs down from
    [len(s)]; every round removes at least one byte. *)
Fixpoint lastIndexFunc_not (rounds : nat) (s : bytes) (f : rune -> bool) (i : nat) : Z :=
  match rounds with
  | O => (-1)%Z
  | S rounds' =>
      if (i =? 0)%nat then (-1)%Z
      else
        let '(r, size) :=
          match s !! (i - 1) with
          | Some c =>
              if (Byte.to_N c <? utf8_RuneSelf)%N then (Byte.to_N c, 1)
              else utf8_DecodeLastRune (take i s)
          | None => (utf8_RuneError, 1)
          end in
        let i' := i - size in
        if negb (f r) then Z.of_nat i'
        else lastIndexFunc_not rounds' s f i'
  end.

(** [strings.TrimRightFunc] *)
Definition strings_TrimRightFunc (s : bytes) (f : rune -> bool) : bytes :=
  let i := lastIndexFunc_not (length s) s f (length s) in
  let i' :=
    if (0 <=? i)%Z then
      match s !! Z.to_nat i with
      | Some c =>
          if (utf8_RuneSelf <=? Byte.to_N c)%N
          then Z.to_nat i + snd (utf8_DecodeRune (drop (Z.to_nat i) s))
          else Z.to_nat i + 1
      | None => Z.to_nat i + 1
      end
    else 0 in
  take i' s.

(** [strings.TrimRightFunc(s, unicode.IsSpace)] on ["a b \n"], on spaces
    only, and on a text that ends with the two-byte space U+00A0. *)
Example TrimRightFunc_ascii :
  strings_TrimRightFunc [x61; x20; x62; x20; x0a]%byte unicode_IsSpace
  = [x61; x20; x62]%byte.
Proof. reflexivity. Qed.

Example TrimRightFunc_all_space :
  strings_TrimRightFunc [x20; x09; x0a]%byte unicode_IsSpace = [].
Proof. reflexivity. Qed.

Example TrimRightFunc_nbsp :
  strings_TrimRightFunc [x61; xc3; xa9; xc2; xa0]%byte unicode_IsSpace
  = [x61; xc3; xa9]%byte.
Proof. reflexivity. Qed.

Example Sprintf_counter : fmt_Sprintf "%d.yaml" ["7"] = "7.yaml".
Proof. reflexivity. Qed.


Lemma string_app_nil_r (s : string) : s +:+ "" = s.
Proof. induction s as [|c s IH]; [done|]. by rewrite <-IH at 2. Qed.


(** ** The machine: chart store, file system, trace *)

Module Deploy.

Definition DefaultSecretValuesFile : string := "secret-values.yaml".
Definition SecretDirName : string := "secret".
Definition DecodedSecretDirName : string := "decoded-secret".
Definition MoreValuesDirName : string := "more-values".

(** Go's [uint] on the 64-bit targets werf is built for. *)
Definition uint_bits : N := 64.
Definition uint (n : N) : N := (n mod 2 ^ uint_bits)%N.

Record DappChart := {
  ChartDir : path;
  Values : list path;
  Set_ : list string;
  moreValuesCounter : N
}.

Record HelmChartOptions := {
  opt_Set : list string;
  opt_Values : list path;
  KubeContext : string;
  DryRun : bool;
  Debug : bool
}.

(** [os.FileInfo], as far as the sources look at it. *)
Record FileInfo := { Name : string; IsDir : bool }.

Inductive node := File (data : bytes) | Dir.

(** One entry per call that reaches the operating system or the helm
    collaborator, in program order. *)
Inductive event :=
| EvStat (name : path)
| EvReadDir (name : path)
| EvReadFile (name : path) (got : option bytes)
| EvMkdirAll (name : path)
| EvCreate (name : path)
| EvWrite (name : path) (data : bytes)
| EvWriteFile (name : path) (data : bytes)
| EvDeployHelmChart (chartDir : path) (releaseName namespace : string)
                    (opts : HelmChartOptions).

(** A [*DappChart] is an index into the store; [nil] is any index outside. *)
Definition loc := nat.

Record State := {
  store : list DappChart;
  fs : gmap path node;
  trace : list event
}.

Inductive status (A : Type) :=
| Ret (a : A)
| Panic
| OutOfFuel.
Arguments Ret {A} a.
Arguments Panic {A}.
Arguments OutOfFuel {A}.

Definition M (A : Type) : Type := State → status A * State.

Global Instance M_ret : MRet M := λ A a s, (Ret a, s).
Global Instance M_bind : MBind M := λ A B f m s,
  match m s with
  | (Ret a, s') => f a s'
  | (Panic, s') => (Panic, s')
  | (OutOfFuel, s') => (OutOfFuel, s')
  end.

Definition panic {A} : M A := λ s, (Panic, s).
Definition out_of_fuel {A} : M A := λ s, (OutOfFuel, s).

Definition get_fs : M (gmap path node) := λ s, (Ret (fs s), s).
Definition put_fs (m : gmap path node) : M unit := λ s,
  (Ret tt, {| store := store s; fs := m; trace := trace s |}).
Definition emit (e : event) : M unit := λ s,
  (Ret tt, {| store := store s; fs := fs s; trace := trace s ++ [e] |}).

(** [*chart], [*chart = c] and [&DappChart{...}]. *)
Definition load (chart : loc) : M DappChart := λ s,
  match store s !! chart with
  | Some c => (Ret c, s)
  | None => (Panic, s)
  end.
Definition store_at (chart : loc) (c : DappChart) : M unit := λ s,
  match store s !! chart with
  | Some _ => (Ret tt, {| store := <[chart := c]> (store s); fs := fs s; trace := trace s |})
  | None => (Panic, s)
  end.
Definition new_chart (c : DappChart) : M loc := λ s,
  (Ret (length (store s)), {| store := store s ++ [c]; fs := fs s; trace := trace s |}).

(** A [for ... range] loop whose body may [return err]. *)
Fixpoint for_range {A} (xs : list A) (body : A → M (option error)) : M (option error) :=
  match xs with
  | [] => mret None
  | x :: xs' =>
      err ← body x;
      if err is Some e then mret (Some e) else for_range xs' body
  end.

(** ** Package [os], [io/ioutil] *)

(** The starting directory always exists. *)
Definition node_at (m : gmap path node) (name : path) : option node :=
  match name with
  | [] => Some Dir
  | _ => m !! name
  end.

Definition info_of (name : path) (n : node) : FileInfo :=
  {| Name := default "" (last name);
     IsDir := match n with Dir => true | File _ => false end |}.

(** [os.Stat] and [os.Lstat] (there are no symbolic links in this model).
    A name that is not there is reported as not existing, under the
    operation [stat]. *)
Definition os_Stat (name : path) : M (option FileInfo * option error) :=
  emit (EvStat name);;
  m ← get_fs;
  match node_at m name with
  | Some n => mret (Some (info_of name n), None)
  | None => mret (None, Some (PathError "stat" name ENOENT))
  end.

(** Top-down creation of the missing directories of [todo] below [done]. *)
Fixpoint mkdir_all (m : gmap path node) (done todo : path) : option (gmap path node) :=
  match todo with
  | [] => Some m
  | n :: todo' =>
      let d := done ++ [n] in
      match m !! d with
      | Some Dir => mkdir_all m d todo'
      | Some (File _) => None
      | None => mkdir_all (<[d := Dir]> m) d todo'
      end
  end.

(** The component of [todo] below [done] that is in the way of
    [mkdir_all]: the first one that is a regular file. *)
Fixpoint in_the_way (m : gmap path node) (done todo : path) : path :=
  match todo with
  | [] => done
  | n :: todo' =>
      let d := done ++ [n] in
      match m !! d with
      | Some (File _) => d
      | _ => in_the_way m d todo'
      end
  end.

(** [os.MkdirAll]: nothing is created when a component is a regular file,
    and the error names that component. *)
Definition os_MkdirAll (name : path) : M (option error) :=
  emit (EvMkdirAll name);;
  m ← get_fs;
  match mkdir_all m [] name with
  | Some m' => put_fs m';; mret None
  | None => mret (Some (PathError "mkdir" (in_the_way m [] name) ENOTDIR))
  end.

(** Why opening [name] for writing (create, truncate) would fail. *)
Definition open_for_write (m : gmap path node) (name : path) : option errno :=
  match node_at m name with
  | Some Dir => Some EISDIR
  | _ =>
      match node_at m (filepath_Dir name) with
      | Some Dir => None
      | Some (File _) => Some ENOTDIR
      | None => Some ENOENT
      end
  end.

(** [ioutil.WriteFile] *)
Definition ioutil_WriteFile (name : path) (data : bytes) : M (option error) :=
  emit (EvWriteFile name data);;
  m ← get_fs;
  match open_for_write m name with
  | Some e => mret (Some (PathError "open" name e))
  | None => put_fs (<[name := File data]> m);; mret None
  end.

(** [os.Create]; an [*os.File] is represented by the name it was opened
    under. *)
Definition os_Create (name : path) : M (option path * option error) :=
  emit (EvCreate name);;
  m ← get_fs;
  match open_for_write m name with
  | Some e => mret (None, Some (PathError "open" name e))
  | None => put_fs (<[name := File []]> m);; mret (Some name, None)
  end.

(** [f.Write(b)] on a file written front to back. *)
Definition File_Write (f : option path) (b : bytes) : M (nat * option error) :=
  match f with
  | None => panic
  | Some name =>
      emit (EvWrite name b);;
      m ← get_fs;
      match node_at m name with
      | Some (File old) => put_fs (<[name := File (old ++ b)]> m);; mret (length b, None)
      | _ => mret (0, Some (PathError "write" name ENOENT))
      end
  end.

(** Why a name that is not there cannot be opened: a component on the
    way to it is a regular file, or it does not exist. *)
Definition missing (m : gmap path node) (name : path) : errno :=
  if existsb (λ k, if m !! take k name is Some (File _) then true else false)
             (seq 1 (length name - 1))
  then ENOTDIR else ENOENT.

(** [ioutil.ReadFile] *)
Definition ioutil_ReadFile (name : path) : M (bytes * option error) :=
  m ← get_fs;
  match node_at m name with
  | Some (File data) => emit (EvReadFile name (Some data));; mret (data, None)
  | Some Dir => emit (EvReadFile name None);; mret ([], Some (PathError "read" name EISDIR))
  | None =>
      emit (EvReadFile name None);; mret ([], Some (PathError "open" name (missing m name)))
  end.

(** Directory entries come back sorted by name, as [ioutil.ReadDir] and
    the [readDirNames] of [filepath.Walk] deliver them. *)
Definition name_le (a b : string) : Prop := String.leb a b.
Global Instance name_le_dec : RelDecision name_le.
Proof. intros a b. unfold name_le. apply _. Defined.

Definition entry_of (dir : path) (kv : path * node) : option FileInfo :=
  match path_rel dir kv.1 with
  | Some [n] => Some (info_of kv.1 kv.2)
  | _ => None
  end.

Definition info_le (a b : FileInfo) : Prop := name_le (Name a) (Name b).
Global Instance info_le_dec : RelDecision info_le.
Proof. intros a b. unfold info_le. apply _. Defined.

Definition entries (m : gmap path node) (dir : path) : list FileInfo :=
  merge_sort info_le (omap (entry_of dir) (map_to_list m)).

Definition ioutil_ReadDir (dirname : path) : M (list FileInfo * option error) :=
  emit (EvReadDir dirname);;
  m ← get_fs;
  match node_at m dirname with
  | Some Dir => mret (entries m dirname, None)
  | Some (File _) => mret ([], Some (PathError "readdir" dirname ENOTDIR))
  | None => mret ([], Some (PathError "open" dirname ENOENT))
  end.

Definition readDirNames (dirname : path) : M (list string * option error) :=
  '(infos, err) ← ioutil_ReadDir dirname;
  mret (Name <$> infos, err).

(** ** Package [github.com/otiai10/copy] *)

(** [copy.copy]: [dcopy] for a directory, [fcopy] for a regular file.  The
    recursion follows the directory tree as it is when each directory is
    listed, so it carries a budget. *)
Fixpoint copy_copy (fuel : nat) (src dest : path) (info : FileInfo) : M (option error) :=
  match fuel with
  | O => out_of_fuel
  | S fuel' =>
      if IsDir info then
        err ← os_MkdirAll dest;
        if err is Some e then mret (Some e) else
        '(contents, err) ← ioutil_ReadDir src;
        if err is Some e then mret (Some e) else
        for_range contents (λ content,
          let cs := filepath_Join [src; [Name content]] in
          let cd := filepath_Join [dest; [Name content]] in
          copy_copy fuel' cs cd content)
      else
        err ← os_MkdirAll (filepath_Dir dest);
        if err is Some e then mret (Some e) else
        '(f, err) ← os_Create dest;
        if err is Some e then mret (Some e) else
        '(data, err) ← ioutil_ReadFile src;
        if err is Some e then mret (Some e) else
        '(_, err) ← File_Write f data;
        mret err
  end.

(** [copy.Copy] *)
Definition copy_Copy (fuel : nat) (src dest : path) : M (option error) :=
  '(info, err) ← os_Stat src;
  match info, err with
  | _, Some e => mret (Some e)
  | Some info, None => copy_copy fuel src dest info
  | None, None => panic
  end.

(** ** Package [path/filepath]: [Walk] *)

Definition WalkFunc : Type := path → option FileInfo → option error → M (option error).

Fixpoint walk (fuel : nat) (p : path) (info : FileInfo) (walkFn : WalkFunc) : M (option error) :=
  match fuel with
  | O => out_of_fuel
  | S fuel' =>
      if negb (IsDir info) then walkFn p (Some info) None else
      '(names, err) ← readDirNames p;
      err1 ← walkFn p (Some info) err;
      if bool_decide (err ≠ None) || bool_decide (err1 ≠ None) then mret err1 else
      for_range names (λ name,
        let filename := filepath_Join [p; [name]] in
        '(fileInfo, err) ← os_Stat filename;
        match err, fileInfo with
        | Some e, _ =>
            err ← walkFn filename fileInfo (Some e);
            if bool_decide (err ≠ None) && bool_decide (err ≠ Some SkipDir)
            then mret err else mret None
        | None, Some fileInfo =>
            err ← walk fuel' filename fileInfo walkFn;
            if bool_decide (err ≠ None)
            then (if negb (IsDir fileInfo) || bool_decide (err ≠ Some SkipDir)
                  then mret err else mret None)
            else mret None
        | None, None => panic
        end)
  end.

Definition filepath_Walk (fuel : nat) (root : path) (walkFn : WalkFunc) : M (option error) :=
  '(info, err) ← os_Stat root;
  err ← match err, info with
        | Some e, _ => walkFn root None (Some e)
        | None, Some info => walk fuel root info walkFn
        | None, None => panic
        end;
  if bool_decide (err = Some SkipDir) then mret None else mret err.

(** ** Package [deploy]: [dapp_chart.go] *)

Section Package.

(** What the file imports from the rest of the program: the type of
    [secret.Secret] implementations, YAML marshalling of a values map, the
    helpers template and [DeployHelmChart], which sees the file system but
    holds no chart pointer. *)
Context {Secret : Type} {values_map : Type}.
Context (yaml_Marshal : values_map → bytes * option error).
Context (GoString : values_map → string).
Context (DappChartHelpersTpl : bytes).
Context (DeployHelmChart :
  path → string → string → HelmChartOptions → gmap path node → option error * gmap path node).

Definition decodeSecretValues (data : bytes) (secret : option Secret) : bytes * option error :=
  (data, None).

Definition decodeSecret (data : bytes) (secret : option Secret) : bytes * option error :=
  (data, None).

Definition SetGlobalAnnotation (chart : loc) (name value : string) : M (option error) :=
  mret None.

Definition more_values_path (c : DappChart) : path :=
  filepath_Join [ChartDir c; [MoreValuesDirName];
                 [fmt_Sprintf "%d.yaml" [pretty (moreValuesCounter c)]]].

Definition SetValues (chart : loc) (values : values_map) : M (option error) :=
  c ← load chart;
  let p := more_values_path c in
  err ← os_MkdirAll (filepath_Dir p);
  if err is Some e then mret (Some e) else
  let '(data, err) := yaml_Marshal values in
  if err is Some e then
    mret (Some (fmt_Errorf "cannot marshal values %#v to yaml: %s" [GoString values; Error e]))
  else
  err ← ioutil_WriteFile p data;
  if err is Some e then
    mret (Some (fmt_Errorf "error writing values file %s: %s"
                           [path_string p; String.string_of_list_byte data]))
  else
  c ← load chart;
  store_at chart {| ChartDir := ChartDir c; Values := Values c ++ [p]; Set_ := Set_ c;
                    moreValuesCounter := moreValuesCounter c |};;
  c ← load chart;
  store_at chart {| ChartDir := ChartDir c; Values := Values c; Set_ := Set_ c;
                    moreValuesCounter := uint (moreValuesCounter c + 1) |};;
  mret None.

Definition SetValuesSet (chart : loc) (set : string) : M (option error) :=
  c ← load chart;
  store_at chart {| ChartDir := ChartDir c; Values := Values c; Set_ := Set_ c ++ [set];
                    moreValuesCounter := moreValuesCounter c |};;
  mret None.

Definition SetValuesFile (chart : loc) (p : path) : M (option error) :=
  c ← load chart;
  store_at chart {| ChartDir := ChartDir c; Values := Values c ++ [p]; Set_ := Set_ c;
                    moreValuesCounter := moreValuesCounter c |};;
  mret None.

Definition SetSecretValuesFile (chart : loc) (p : path) (secret : option Secret)
  : M (option error) :=
  '(data, err) ← ioutil_ReadFile p;
  if err is Some e then
    mret (Some (fmt_Errorf "cannot read secret values file %s: %s" [path_string p; Error e]))
  else
  let '(decodedData, err) := decodeSecretValues data secret in
  if err is Some e then
    mret (Some (fmt_Errorf "cannot decode secret values file %s data: %s"
                           [path_string p; Error e]))
  else
  c ← load chart;
  let newPath := more_values_path c in
  err ← os_MkdirAll (filepath_Dir newPath);
  if err is Some e then mret (Some e) else
  err ← ioutil_WriteFile newPath decodedData;
  if err is Some e then
    mret (Some (fmt_Errorf "cannot write decoded secret values file %s: %s"
                           [path_string newPath; Error e]))
  else
  c ← load chart;
  store_at chart {| ChartDir := ChartDir c; Values := Values c ++ [newPath]; Set_ := Set_ c;
                    moreValuesCounter := moreValuesCounter c |};;
  c ← load chart;
  store_at chart {| ChartDir := ChartDir c; Values := Values c; Set_ := Set_ c;
                    moreValuesCounter := uint (moreValuesCounter c + 1) |};;
  mret None.

(** The call of [DeployHelmChart], recorded with its arguments. *)
Definition call_DeployHelmChart (chartDir : path) (releaseName namespace : string)
    (opts : HelmChartOptions) : M (option error) :=
  emit (EvDeployHelmChart chartDir releaseName namespace opts);;
  m ← get_fs;
  let '(err, m') := DeployHelmChart chartDir releaseName namespace opts m in
  put_fs m';;
  mret err.

Definition Deploy (chart : loc) (releaseName namespace : string) (opts : HelmChartOptions)
  : M (option error) :=
  c ← load chart;
  call_DeployHelmChart (ChartDir c) releaseName namespace
    {| opt_Set := Set_ c ++ opt_Set opts;
       opt_Values := Values c ++ opt_Values opts;
       KubeContext := KubeContext opts;
       DryRun := DryRun opts;
       Debug := Debug opts |}.

Definition Render (chart : loc) : M (option error) := mret None.
Definition Lint (chart : loc) : M (option error) := mret None.

Record DappChartOptions := { opt_Secret : option Secret }.

(** The callback [PrepareDappChart] hands to [filepath.Walk]. *)
Definition decode_walkFn (secretDir targetDir : path) (opts : DappChartOptions) : WalkFunc :=
  λ p info accessErr,
  if accessErr is Some e then
    mret (Some (fmt_Errorf "error accessing file %s: %s" [path_string p; Error e]))
  else
  match info with
  | None => panic
  | Some info =>
      if IsDir info then mret None else
      let relativePath := strings_TrimPrefix p secretDir in
      let newPath := filepath_Join [targetDir; [DecodedSecretDirName]; relativePath] in
      if bool_decide (opt_Secret opts = None) then
        err ← os_MkdirAll (filepath_Dir newPath);
        if err is Some e then mret (Some e) else
        err ← ioutil_WriteFile newPath [];
        if err is Some e then
          mret (Some (fmt_Errorf "unable to create decoded secret file %s: %s"
                                 [path_string newPath; Error e]))
        else mret None
      else
      '(data, err) ← ioutil_ReadFile p;
      if err is Some e then
        mret (Some (fmt_Errorf "error reading file %s: %s" [path_string p; Error e]))
      else
      let '(decodedData, err) :=
        decodeSecret (strings_TrimRightFunc data unicode_IsSpace) (opt_Secret opts) in
      if err is Some e then
        mret (Some (fmt_Errorf "error decoding %s: %s" [path_string p; Error e]))
      else
      err ← os_MkdirAll (filepath_Dir newPath);
      if err is Some e then mret (Some e) else
      err ← ioutil_WriteFile newPath decodedData;
      if err is Some e then
        mret (Some (fmt_Errorf "error writing file %s: %s" [path_string newPath; Error e]))
      else mret None
  end.

Definition PrepareDappChart (fuel : nat) (projectDir targetDir : path) (opts : DappChartOptions)
  : M (option loc * option error) :=
  dappChart ← new_chart {| ChartDir := targetDir; Values := []; Set_ := [];
                           moreValuesCounter := 0 |};
  let projectHelmDir := filepath_Join [projectDir; [".helm"]] in
  err ← copy_Copy fuel projectHelmDir targetDir;
  if err is Some e then
    mret (None, Some (fmt_Errorf "unable to copy project helm dir %s into %s: %s"
                        [path_string projectHelmDir; path_string targetDir; Error e]))
  else
  let helpersTplPath := filepath_Join [targetDir; ["templates"; "_dapp_helpers.tpl"]] in
  '(f, err) ← os_Create helpersTplPath;
  if err is Some e then
    mret (None, Some (fmt_Errorf "unable to create %s: %s" [path_string helpersTplPath; Error e]))
  else
  '(_, err) ← File_Write f DappChartHelpersTpl;
  if err is Some e then
    mret (None, Some (fmt_Errorf "unable to write %s: %s" [path_string helpersTplPath; Error e]))
  else
  let defaultSecretValues := filepath_Join [projectDir; [DefaultSecretValuesFile]] in
  '(_, err) ← os_Stat defaultSecretValues;
  err ← (if negb (os_IsNotExist err)
         then SetSecretValuesFile dappChart defaultSecretValues (opt_Secret opts)
         else mret None);
  if err is Some e then mret (None, Some e) else
  let secretDir := filepath_Join [projectDir; [SecretDirName]] in
  '(_, err) ← os_Stat secretDir;
  err ← (if negb (os_IsNotExist err)
         then filepath_Walk fuel secretDir (decode_walkFn secretDir targetDir opts)
         else mret None);
  if err is Some e then mret (None, Some e) else
  mret (Some dappChart, None).

(** [dapp.GetTmpDir()], and [GenerateDappChart], which takes the string
    of the UUID that [uuid.NewV4()] draws (a UUID holds no separator, so
    the name it gives is one path component). *)
Context (dapp_GetTmpDir : path).

Definition GenerateDappChart (fuel : nat) (uuid_NewV4 : string) (projectDir : path)
    (opts : DappChartOptions) : M (option loc * option error) :=
  let tmpChartPath :=
    filepath_Join [dapp_GetTmpDir; [fmt_Sprintf "dapp-chart-%s" [uuid_NewV4]]] in
  PrepareDappChart fuel projectDir tmpChartPath opts.


(** ** Specification vocabulary *)

(** The two calls that write a generated values file. *)
Inductive values_write :=
| ByValues (values : values_map)
| BySecretFile (p : path) (secret : option Secret).

Definition write_values (chart : loc) (w : values_write) : M (option error) :=
  match w with
  | ByValues values => SetValues chart values
  | BySecretFile p secret => SetSecretValuesFile chart p secret
  end.

(** [n++] on a [uint]. *)
Definition uint_inc (n : N) : N := uint (n + 1).

Definition values_file (chartDir : path) (counter : N) : path :=
  chartDir ++ [MoreValuesDirName; pretty counter +:+ ".yaml"].

(** A node keeps its kind: directories stay directories, regular files
    stay regular files (their content may change), nothing disappears. *)
Definition same_kind (a b : option node) : Prop :=
  match a with
  | Some Dir => b = Some Dir
  | Some (File _) => ∃ d, b = Some (File d)
  | None => True
  end.

Definition kinds_kept (s s' : State) : Prop :=
  ∀ q, same_kind (fs s !! q) (fs s' !! q).

Definition trace_grows (s s' : State) : Prop :=
  trace s `prefix_of` trace s'.

(** [preserves R m]: whatever [m] does and however it ends, the state it
    leaves is [R]-related to the state it started from. *)
Definition preserves {A} (R : relation State) (m : M A) : Prop :=
  ∀ s, R s (m s).2.

(** [returns m P]: every value [m] returns satisfies [P]. *)
Definition returns {A} (m : M A) (P : A → Prop) : Prop :=
  ∀ s a s', m s = (Ret a, s') → P a.

(** A discipline: which events may be recorded ([ok]), where directories
    may be made ([mk]) and where files may be written ([wr]) without
    leaving the relation [R]; allocating a chart and updating a chart
    that keeps its [ChartDir] never leave it. *)
Class Discipline (ok : event → Prop) (mk wr : path → Prop) (R : relation State) : Prop := {
  disc_preorder :: PreOrder R;
  disc_emit e s : ok e → R s (emit e s).2;
  disc_mkdir p m' s : mk p → mkdir_all (fs s) [] p = Some m' → R s (put_fs m' s).2;
  disc_file p d s :
    wr p → node_at (fs s) p ≠ Some Dir → R s (put_fs (<[p := File d]> (fs s)) s).2;
  disc_new c s : R s (new_chart c s).2;
  disc_update chart c c' s :
    store s !! chart = Some c → ChartDir c' = ChartDir c →
    R s {| store := <[chart := c']> (store s); fs := fs s; trace := trace s |}
}.

(** [preserves_on I R m]: as [preserves], for the runs that start in a
    state satisfying [I]. *)
Definition preserves_on {A} (I : State → Prop) (R : relation State) (m : M A) : Prop :=
  ∀ s, I s → R s (m s).2.

(** The chart behind pointer [chart] has the given [ChartDir]. *)
Definition chart_at (chart : loc) (chartDir : path) (s : State) : Prop :=
  ∃ c, store s !! chart = Some c ∧ ChartDir c = chartDir.

(** Charts stay where they are and keep their [ChartDir]. *)
Definition chartdirs_kept (s s' : State) : Prop :=
  ∀ chart c, store s !! chart = Some c →
             ∃ c', store s' !! chart = Some c' ∧ ChartDir c' = ChartDir c.

(** What a discipline has to allow for a path that is read, for one that
    is written, and for one where directories are made. *)
Definition reads_ok (ok : event → Prop) (q : path) : Prop :=
  ok (EvStat q) ∧ ok (EvReadDir q) ∧ ∀ got, ok (EvReadFile q got).

Definition mkdir_ok (ok : event → Prop) (mk : path → Prop) (q : path) : Prop :=
  ok (EvMkdirAll q) ∧ mk q.

Definition writes_ok (ok : event → Prop) (mk wr : path → Prop) (q : path) : Prop :=
  mkdir_ok ok mk q ∧ wr q ∧ ok (EvCreate q) ∧
  (∀ b, ok (EvWrite q b)) ∧ (∀ b, ok (EvWriteFile q b)).

(** The events of a run that reads below [projectDir] and writes below
    [targetDir]; [os.MkdirAll] may also be asked for the directory that
    holds [targetDir]. *)
Definition event_within (projectDir targetDir : path) (e : event) : Prop :=
  match e with
  | EvStat q | EvReadDir q | EvReadFile q _ => projectDir `prefix_of` q
  | EvMkdirAll q => targetDir `prefix_of` q ∨ q `prefix_of` targetDir
  | EvCreate q | EvWrite q _ | EvWriteFile q _ => targetDir `prefix_of` q
  | EvDeployHelmChart _ _ _ _ => False
  end.

(** The frame of such a run: the new events are of that kind, and a path
    outside [targetDir] keeps its node, except that a missing directory on
    the way down to [targetDir] may have been made. *)
Definition frame (projectDir targetDir : path) (s s' : State) : Prop :=
  (∃ new, trace s' = trace s ++ new ∧ Forall (event_within projectDir targetDir) new) ∧
  (∀ q, fs s' !! q = fs s !! q ∨ targetDir `prefix_of` q ∨
        (q `prefix_of` targetDir ∧ fs s !! q = None ∧ fs s' !! q = Some Dir)).

(** Neither directory lies inside the other. *)
Definition separate (a b : path) : Prop :=
  ¬ a `prefix_of` b ∧ ¬ b `prefix_of` a.

(** Every entry sits in a directory: the file system is a tree. *)
Definition tree_shaped (m : gmap path node) : Prop :=
  ∀ p n x, m !! (p ++ [n]) = Some x → node_at m p = Some Dir.

(** [root ++ rel] is a regular file that is reached from [root] through
    directories only. *)
Definition file_below (m : gmap path node) (root rel : path) : Prop :=
  (∃ d, node_at m (root ++ rel) = Some (File d)) ∧
  ∀ k, k < length rel → node_at m (root ++ take k rel) = Some Dir.

(** Where [PrepareDappChart] puts the decoded form of [secret/rel]. *)
Definition decoded_file (targetDir rel : path) : path :=
  targetDir ++ [DecodedSecretDirName] ++ rel.

(** The record [os.Stat] returns agrees with the node at the path. *)
Definition info_matches (info : FileInfo) (m : gmap path node) (p : path) : Prop :=
  IsDir info = true ↔ node_at m p = Some Dir.

(** The two calls that hand a setting over as it is. *)
Inductive chart_setting :=
| BySet (set : string)
| ByFile (p : path).

Definition apply_setting (chart : loc) (x : chart_setting) : M (option error) :=
  match x with
  | BySet set => SetValuesSet chart set
  | ByFile p => SetValuesFile chart p
  end.

Definition sets_of (xs : list chart_setting) : list string :=
  omap (λ x, if x is BySet set then Some set else None) xs.

Definition files_of (xs : list chart_setting) : list path :=
  omap (λ x, if x is ByFile p then Some p else None) xs.

(** The store does not change. *)
Definition store_kept (s s' : State) : Prop := store s' = store s.

(** Outside [dir] nothing changes, except that a missing directory may
    have been made. *)
Definition outside_kept (dir : path) (s s' : State) : Prop :=
  ∀ q, ¬ dir `prefix_of` q →
       fs s' !! q = fs s !! q ∨ (fs s !! q = None ∧ fs s' !! q = Some Dir).

(** What a copy from [src] to [dest] keeps: the kind of every node, the
    tree below [src], and every file below [dest] that already is the copy
    of its source. *)
Definition copy_rel (src dest : path) (s s' : State) : Prop :=
  kinds_kept s s' ∧
  (∀ q, src `prefix_of` q → fs s' !! q = fs s !! q) ∧
  (∀ rel d, fs s !! (src ++ rel) = Some (File d) →
            fs s !! (dest ++ rel) = Some (File d) →
            fs s' !! (dest ++ rel) = Some (File d)).

(** The events a run records all satisfy [ok]. *)
Definition events_ok (ok : event → Prop) (s s' : State) : Prop :=
  ∃ new, trace s' = trace s ++ new ∧ Forall ok new.

(** Events that read the content of no file but those below [.helm] and
    [secret-values.yaml]. *)
Definition reads_chart_only (projectDir : path) (e : event) : Prop :=
  match e with
  | EvReadFile q _ =>
      (projectDir ++ [".helm"]) `prefix_of` q ∨ q = projectDir ++ [DefaultSecretValuesFile]
  | _ => True
  end.


(** ** Reasoning about runs *)


Section Preserves.
Context (R : relation State) `{!PreOrder R}.

Lemma preserves_ret {A} (a : A) : preserves R (mret a).
Proof. intros s. reflexivity. Qed.

Lemma preserves_panic {A} : preserves R (@panic A).
Proof. intros s. reflexivity. Qed.

Lemma preserves_out_of_fuel {A} : preserves R (@out_of_fuel A).
Proof. intros s. reflexivity. Qed.

Lemma preserves_get_fs : preserves R get_fs.
Proof. intros s. reflexivity. Qed.

Lemma preserves_load chart : preserves R (load chart).
Proof. intros s. unfold load. case_match; reflexivity. Qed.

Lemma preserves_bind {A B} (m : M A) (f : A → M B) :
  preserves R m → (∀ a, preserves R (f a)) → preserves R (m ≫= f).
Proof.
  intros Hm Hf s. unfold mbind, M_bind.
  specialize (Hm s). destruct (m s) as [[a| |] s1]; simpl in *; try done.
  etrans; [exact Hm|apply Hf].
Qed.

Lemma preserves_bind_returns {A B} (m : M A) (f : A → M B) (P : A → Prop) :
  preserves R m → returns m P → (∀ a, P a → preserves R (f a)) →
  preserves R (m ≫= f).
Proof.
  intros Hm HP Hf s. unfold mbind, M_bind.
  specialize (Hm s). specialize (HP s).
  destruct (m s) as [[a| |] s1]; simpl in *; try done.
  etrans; [exact Hm|]. apply Hf. by eapply HP.
Qed.

Lemma preserves_for_range {A} (xs : list A) (body : A → M (option error)) :
  (∀ x, x ∈ xs → preserves R (body x)) → preserves R (for_range xs body).
Proof.
  induction xs as [|x xs IH]; intros Hb; simpl.
  - apply preserves_ret.
  - apply preserves_bind; [apply Hb; left|].
    intros [e|]; [apply preserves_ret|].
    apply IH. intros y Hy. apply Hb. by right.
Qed.
End Preserves.

Section DisciplineRules.
Context {ok : event → Prop} {mk wr : path → Prop} {R : relation State}.
Context `{!Discipline ok mk wr R}.

Lemma open_for_write_not_dir m name :
  open_for_write m name = None → node_at m name ≠ Some Dir.
Proof. unfold open_for_write. repeat case_match; congruence. Qed.

Lemma preserves_emit e : ok e → preserves R (emit e).
Proof. intros He s. by apply disc_emit. Qed.

Lemma preserves_os_Stat name : ok (EvStat name) → preserves R (os_Stat name).
Proof.
  intros He. unfold os_Stat.
  apply preserves_bind; [apply _|by apply preserves_emit|intros _].
  apply preserves_bind; [apply _|apply preserves_get_fs, _|intros m].
  case_match; apply preserves_ret, _.
Qed.

Lemma preserves_ioutil_ReadDir name :
  ok (EvReadDir name) → preserves R (ioutil_ReadDir name).
Proof.
  intros He. unfold ioutil_ReadDir.
  apply preserves_bind; [apply _|by apply preserves_emit|intros _].
  apply preserves_bind; [apply _|apply preserves_get_fs, _|intros m].
  repeat case_match; apply preserves_ret, _.
Qed.

Lemma preserves_readDirNames name :
  ok (EvReadDir name) → preserves R (readDirNames name).
Proof.
  intros He. unfold readDirNames.
  apply preserves_bind; [apply _|by apply preserves_ioutil_ReadDir|intros [??]].
  apply preserves_ret, _.
Qed.

Lemma preserves_ioutil_ReadFile name :
  (∀ got, ok (EvReadFile name got)) → preserves R (ioutil_ReadFile name).
Proof.
  intros He. unfold ioutil_ReadFile.
  apply preserves_bind; [apply _|apply preserves_get_fs, _|intros m].
  repeat case_match;
    (apply preserves_bind; [apply _|by apply preserves_emit|intros _]);
    apply preserves_ret, _.
Qed.

Lemma preserves_os_MkdirAll name :
  ok (EvMkdirAll name) → mk name → preserves R (os_MkdirAll name).
Proof.
  intros He Hmk s. unfold os_MkdirAll, mbind, M_bind, get_fs; simpl.
  destruct (mkdir_all (fs s) [] name) as [m'|] eqn:Hm; simpl.
  - etrans; [by apply (disc_emit (EvMkdirAll name))|].
    by apply (disc_mkdir name m' (emit (EvMkdirAll name) s).2).
  - by apply (disc_emit (EvMkdirAll name)).
Qed.

Lemma preserves_ioutil_WriteFile name data :
  ok (EvWriteFile name data) → wr name → preserves R (ioutil_WriteFile name data).
Proof.
  intros He Hwr s. unfold ioutil_WriteFile, mbind, M_bind, get_fs; simpl.
  destruct (open_for_write (fs s) name) as [e|] eqn:Hm; simpl.
  - by apply (disc_emit (EvWriteFile name data)).
  - etrans; [by apply (disc_emit (EvWriteFile name data))|].
    apply (disc_file name data (emit (EvWriteFile name data) s).2); [done|].
    by apply open_for_write_not_dir.
Qed.

Lemma preserves_os_Create name :
  ok (EvCreate name) → wr name → preserves R (os_Create name).
Proof.
  intros He Hwr s. unfold os_Create, mbind, M_bind, get_fs; simpl.
  destruct (open_for_write (fs s) name) as [e|] eqn:Hm; simpl.
  - by apply (disc_emit (EvCreate name)).
  - etrans; [by apply (disc_emit (EvCreate name))|].
    apply (disc_file name [] (emit (EvCreate name) s).2); [done|].
    by apply open_for_write_not_dir.
Qed.

Lemma preserves_File_Write name b :
  ok (EvWrite name b) → wr name → preserves R (File_Write (Some name) b).
Proof.
  intros He Hwr s. unfold File_Write, mbind, M_bind, get_fs; simpl.
  destruct (node_at (fs s) name) as [[old|]|] eqn:Hm; simpl;
    try by apply (disc_emit (EvWrite name b)).
  etrans; [by apply (disc_emit (EvWrite name b))|].
  apply (disc_file name (old ++ b) (emit (EvWrite name b) s).2); [done|].
  simpl. congruence.
Qed.
End DisciplineRules.

Lemma os_Create_returns name :
  returns (os_Create name) (λ r, r = (Some name, None) ∨ ∃ e, r = (None, Some e)).
Proof.
  intros s r s'. unfold os_Create, emit, get_fs, put_fs, mbind, M_bind, mret, M_ret. simpl.
  case_match; intros; simplify_eq; eauto.
Qed.

(** *** Directory creation *)

Lemma mkdir_all_spec m done todo m' :
  mkdir_all m done todo = Some m' →
  ∀ q, m' !! q = m !! q ∨
       (m !! q = None ∧ m' !! q = Some Dir ∧
        ∃ k, 0 < k ≤ length todo ∧ q = done ++ take k todo).
Proof.
  revert m done. induction todo as [|n todo IH]; intros m done Hm q; simpl in Hm.
  - left. congruence.
  - destruct (m !! (done ++ [n])) as [[d|]|] eqn:Hd; [done| |].
    + destruct (IH _ _ Hm q) as [?|(?&?&k&?&->)]; [by left|right].
      split_and!; [done..|]. exists (S k). simpl. rewrite <-app_assoc. split; [lia|done].
    + destruct (IH _ _ Hm q) as [Hq|(Hq&?&k&?&->)].
      * destruct (decide (q = done ++ [n])) as [->|Hne].
        -- right. rewrite Hq, lookup_insert_eq. split_and!; [done..|].
           exists 1. simpl. rewrite take_0. split; [lia|done].
        -- left. by rewrite Hq, lookup_insert_ne.
      * right. destruct (decide ((done ++ [n]) ++ take k todo = done ++ [n])) as [Heq|Hne].
        -- rewrite Heq, lookup_insert_eq in Hq. done.
        -- rewrite lookup_insert_ne in Hq by done. split_and!; [done..|].
           exists (S k). simpl. rewrite <-app_assoc. split; [lia|done].
Qed.

Lemma mkdir_all_same_kind m done todo m' q :
  mkdir_all m done todo = Some m' → same_kind (m !! q) (m' !! q).
Proof.
  intros Hm. destruct (mkdir_all_spec _ _ _ _ Hm q) as [->|(->&_)]; [|done].
  unfold same_kind. repeat case_match; eauto.
Qed.

Lemma same_kind_refl a : same_kind a a.
Proof. unfold same_kind. repeat case_match; eauto. Qed.

Lemma same_kind_trans a b c : same_kind a b → same_kind b c → same_kind a c.
Proof.
  destruct a as [[?|]|]; simpl; [|by intros ->|done].
  by intros [d ->].
Qed.

Lemma node_at_lookup m q n : q ≠ [] → node_at m q = n → m !! q = n.
Proof. by destruct q. Qed.

Global Instance kinds_kept_preorder : PreOrder kinds_kept.
Proof.
  split.
  - intros s q. apply same_kind_refl.
  - intros s1 s2 s3 H1 H2 q. eapply same_kind_trans; [apply H1|apply H2].
Qed.

Global Instance kinds_kept_discipline :
  Discipline (λ _, True) (λ _, True) (λ _, True) kinds_kept.
Proof.
  split.
  - apply _.
  - intros e s _ q. apply same_kind_refl.
  - intros p m' s _ Hm q. simpl. by eapply mkdir_all_same_kind.
  - intros p d s _ Hp q. simpl.
    destruct (decide (p = q)) as [->|Hne].
    + rewrite lookup_insert_eq. unfold same_kind.
      destruct (fs s !! q) as [[?|]|] eqn:Hq; eauto.
      destruct q; simpl in Hp; congruence.
    + rewrite lookup_insert_ne by done. apply same_kind_refl.
  - intros c s q. apply same_kind_refl.
  - intros chart c c' s _ _ q. apply same_kind_refl.
Qed.

(** *** Paths *)

Lemma filepath_Join2 (a b : path) : filepath_Join [a; b] = a ++ b.
Proof. unfold filepath_Join. simpl. by rewrite app_nil_r. Qed.

Lemma filepath_Join3 (a b c : path) : filepath_Join [a; b; c] = a ++ b ++ c.
Proof. unfold filepath_Join. simpl. by rewrite app_nil_r. Qed.

Lemma filepath_Dir_snoc (a : path) (n : string) : filepath_Dir (a ++ [n]) = a.
Proof. unfold filepath_Dir. apply removelast_last. Qed.

Lemma filepath_Dir_app (a b : path) :
  b ≠ [] → filepath_Dir (a ++ b) = a ++ filepath_Dir b.
Proof. intros Hb. unfold filepath_Dir. by apply removelast_app. Qed.

Lemma more_values_path_eq c :
  more_values_path c = values_file (ChartDir c) (moreValuesCounter c).
Proof. unfold more_values_path. by rewrite filepath_Join3. Qed.

Lemma decoded_path_under targetDir rel :
  targetDir `prefix_of` filepath_Join [targetDir; [DecodedSecretDirName]; rel] ∧
  targetDir `prefix_of` filepath_Dir (filepath_Join [targetDir; [DecodedSecretDirName]; rel]).
Proof.
  rewrite filepath_Join3. split; [by apply prefix_app_r|].
  rewrite filepath_Dir_app by done. by apply prefix_app_r.
Qed.

Lemma more_values_path_under c :
  ChartDir c `prefix_of` more_values_path c ∧
  ChartDir c `prefix_of` filepath_Dir (more_values_path c).
Proof.
  rewrite more_values_path_eq. unfold values_file. split; [by apply prefix_app_r|].
  rewrite filepath_Dir_app by done. by apply prefix_app_r.
Qed.

(** *** Store and trace rules *)

Section StoreRules.
Context {ok : event → Prop} {mk wr : path → Prop} {R : relation State}.
Context `{!Discipline ok mk wr R}.

Lemma preserves_new_chart c : preserves R (new_chart c).
Proof. intros s. apply disc_new. Qed.

Lemma preserves_update_then {B} chart (f : DappChart → DappChart) (k : M B) :
  (∀ c, ChartDir (f c) = ChartDir c) →
  preserves R k →
  preserves R (c ← load chart; store_at chart (f c);; k).
Proof.
  intros Hf Hk s. unfold load, store_at, mbind, M_bind.
  destruct (store s !! chart) as [c|] eqn:Hc; simpl; [|reflexivity].
  rewrite Hc. etrans; [by apply (disc_update chart c (f c))|]. apply Hk.
Qed.

Lemma preserves_on_weaken {A} (I : State → Prop) (m : M A) :
  preserves R m → preserves_on I R m.
Proof. intros Hm s _. apply Hm. Qed.

Lemma preserves_on_bind {A B} (I : State → Prop) (m : M A) (f : A → M B) :
  (∀ s s', I s → R s s' → I s') →
  preserves R m → (∀ a, preserves_on I R (f a)) →
  preserves_on I R (m ≫= f).
Proof.
  intros HI Hm Hf s Hs. unfold mbind, M_bind.
  specialize (Hm s). destruct (m s) as [[a| |] s1]; simpl in *; try done.
  etrans; [exact Hm|]. apply Hf. by eapply HI.
Qed.

Lemma preserves_on_bind_returns {A B} (I : State → Prop) (m : M A) (f : A → M B)
    (P : A → Prop) :
  (∀ s s', I s → R s s' → I s') →
  preserves R m → returns m P → (∀ a, P a → preserves_on I R (f a)) →
  preserves_on I R (m ≫= f).
Proof.
  intros HI Hm HP Hf s Hs. unfold mbind, M_bind.
  specialize (Hm s). specialize (HP s). destruct (m s) as [[a| |] s1]; simpl in *; try done.
  etrans; [exact Hm|]. apply Hf; [by eapply HP|by eapply HI].
Qed.

(** The tail shared by [SetValues] and [SetSecretValuesFile]. *)
Lemma preserves_commit_values chart p :
  preserves R
    (c ← load chart;
     store_at chart {| ChartDir := ChartDir c; Values := Values c ++ [p]; Set_ := Set_ c;
                       moreValuesCounter := moreValuesCounter c |};;
     c ← load chart;
     store_at chart {| ChartDir := ChartDir c; Values := Values c; Set_ := Set_ c;
                       moreValuesCounter := uint (moreValuesCounter c + 1) |};;
     mret (@None error)).
Proof.
  apply (preserves_update_then chart
           (λ c, {| ChartDir := ChartDir c; Values := Values c ++ [p]; Set_ := Set_ c;
                    moreValuesCounter := moreValuesCounter c |})); [done|].
  apply (preserves_update_then chart
           (λ c, {| ChartDir := ChartDir c; Values := Values c; Set_ := Set_ c;
                    moreValuesCounter := uint (moreValuesCounter c + 1) |})); [done|].
  apply preserves_ret, _.
Qed.

Lemma preserves_SetValues chart values :
  (∀ c, mkdir_ok ok mk (filepath_Dir (more_values_path c)) ∧
        wr (more_values_path c) ∧ ∀ d, ok (EvWriteFile (more_values_path c) d)) →
  preserves R (SetValues chart values).
Proof.
  intros Hc. unfold SetValues.
  apply preserves_bind; [apply _|apply preserves_load, _|intros c].
  destruct (Hc c) as ((?&?)&?&?).
  apply preserves_bind; [apply _|by apply preserves_os_MkdirAll|intros [e|]].
  { apply preserves_ret, _. }
  destruct (yaml_Marshal values) as [data [e|]]; [apply preserves_ret, _|].
  apply preserves_bind; [apply _|by apply preserves_ioutil_WriteFile|intros [e|]].
  { apply preserves_ret, _. }
  apply preserves_commit_values.
Qed.

Lemma preserves_on_SetSecretValuesFile chart chartDir p secret :
  (∀ s s', R s s' → chartdirs_kept s s') →
  (∀ got, ok (EvReadFile p got)) →
  (∀ q, chartDir `prefix_of` q → writes_ok ok mk wr q) →
  preserves_on (chart_at chart chartDir) R (SetSecretValuesFile chart p secret).
Proof.
  intros HR Hp Hwr. unfold SetSecretValuesFile.
  assert (∀ s s', chart_at chart chartDir s → R s s' → chart_at chart chartDir s') as HI.
  { intros s s' (c&Hc&<-) Hss. destruct (HR _ _ Hss _ _ Hc) as (c'&?&?). by exists c'. }
  apply preserves_on_bind; [done|by apply preserves_ioutil_ReadFile|intros [data [e|]]].
  { apply preserves_on_weaken, preserves_ret, _. }
  simpl. intros s (c&Hc&<-).
  unfold mbind, M_bind, load at 1. rewrite Hc.
  generalize s. apply preserves_bind; [apply _| |intros [e|]].
  - destruct (Hwr (filepath_Dir (more_values_path c))) as ((?&?)&_);
      [apply more_values_path_under|].
    by apply preserves_os_MkdirAll.
  - apply preserves_ret, _.
  - destruct (Hwr (more_values_path c)) as (_&?&_&_&?); [apply more_values_path_under|].
    apply preserves_bind; [apply _|by apply preserves_ioutil_WriteFile|intros [e|]].
    { apply preserves_ret, _. }
    apply preserves_commit_values.
Qed.

Lemma preserves_write_values chart w :
  (∀ p secret got, w = BySecretFile p secret → ok (EvReadFile p got)) →
  (∀ q, writes_ok ok mk wr q) →
  preserves R (write_values chart w).
Proof.
  intros Hp Hwr. destruct w as [values|p secret]; simpl.
  - apply preserves_SetValues. intros c.
    destruct (Hwr (filepath_Dir (more_values_path c))) as (?&_).
    destruct (Hwr (more_values_path c)) as (_&?&_&_&?). done.
  - unfold SetSecretValuesFile.
    apply preserves_bind; [apply _| |intros [data [e|]]].
    { apply preserves_ioutil_ReadFile. intros got. by eapply Hp. }
    { apply preserves_ret, _. }
    simpl. apply preserves_bind; [apply _|apply preserves_load, _|intros c].
    destruct (Hwr (filepath_Dir (more_values_path c))) as ((?&?)&_).
    destruct (Hwr (more_values_path c)) as (_&?&_&_&?).
    apply preserves_bind; [apply _|by apply preserves_os_MkdirAll|intros [e|]].
    { apply preserves_ret, _. }
    apply preserves_bind; [apply _|by apply preserves_ioutil_WriteFile|intros [e|]].
    { apply preserves_ret, _. }
    apply preserves_commit_values.
Qed.
End StoreRules.

Global Instance trace_grows_preorder : PreOrder trace_grows.
Proof.
  split.
  - intros s. unfold trace_grows. done.
  - intros s1 s2 s3. unfold trace_grows. apply transitivity.
Qed.

Global Instance trace_grows_discipline :
  Discipline (λ _, True) (λ _, True) (λ _, True) trace_grows.
Proof.
  split; [apply _|..]; unfold trace_grows; simpl; intros; try done.
  by apply prefix_app_r.
Qed.

Lemma string_length_app (a b : string) :
  String.length (a +:+ b) = String.length a + String.length b.
Proof. induction a as [|x a IH]; simpl; [done|by rewrite IH]. Qed.

Lemma string_app_inv_tail (a b t : string) : a +:+ t = b +:+ t → a = b.
Proof.
  revert b. induction a as [|x a IH]; intros [|y b] H; simpl in *.
  - done.
  - apply (f_equal String.length) in H.
    rewrite !string_length_app in H. simpl in H. lia.
  - apply (f_equal String.length) in H.
    rewrite !string_length_app in H. simpl in H. lia.
  - injection H as -> H. f_equal. by apply IH.
Qed.

Lemma values_file_inj chartDir n m :
  values_file chartDir n = values_file chartDir m → n = m.
Proof.
  unfold values_file. intros H. apply app_inv_head in H.
  injection H as H. apply string_app_inv_tail in H.
  by apply (inj pretty) in H.
Qed.

Lemma write_values_ok chart w s s' c :
  store s !! chart = Some c →
  write_values chart w s = (Ret None, s') →
  let target := values_file (ChartDir c) (moreValuesCounter c) in
  store s' = <[chart := {| ChartDir := ChartDir c; Values := Values c ++ [target];
                           Set_ := Set_ c;
                           moreValuesCounter := uint_inc (moreValuesCounter c) |}]> (store s)
  ∧ ∃ data pre, trace s' = trace s ++ pre ++ [EvWriteFile target data]
                ∧ fs s' !! target = Some (File data).
Proof.
  intros Hc. pose proof (lookup_lt_Some _ _ _ Hc) as Hlt.
  destruct w as [values|p secret]; simpl.
  - unfold SetValues, load, os_MkdirAll, ioutil_WriteFile, store_at, emit, get_fs, put_fs.
    unfold mbind, M_bind, mret, M_ret. simpl. rewrite Hc.
    repeat (case_match; simplify_eq/=; try done).
    rewrite list_lookup_insert_eq in * by done. simplify_eq/=.
    intros [= <-]; simpl. rewrite list_insert_insert_eq. split; [done|].
    eexists _, [_]. rewrite <-app_assoc. split; [done|].
    by rewrite lookup_insert_eq.
  - unfold SetSecretValuesFile, decodeSecretValues, ioutil_ReadFile, load, os_MkdirAll,
      ioutil_WriteFile, store_at, emit, get_fs, put_fs.
    unfold mbind, M_bind, mret, M_ret. simpl.
    repeat (case_match; simplify_eq/=; try done).
    rewrite list_lookup_insert_eq in * by done. simplify_eq/=.
    intros [= <-]; simpl. rewrite list_insert_insert_eq. split; [done|].
    eexists _, [_; _]. rewrite <-!app_assoc. split; [done|].
    by rewrite lookup_insert_eq.
Qed.

Lemma uint_range : (2 ^ uint_bits = 18446744073709551616)%N.
Proof. reflexivity. Qed.

Lemma uint_inc_iter_small (n : N) (k i : nat) :
  (n + N.of_nat k ≤ 2 ^ uint_bits)%N → i < k →
  Nat.iter i uint_inc n = (n + N.of_nat i)%N.
Proof.
  rewrite uint_range. intros Hk. induction i as [|i IH]; intros Hi; simpl.
  - by rewrite N.add_0_r.
  - rewrite IH by lia. unfold uint_inc, uint. rewrite uint_range.
    rewrite N.mod_small by lia. lia.
Qed.

Lemma uint_inc_neq (n : N) : uint_inc n ≠ n.
Proof.
  unfold uint_inc, uint. rewrite uint_range. intros H.
  destruct (decide (n + 1 < 18446744073709551616)%N) as [Hlt|Hge].
  - rewrite N.mod_small in H by done. lia.
  - assert (n < 18446744073709551616)%N as Hn.
    { rewrite <-H. apply N.mod_lt. done. }
    assert (n + 1 = 18446744073709551616)%N as Heq by lia.
    rewrite Heq, N.Div0.mod_same in H. lia.
Qed.

Lemma for_range_cons_inv {A} (x : A) xs (body : A → M (option error)) s s' :
  for_range (x :: xs) body s = (Ret None, s') →
  ∃ s1, body x s = (Ret None, s1) ∧ for_range xs body s1 = (Ret None, s').
Proof.
  simpl. unfold mbind, M_bind.
  destruct (body x s) as [[[e|]| |] s1]; simpl; try done.
  intros H. by exists s1.
Qed.

Lemma write_values_kinds_kept chart w : preserves kinds_kept (write_values chart w).
Proof. apply preserves_write_values; [done|]. by repeat split. Qed.

(** C3: every successful [SetValues] / [SetSecretValuesFile] of a chart
    writes the file [<moreValuesCounter>.yaml] under [ChartDir/more-values],
    appends that path to [Values] and steps the chart's own counter by
    [++] on [uint]; a run of such writes therefore targets the names of
    the successive counter values (for a counter that does not pass the
    [uint] range these are [counter], [counter+1], ..., all distinct),
    and no other chart of the store is touched. *)
Theorem values_writes_use_chart_counter chart ws s s' c :
  store s !! chart = Some c →
  for_range ws (write_values chart) s = (Ret None, s') →
  let counter i := Nat.iter i uint_inc (moreValuesCounter c) in
  let target i := values_file (ChartDir c) (counter i) in
  store s' !! chart =
    Some {| ChartDir := ChartDir c;
            Values := Values c ++ (target <$> seq 0 (length ws));
            Set_ := Set_ c;
            moreValuesCounter := counter (length ws) |}
  ∧ (∀ chart', chart' ≠ chart → store s' !! chart' = store s !! chart')
  ∧ (∃ new, trace s' = trace s ++ new ∧
       ∀ i, i < length ws → ∃ data, EvWriteFile (target i) data ∈ new)
  ∧ (∀ i, i < length ws →
       (∃ data, fs s' !! target i = Some (File data)) ∧ target i ≠ target (S i))
  ∧ ((moreValuesCounter c + N.of_nat (length ws) ≤ 2 ^ uint_bits)%N →
       (∀ i, i < length ws → counter i = (moreValuesCounter c + N.of_nat i)%N) ∧
       NoDup (target <$> seq 0 (length ws))).
Proof.
  intros Hc Hrun counter target.
  assert (store s' !! chart =
            Some {| ChartDir := ChartDir c;
                    Values := Values c ++ (target <$> seq 0 (length ws));
                    Set_ := Set_ c;
                    moreValuesCounter := counter (length ws) |}
          ∧ (∀ chart', chart' ≠ chart → store s' !! chart' = store s !! chart')
          ∧ (∃ new, trace s' = trace s ++ new ∧
               ∀ i, i < length ws → ∃ data, EvWriteFile (target i) data ∈ new)
          ∧ (∀ i, i < length ws → ∃ data, fs s' !! target i = Some (File data)))
    as (Hstore & Hother & Htrace & Hfile).
  { subst counter target. revert s c Hc Hrun.
    induction ws as [|w ws IH]; intros s c Hc Hrun.
    - simpl in Hrun. injection Hrun as <-. simpl. rewrite app_nil_r.
      split_and!; [by destruct c|done| |intros; lia].
      exists []. rewrite app_nil_r. split; [done|intros; lia].
    - apply for_range_cons_inv in Hrun as (s1 & Hw & Hrun).
      pose proof (lookup_lt_Some _ _ _ Hc) as Hlt.
      destruct (write_values_ok _ _ _ _ _ Hc Hw) as (Hs1 & data & pre & Htr1 & Hf1).
      set (c1 := {| ChartDir := ChartDir c;
                    Values := Values c ++ [values_file (ChartDir c) (moreValuesCounter c)];
                    Set_ := Set_ c;
                    moreValuesCounter := uint_inc (moreValuesCounter c) |}) in *.
      assert (store s1 !! chart = Some c1) as Hc1.
      { rewrite Hs1. by apply list_lookup_insert_eq. }
      destruct (IH _ _ Hc1 Hrun) as (Hstore & Hother & (new & Htr & Hev) & Hfile).
      simpl in Hstore, Hev, Hfile.
      assert (∀ i, Nat.iter i uint_inc (uint_inc (moreValuesCounter c))
                   = Nat.iter (S i) uint_inc (moreValuesCounter c)) as Hiter.
      { intros i. by rewrite Nat.iter_succ_r. }
      split_and!.
      + rewrite Hstore. f_equal. f_equal. simpl length. rewrite <-app_assoc. f_equal.
        simpl. f_equal. rewrite <-fmap_S_seq, <-list_fmap_compose.
        apply list_fmap_ext. intros _ i _. simpl. by rewrite Hiter.
        by rewrite Hiter.
      + intros chart' Hne. rewrite Hother, Hs1 by done.
        by apply list_lookup_insert_ne.
      + exists ((pre ++ [EvWriteFile (values_file (ChartDir c) (moreValuesCounter c)) data])
                  ++ new).
        split; [by rewrite Htr, Htr1, <-!app_assoc|].
        intros [|i] Hi.
        * exists data. rewrite !elem_of_app, list_elem_of_singleton. auto.
        * destruct (Hev i) as [d Hd]; [simpl in Hi; lia|].
          exists d. rewrite Hiter in Hd. apply elem_of_app. by right.
      + intros [|i] Hi.
        * pose proof (preserves_for_range kinds_kept ws (write_values chart)
                        (λ x _, write_values_kinds_kept chart x) s1
                        (values_file (ChartDir c) (moreValuesCounter c))) as Hk.
          rewrite Hrun, Hf1 in Hk. simpl in Hk. exact Hk.
        * destruct (Hfile i) as [d Hd]; [simpl in Hi; lia|].
          exists d. by rewrite Hiter in Hd. }
  split_and!; [done..| |].
  - intros i Hi. split; [by apply Hfile|].
    intros Heq. apply values_file_inj in Heq. subst counter. simpl in Heq.
    symmetry in Heq. by apply uint_inc_neq in Heq.
  - intros Hsmall.
    assert (∀ i, i < length ws → counter i = (moreValuesCounter c + N.of_nat i)%N) as Hcnt.
    { intros i Hi. by eapply uint_inc_iter_small. }
    split; [done|].
    apply NoDup_fmap_2_strong; [|apply NoDup_seq].
    intros i j Hi%elem_of_seq Hj%elem_of_seq Heq. apply values_file_inj in Heq.
    rewrite !Hcnt in Heq by lia. lia.
Qed.

(** C1: both decoders hand back the bytes they were given and no error,
    for every input and every secret (nil or not). *)
Theorem decodeSecret_passthrough (data : bytes) (secret : option Secret) :
  decodeSecretValues data secret = (data, None) ∧
  decodeSecret data secret = (data, None).
Proof. split; reflexivity. Qed.

(** C9: when [SetValues] or [SetSecretValuesFile] returns an error, the
    chart store is exactly what it was: [Values] has not grown and
    [moreValuesCounter] has not moved. *)
Theorem failed_values_write_keeps_chart chart w s s' e :
  write_values chart w s = (Ret (Some e), s') →
  store s' = store s.
Proof.
  destruct w as [values|p secret]; simpl.
  - unfold SetValues, load, os_MkdirAll, ioutil_WriteFile, store_at, emit, get_fs, put_fs.
    unfold mbind, M_bind, mret, M_ret. simpl.
    repeat (case_match; simplify_eq/=; try done); intros; by simplify_eq/=.
  - unfold SetSecretValuesFile, decodeSecretValues, ioutil_ReadFile, load, os_MkdirAll,
      ioutil_WriteFile, store_at, emit, get_fs, put_fs.
    unfold mbind, M_bind, mret, M_ret. simpl.
    repeat (case_match; simplify_eq/=; try done); intros; by simplify_eq/=.
Qed.

(** C10: [Deploy] makes one call of [DeployHelmChart], on the chart's
    [ChartDir], with the chart's [Set] and [Values] in front of the
    caller's and the caller's [KubeContext], [DryRun] and [Debug]; it
    returns what that call returns and leaves the chart store as it was. *)
Theorem Deploy_passes_chart_then_caller chart releaseName namespace opts s c :
  store s !! chart = Some c →
  let helm_opts := {| opt_Set := Set_ c ++ opt_Set opts;
                      opt_Values := Values c ++ opt_Values opts;
                      KubeContext := KubeContext opts;
                      DryRun := DryRun opts;
                      Debug := Debug opts |} in
  let r := DeployHelmChart (ChartDir c) releaseName namespace helm_opts (fs s) in
  Deploy chart releaseName namespace opts s =
    (Ret r.1,
     {| store := store s;
        fs := r.2;
        trace := trace s ++
                 [EvDeployHelmChart (ChartDir c) releaseName namespace helm_opts] |}).
Proof.
  intros Hc. simpl.
  unfold Deploy, call_DeployHelmChart, load, emit, get_fs, put_fs, mbind, M_bind, mret, M_ret.
  rewrite Hc. simpl. by destruct (DeployHelmChart _ _ _ _ _).
Qed.

(** *** Frame rules for the library code and for [PrepareDappChart] *)

Section FrameRules.
Context {ok : event → Prop} {mk wr : path → Prop} {R : relation State}.
Context `{!Discipline ok mk wr R}.

Lemma preserves_copy_copy fuel src dest info :
  (∀ q, src `prefix_of` q → reads_ok ok q) →
  (∀ q, dest `prefix_of` q → writes_ok ok mk wr q) →
  mkdir_ok ok mk (filepath_Dir dest) →
  preserves R (copy_copy fuel src dest info).
Proof.
  revert src dest info. induction fuel as [|fuel IH]; intros src dest info Hsrc Hdest Hdir.
  { apply preserves_out_of_fuel, _. }
  simpl. destruct (Hdest dest) as ((?&?)&?&?&?&?); [done|].
  destruct (Hsrc src) as (?&?&?); [done|]. destruct Hdir as [??].
  destruct (IsDir info).
  - apply preserves_bind; [apply _|by apply preserves_os_MkdirAll|intros [e|]].
    { apply preserves_ret, _. }
    apply preserves_bind; [apply _|by apply preserves_ioutil_ReadDir|intros [contents [e|]]].
    { apply preserves_ret, _. }
    apply preserves_for_range; [apply _|]. intros content _.
    rewrite !filepath_Join2. apply IH.
    + intros q Hq. apply Hsrc. etrans; [|exact Hq]. by apply prefix_app_r.
    + intros q Hq. apply Hdest. etrans; [|exact Hq]. by apply prefix_app_r.
    + rewrite filepath_Dir_snoc. done.
  - apply preserves_bind; [apply _|by apply preserves_os_MkdirAll|intros [e|]].
    { apply preserves_ret, _. }
    eapply preserves_bind_returns;
      [apply _|by apply preserves_os_Create|apply os_Create_returns|].
    intros [f [e|]] Hf; [apply preserves_ret, _|].
    destruct Hf as [[= ->]|[e [=]]].
    apply preserves_bind; [apply _|by apply preserves_ioutil_ReadFile|intros [data [e|]]].
    { apply preserves_ret, _. }
    apply preserves_bind; [apply _|by apply preserves_File_Write|intros [n err]].
    apply preserves_ret, _.
Qed.

Lemma preserves_copy_Copy fuel src dest :
  (∀ q, src `prefix_of` q → reads_ok ok q) →
  (∀ q, dest `prefix_of` q → writes_ok ok mk wr q) →
  mkdir_ok ok mk (filepath_Dir dest) →
  preserves R (copy_Copy fuel src dest).
Proof.
  intros Hsrc Hdest Hdir. unfold copy_Copy.
  destruct (Hsrc src) as (?&?&?); [done|].
  apply preserves_bind; [apply _|by apply preserves_os_Stat|intros [[info|] [e|]]];
    try apply preserves_ret, _.
  - by apply preserves_copy_copy.
  - apply preserves_panic, _.
Qed.

Lemma preserves_walk fuel root p info (walkFn : WalkFunc) :
  (∀ q, root `prefix_of` q → reads_ok ok q) →
  (∀ q i e, root `prefix_of` q → preserves R (walkFn q i e)) →
  root `prefix_of` p →
  preserves R (walk fuel p info walkFn).
Proof.
  intros Hrd Hfn. revert p info. induction fuel as [|fuel IH]; intros p info Hp.
  { apply preserves_out_of_fuel, _. }
  simpl. destruct (Hrd p) as (?&?&?); [done|].
  destruct (negb (IsDir info)); [by apply Hfn|].
  apply preserves_bind; [apply _|by apply preserves_readDirNames|intros [names err]].
  apply preserves_bind; [apply _|by apply Hfn|intros err1].
  destruct (_ || _); [apply preserves_ret, _|].
  apply preserves_for_range; [apply _|]. intros name _.
  rewrite filepath_Join2.
  assert (root `prefix_of` p ++ [name]) as Hpn.
  { etrans; [exact Hp|]. by apply prefix_app_r. }
  destruct (Hrd _ Hpn) as (?&?&?).
  apply preserves_bind; [apply _|by apply preserves_os_Stat|intros [fileInfo [e|]]].
  - apply preserves_bind; [apply _|by apply Hfn|intros err'].
    destruct (_ && _); apply preserves_ret, _.
  - destruct fileInfo as [fileInfo|]; [|apply preserves_panic, _].
    apply preserves_bind; [apply _|by apply IH|intros err'].
    repeat case_match; apply preserves_ret, _.
Qed.

Lemma preserves_filepath_Walk fuel root (walkFn : WalkFunc) :
  (∀ q, root `prefix_of` q → reads_ok ok q) →
  (∀ q i e, root `prefix_of` q → preserves R (walkFn q i e)) →
  preserves R (filepath_Walk fuel root walkFn).
Proof.
  intros Hrd Hfn. unfold filepath_Walk.
  destruct (Hrd root) as (?&?&?); [done|].
  apply preserves_bind; [apply _|by apply preserves_os_Stat|intros [info [e|]]].
  - apply preserves_bind; [apply _|by apply Hfn|intros err].
    case_match; apply preserves_ret, _.
  - apply preserves_bind; [apply _| |intros err; case_match; apply preserves_ret, _].
    destruct info; [by apply (preserves_walk _ root)|apply preserves_panic, _].
Qed.

Lemma preserves_decode_walkFn secretDir targetDir opts p info err :
  reads_ok ok p →
  (∀ q, targetDir `prefix_of` q → writes_ok ok mk wr q) →
  preserves R (decode_walkFn secretDir targetDir opts p info err).
Proof.
  intros (?&?&?) Hwr. unfold decode_walkFn.
  destruct err as [e|]; [apply preserves_ret, _|].
  destruct info as [info|]; [|apply preserves_panic, _].
  destruct (IsDir info); [apply preserves_ret, _|].
  destruct (decoded_path_under targetDir (strings_TrimPrefix p secretDir)) as [Hnew Hdir].
  destruct (Hwr _ Hnew) as (_&?&_&_&?).
  destruct (Hwr _ Hdir) as ((?&?)&_).
  case_bool_decide.
  - apply preserves_bind; [apply _|by apply preserves_os_MkdirAll|intros [e|]].
    { apply preserves_ret, _. }
    apply preserves_bind; [apply _|by apply preserves_ioutil_WriteFile|intros [e|]];
      apply preserves_ret, _.
  - apply preserves_bind; [apply _|by apply preserves_ioutil_ReadFile|intros [data [e|]]].
    { apply preserves_ret, _. }
    simpl.
    apply preserves_bind; [apply _|by apply preserves_os_MkdirAll|intros [e|]].
    { apply preserves_ret, _. }
    apply preserves_bind; [apply _|by apply preserves_ioutil_WriteFile|intros [e|]];
      apply preserves_ret, _.
Qed.

Lemma preserves_bind_new_chart {B} c (f : loc → M B) :
  (∀ l, preserves_on (chart_at l (ChartDir c)) R (f l)) →
  preserves R (new_chart c ≫= f).
Proof.
  intros Hf s. unfold mbind, M_bind, new_chart.
  etrans; [apply (disc_new c s)|]. apply Hf.
  exists c. split; [|done]. simpl. by rewrite lookup_app_r, Nat.sub_diag.
Qed.

Lemma preserves_PrepareDappChart fuel projectDir targetDir opts :
  (∀ s s', R s s' → chartdirs_kept s s') →
  (∀ q, projectDir `prefix_of` q → reads_ok ok q) →
  (∀ q, targetDir `prefix_of` q → writes_ok ok mk wr q) →
  mkdir_ok ok mk (filepath_Dir targetDir) →
  preserves R (PrepareDappChart fuel projectDir targetDir opts).
Proof.
  intros HR Hrd Hwr Hdir. unfold PrepareDappChart.
  assert (∀ a q, projectDir ++ a `prefix_of` q → reads_ok ok q) as Hrd'.
  { intros a q Hq. apply Hrd. etrans; [|exact Hq]. by apply prefix_app_r. }
  assert (∀ a, writes_ok ok mk wr (targetDir ++ a)) as Hwr'.
  { intros a. apply Hwr. by apply prefix_app_r. }
  apply preserves_bind_new_chart. intros dappChart. simpl ChartDir.
  assert (∀ s s', chart_at dappChart targetDir s → R s s' →
                  chart_at dappChart targetDir s') as HI.
  { intros s s' (c&Hc&<-) Hss. destruct (HR _ _ Hss _ _ Hc) as (c'&?&?). by exists c'. }
  rewrite !filepath_Join2.
  apply preserves_on_bind; [done| |intros [e|]].
  { apply preserves_copy_Copy; [by apply Hrd'|done..]. }
  { apply preserves_on_weaken, preserves_ret, _. }
  destruct (Hwr' ["templates"; "_dapp_helpers.tpl"]) as (_&?&?&?&_).
  eapply preserves_on_bind_returns;
    [done|by apply preserves_os_Create|apply os_Create_returns|].
  intros [f [e|]] Hf; [apply preserves_on_weaken, preserves_ret, _|].
  destruct Hf as [[= ->]|[e [=]]].
  apply preserves_on_bind; [done|by apply preserves_File_Write|intros [n [e|]]].
  { apply preserves_on_weaken, preserves_ret, _. }
  destruct (Hrd' [DefaultSecretValuesFile] _ (reflexivity _)) as (?&?&?).
  apply preserves_on_bind; [done|by apply preserves_os_Stat|intros [i1 err1]].
  intros s Hs. unfold mbind at 1, M_bind at 1.
  match goal with |- context [(if negb ?b then ?m else ?m') s] =>
    assert (R s ((if negb b then m else m') s).2) as Hstep end.
  { destruct (negb _); [|reflexivity].
    by apply (preserves_on_SetSecretValuesFile _ targetDir). }
  match type of Hstep with R _ (?x).2 => destruct x as [[[e|]| |] s1] end;
    simpl in *; try done.
  etrans; [exact Hstep|]. generalize s1.
  destruct (Hrd' [SecretDirName] _ (reflexivity _)) as (?&?&?).
  apply preserves_bind; [apply _|by apply preserves_os_Stat|intros [i2 err2]].
  apply preserves_bind; [apply _| |intros [e|]; apply preserves_ret, _].
  destruct (negb _); [|apply preserves_ret, _].
  apply preserves_filepath_Walk; [by apply Hrd'|].
  intros q i e Hq. apply preserves_decode_walkFn; [by eapply Hrd'|done].
Qed.
End FrameRules.

(** *** The disciplines used below *)

Global Instance chartdirs_kept_preorder : PreOrder chartdirs_kept.
Proof.
  split.
  - intros s chart c Hc. by exists c.
  - intros s1 s2 s3 H12 H23 chart c Hc.
    destruct (H12 _ _ Hc) as (c2&Hc2&<-).
    destruct (H23 _ _ Hc2) as (c3&Hc3&<-). by exists c3.
Qed.

Global Instance chartdirs_kept_discipline :
  Discipline (λ _, True) (λ _, True) (λ _, True) chartdirs_kept.
Proof.
  split; [apply _|..]; try (intros; intros chart c Hc; by exists c).
  - intros c s chart c0 Hc. exists c0. split; [|done]. simpl.
    rewrite lookup_app_l; [done|]. by eapply lookup_lt_Some.
  - intros chart c c' s Hc Heq chart0 c0 Hc0. simpl.
    destruct (decide (chart = chart0)) as [->|Hne].
    + exists c'. rewrite list_lookup_insert_eq by (by eapply lookup_lt_Some).
      split; [done|]. congruence.
    + exists c0. by rewrite list_lookup_insert_ne.
Qed.

Global Instance discipline_and ok1 mk1 wr1 R1 ok2 mk2 wr2 R2 :
  Discipline ok1 mk1 wr1 R1 → Discipline ok2 mk2 wr2 R2 →
  Discipline (λ e, ok1 e ∧ ok2 e) (λ p, mk1 p ∧ mk2 p) (λ p, wr1 p ∧ wr2 p)
             (λ s s', R1 s s' ∧ R2 s s').
Proof.
  intros D1 D2. split.
  - split.
    + intros s. split; reflexivity.
    + intros s1 s2 s3 [??] [??]. split; etrans; eauto.
  - intros e s [??]. split; by apply disc_emit.
  - intros p m' s [??] ?. split; by eapply disc_mkdir.
  - intros p d s [??] ?. split; by apply disc_file.
  - intros c s. split; apply disc_new.
  - intros chart c c' s ??. split; by eapply disc_update.
Qed.

Global Instance frame_preorder projectDir targetDir : PreOrder (frame projectDir targetDir).
Proof.
  split.
  - intros s. split; [exists []; by rewrite app_nil_r|]. intros q. by left.
  - intros s1 s2 s3 [(n1&Ht1&Hn1) Hf1] [(n2&Ht2&Hn2) Hf2]. split.
    + exists (n1 ++ n2). rewrite Ht2, Ht1, <-app_assoc. split; [done|].
      by apply Forall_app.
    + intros q. destruct (Hf2 q) as [H2|[H2|(H2&H2'&H2'')]]; [|by right; left|].
      * rewrite H2. apply Hf1.
      * destruct (Hf1 q) as [H1|[H1|(H1&H1'&H1'')]]; [|by right; left|congruence].
        right; right. by rewrite <-H1.
Qed.

Global Instance frame_discipline projectDir targetDir :
  Discipline (event_within projectDir targetDir)
             (λ q, targetDir `prefix_of` q ∨ q `prefix_of` targetDir)
             (λ q, targetDir `prefix_of` q)
             (frame projectDir targetDir).
Proof.
  split; [apply _|..].
  - intros e s He. split; [|intros q; by left].
    exists [e]. split; [done|]. by apply Forall_singleton.
  - intros p m' s Hp Hm. split; [exists []; by rewrite app_nil_r|].
    intros q. simpl.
    destruct (mkdir_all_spec _ _ _ _ Hm q) as [?|(?&?&k&?&->)]; [by left|right].
    simpl. assert (take k p `prefix_of` p) as Hk by apply prefix_take.
    destruct Hp as [Hp|Hp].
    + destruct (prefix_weak_total _ _ _ Hp Hk); [by left|by right].
    + right. split; [|done]. by etrans.
  - intros p d s Hp _. split; [exists []; by rewrite app_nil_r|].
    intros q. simpl. destruct (decide (p = q)) as [->|Hne]; [by right; left|].
    left. by apply lookup_insert_ne.
  - intros c s. split; [exists []; by rewrite app_nil_r|]. intros q. by left.
  - intros chart c c' s _ _. split; [exists []; by rewrite app_nil_r|]. intros q. by left.
Qed.

Lemma filepath_Dir_prefix (p : path) : filepath_Dir p `prefix_of` p.
Proof.
  unfold filepath_Dir. destruct p as [|x l _] using rev_ind; [done|].
  rewrite removelast_last. by apply prefix_app_r.
Qed.

(** C2 (amended): [PrepareDappChart] stats, lists and reads only below
    [projectDir]; it creates and writes regular files only below
    [targetDir], where it also makes its directories (and the missing
    directories on the way down to [targetDir]); and when neither
    directory lies inside the other, every path below [projectDir] is
    left exactly as it was.  This holds however the call ends. *)
Theorem PrepareDappChart_reads_project_writes_target fuel projectDir targetDir opts s :
  let s' := (PrepareDappChart fuel projectDir targetDir opts s).2 in
  (∃ new, trace s' = trace s ++ new ∧ Forall (event_within projectDir targetDir) new)
  ∧ (∀ q, ¬ targetDir `prefix_of` q →
          fs s' !! q = fs s !! q ∨
          (q `prefix_of` targetDir ∧ fs s !! q = None ∧ fs s' !! q = Some Dir))
  ∧ (∀ q d, fs s' !! q = Some (File d) → fs s !! q ≠ Some (File d) →
            targetDir `prefix_of` q)
  ∧ (separate projectDir targetDir →
     ∀ q, projectDir `prefix_of` q → fs s' !! q = fs s !! q).
Proof.
  intros s'.
  assert (frame projectDir targetDir s s') as [Htrace Hfs].
  { assert (frame projectDir targetDir s s' ∧ chartdirs_kept s s') as [H _]; [|done].
    apply (preserves_PrepareDappChart (R := λ s s', frame projectDir targetDir s s' ∧
                                                    chartdirs_kept s s')).
    - by intros ?? [_ ?].
    - intros q Hq. by repeat split.
    - intros q Hq. repeat split; simpl; auto.
    - pose proof (filepath_Dir_prefix targetDir). repeat split; simpl; auto. }
  split_and!; [done|..].
  - intros q Hq. destruct (Hfs q) as [?|[?|?]]; [by left|done|by right].
  - intros q d Hq Hne. destruct (Hfs q) as [Heq|[?|(_&_&?)]]; [|done|congruence].
    rewrite Heq in Hq. done.
  - intros [Hpt Htp] q Hq. destruct (Hfs q) as [?|[Ht|(Ht&_)]]; [done|..].
    + destruct (prefix_weak_total _ _ _ Hq Ht); done.
    + destruct Hpt. by etrans.
Qed.

(** *** What [filepath.Walk] visits *)

Lemma returns_ret {A} (a : A) (P : A → Prop) : P a → returns (mret a) P.
Proof. intros Ha s a' s' [= <- _]. done. Qed.

Lemma returns_bind {A B} (m : M A) (f : A → M B) (P : A → Prop) (Q : B → Prop) :
  returns m P → (∀ a, P a → returns (f a) Q) → returns (m ≫= f) Q.
Proof.
  intros Hm Hf s b s'. unfold mbind, M_bind.
  destruct (m s) as [[a| |] s1] eqn:Hs; try done.
  intros Hb. eapply Hf; [|exact Hb]. by eapply Hm.
Qed.

Lemma returns_any {A} (m : M A) : returns m (λ _, True).
Proof. by intros s a s' _. Qed.

Lemma returns_panic {A} (P : A → Prop) : returns panic P.
Proof. by intros s a s'. Qed.

Lemma returns_out_of_fuel {A} (P : A → Prop) : returns out_of_fuel P.
Proof. by intros s a s'. Qed.

Lemma returns_for_range {A} (xs : list A) (body : A → M (option error))
    (P : option error → Prop) :
  P None → (∀ x, returns (body x) P) → returns (for_range xs body) P.
Proof.
  intros HN Hb. induction xs as [|x xs IH]; simpl; [by apply returns_ret|].
  eapply returns_bind; [apply Hb|]. intros [e|] Hr; [by apply returns_ret|done].
Qed.

Lemma for_range_visits {A} (R : relation State) `{!PreOrder R}
    (xs : list A) (body : A → M (option error)) x s s' :
  (∀ y, preserves R (body y)) →
  for_range xs body s = (Ret None, s') → x ∈ xs →
  ∃ sa sb, R s sa ∧ body x sa = (Ret None, sb) ∧ R sb s'.
Proof.
  intros Hb. revert s. induction xs as [|y xs IH]; intros s Hrun Hx.
  { by apply elem_of_nil in Hx. }
  apply for_range_cons_inv in Hrun as (s1 & Hy & Hrun).
  apply elem_of_cons in Hx as [->|Hx].
  - exists s, s1. split_and!; [reflexivity|done|].
    pose proof (preserves_for_range R xs body (λ z _, Hb z) s1) as H.
    by rewrite Hrun in H.
  - destruct (IH _ Hrun Hx) as (sa & sb & Hsa & Hbody & Hsb).
    exists sa, sb. split_and!; [|done..].
    etrans; [|exact Hsa]. pose proof (Hb y s) as H. by rewrite Hy in H.
Qed.

Lemma os_Stat_eq name s :
  os_Stat name s =
    (Ret match node_at (fs s) name with
         | Some n => (Some (info_of name n), None)
         | None => (None, Some (PathError "stat" name ENOENT))
         end,
     (emit (EvStat name) s).2).
Proof.
  unfold os_Stat, emit, get_fs, mbind, M_bind, mret, M_ret. simpl. by case_match.
Qed.

Lemma readDirNames_dir name s :
  node_at (fs s) name = Some Dir →
  readDirNames name s =
    (Ret (Name <$> entries (fs s) name, None), (emit (EvReadDir name) s).2).
Proof.
  intros Hd. unfold readDirNames, ioutil_ReadDir, emit, get_fs, mbind, M_bind, mret, M_ret.
  simpl. by rewrite Hd.
Qed.

Lemma path_rel_app (dir r : path) : path_rel dir (dir ++ r) = Some r.
Proof. induction dir as [|x dir IH]; simpl; [done|]. by rewrite decide_True. Qed.

Lemma elem_of_entries (m : gmap path node) dir n x :
  m !! (dir ++ [n]) = Some x → n ∈ Name <$> entries m dir.
Proof.
  intros Hm. apply list_elem_of_fmap. exists (info_of (dir ++ [n]) x). split.
  - simpl. by rewrite last_snoc.
  - unfold entries. rewrite merge_sort_Permutation.
    apply list_elem_of_omap. exists (dir ++ [n], x). split.
    + by apply elem_of_map_to_list.
    + unfold entry_of. simpl. by rewrite path_rel_app.
Qed.

Lemma node_at_nonempty (m : gmap path node) (p : path) (n : string) :
  node_at m (p ++ [n]) = m !! (p ++ [n]).
Proof. by destruct p. Qed.

Lemma file_below_nil m p :
  file_below m p [] ↔ ∃ d, node_at m p = Some (File d).
Proof.
  unfold file_below. rewrite app_nil_r. split; [by intros [? _]|].
  intros H. split; [done|]. simpl. intros; lia.
Qed.

Lemma file_below_cons m p n rel :
  file_below m p (n :: rel) ↔ node_at m p = Some Dir ∧ file_below m (p ++ [n]) rel.
Proof.
  unfold file_below. rewrite <-(app_assoc p [n] rel). simpl. split.
  - intros [Hf Hd]. split_and!; [|done|].
    + specialize (Hd 0). simpl in Hd. rewrite app_nil_r in Hd. apply Hd. lia.
    + intros k Hk. specialize (Hd (S k)). simpl in Hd.
      rewrite <-app_assoc. simpl. apply Hd. lia.
  - intros (Hp & Hf & Hd). split; [done|]. intros [|k] Hk; simpl.
    + by rewrite app_nil_r.
    + specialize (Hd k). rewrite <-app_assoc in Hd. simpl in Hd. apply Hd. lia.
Qed.

Lemma same_kind_node_at (s s' : State) q :
  kinds_kept s s' → same_kind (node_at (fs s) q) (node_at (fs s') q).
Proof. intros H. destruct q; simpl; [done|apply H]. Qed.

Lemma file_below_kinds_kept s s' p rel :
  kinds_kept s s' → file_below (fs s) p rel → file_below (fs s') p rel.
Proof.
  intros Hk [[d Hf] Hd]. split.
  - pose proof (same_kind_node_at _ _ (p ++ rel) Hk) as H. rewrite Hf in H. exact H.
  - intros k Hlt. pose proof (same_kind_node_at _ _ (p ++ take k rel) Hk) as H.
    rewrite Hd in H by done. exact H.
Qed.

Lemma tree_shaped_file_below m root rel d :
  tree_shaped m → node_at m (root ++ rel) = Some (File d) → file_below m root rel.
Proof.
  intros Ht Hf. split; [by exists d|].
  assert (∀ j : nat, (j ≤ length rel)%nat →
            is_Some (node_at m (root ++ take (length rel - j) rel)))
    as Hup.
  { induction j as [|j IH]; intros Hj.
    - rewrite Nat.sub_0_r, firstn_all. by eexists.
    - destruct IH as [x Hx]; [lia|].
      assert (length rel - j = S (length rel - S j)) as Heq by lia.
      rewrite Heq in Hx.
      destruct (lookup_lt_is_Some_2 rel (length rel - S j)) as [n Hn]; [lia|].
      rewrite (take_S_r _ _ _ Hn), app_assoc, node_at_nonempty in Hx.
      rewrite (Ht _ _ _ Hx). by eexists. }
  intros k Hk.
  destruct (lookup_lt_is_Some_2 rel k) as [n Hn]; [lia|].
  destruct (Hup (length rel - S k)) as [x Hx]; [lia|].
  replace (length rel - (length rel - S k)) with (S k) in Hx by lia.
  rewrite (take_S_r _ _ _ Hn), app_assoc, node_at_nonempty in Hx.
  by apply (Ht _ _ _ Hx).
Qed.

Section WalkVisits.
Context (root : path) (walkFn : WalkFunc).
Context (R : relation State) `{!PreOrder R}.
Context (Inv : State → Prop) (Q : path → State → Prop).
Hypothesis R_kinds : ∀ s s', R s s' → kinds_kept s s'.
Hypothesis R_inv : ∀ s s', R s s' → Inv s → Inv s'.
Hypothesis R_post : ∀ q s s', R s s' → Inv s → Q q s → Q q s'.
Hypothesis R_emit : ∀ e, preserves R (emit e).
Hypothesis R_walkFn : ∀ q i e, root `prefix_of` q → preserves R (walkFn q i e).
Hypothesis walkFn_no_skip : ∀ q i e, returns (walkFn q i e) (λ r, r ≠ Some SkipDir).
Hypothesis walkFn_file :
  ∀ q i s s' d, root `prefix_of` q → Inv s → node_at (fs s) q = Some (File d) →
                IsDir i = false → walkFn q (Some i) None s = (Ret None, s') → Q q s'.

Lemma walk_no_skip fuel p info :
  returns (walk fuel p info walkFn) (λ r, r ≠ Some SkipDir).
Proof.
  revert p info. induction fuel as [|fuel IH]; intros p info; simpl.
  { apply returns_out_of_fuel. }
  destruct (negb (IsDir info)); [apply walkFn_no_skip|].
  eapply returns_bind; [apply returns_any|intros [names err] _].
  eapply returns_bind; [apply walkFn_no_skip|intros err1 Herr1].
  destruct (_ || _); [by apply returns_ret|].
  apply returns_for_range; [done|]. intros name.
  eapply returns_bind; [apply returns_any|intros [fileInfo [e|]] _].
  - eapply returns_bind; [apply walkFn_no_skip|intros err' Herr'].
    destruct (_ && _); by apply returns_ret.
  - destruct fileInfo as [fileInfo|]; [|apply returns_panic].
    eapply returns_bind; [apply IH|intros err' Herr'].
    repeat case_match; by apply returns_ret.
Qed.

Lemma preserves_walk_R fuel p info :
  root `prefix_of` p → preserves R (walk fuel p info walkFn).
Proof.
  revert p info. induction fuel as [|fuel IH]; intros p info Hp.
  { by apply preserves_out_of_fuel. }
  simpl. destruct (negb (IsDir info)); [by apply R_walkFn|].
  apply preserves_bind; [done| |intros [names err]].
  { unfold readDirNames, ioutil_ReadDir.
    repeat (first [apply preserves_bind; [done| |intros ?]
                  |apply R_emit|by apply preserves_get_fs
                  |by apply preserves_ret|case_match]). }
  apply preserves_bind; [done|by apply R_walkFn|intros err1].
  destruct (_ || _); [by apply preserves_ret|].
  apply preserves_for_range; [done|]. intros name _. rewrite filepath_Join2.
  assert (root `prefix_of` p ++ [name]) as Hpn.
  { etrans; [exact Hp|]. by apply prefix_app_r. }
  apply preserves_bind; [done| |intros [fileInfo [e|]]].
  { unfold os_Stat.
    repeat (first [apply preserves_bind; [done| |intros ?]
                  |apply R_emit|by apply preserves_get_fs
                  |by apply preserves_ret|case_match]). }
  - apply preserves_bind; [done|by apply R_walkFn|intros err'].
    destruct (_ && _); by apply preserves_ret.
  - destruct fileInfo as [fileInfo|]; [|by apply preserves_panic].
    apply preserves_bind; [done|by apply IH|intros err'].
    repeat case_match; by apply preserves_ret.
Qed.

Lemma walk_visits fuel p info s s' rel :
  root `prefix_of` p → Inv s → info_matches info (fs s) p →
  walk fuel p info walkFn s = (Ret None, s') →
  file_below (fs s) p rel →
  Q (p ++ rel) s'.
Proof.
  revert p info s s' rel.
  induction fuel as [|fuel IH]; intros p info s s' rel Hp HI Hinfo Hrun Hrel; [done|].
  simpl in Hrun. destruct (IsDir info) eqn:Hdir; simpl in Hrun.
  - assert (node_at (fs s) p = Some Dir) as Hnode by by apply Hinfo.
    destruct rel as [|n rel].
    { apply file_below_nil in Hrel as [d Hd]. congruence. }
    apply file_below_cons in Hrel as [_ Hrel].
    unfold mbind at 1, M_bind at 1 in Hrun.
    rewrite (readDirNames_dir _ _ Hnode) in Hrun.
    set (s1 := (emit (EvReadDir p) s).2) in *.
    assert (R s s1) as Hs1 by apply R_emit.
    unfold mbind at 1, M_bind at 1 in Hrun.
    pose proof (R_walkFn p (Some info) None Hp s1) as Hs2.
    destruct (walkFn p (Some info) None s1) as [[err1| |] s2] eqn:Hw; try done.
    simpl in Hs2. destruct err1 as [e1|]; simpl in Hrun.
    { by inversion Hrun. }
    assert (is_Some (fs s !! (p ++ [n]))) as [x Hx].
    { destruct rel as [|n' rel].
      - apply file_below_nil in Hrel as [d Hd]. rewrite node_at_nonempty in Hd. eauto.
      - apply file_below_cons in Hrel as [Hd _]. rewrite node_at_nonempty in Hd. eauto. }
    assert (n ∈ Name <$> entries (fs s) p) as Hn by by eapply elem_of_entries.
    eapply (for_range_visits R) in Hrun as (sa & sb & Hsa & Hbody & Hsb); [|clear Hrun|exact Hn].
    2:{ intros name. rewrite filepath_Join2.
        assert (root `prefix_of` p ++ [name]) as Hpn.
        { etrans; [exact Hp|]. by apply prefix_app_r. }
        apply preserves_bind; [done| |intros [fileInfo [e|]]].
        { unfold os_Stat.
          repeat (first [apply preserves_bind; [done| |intros ?]
                        |apply R_emit|by apply preserves_get_fs
                        |by apply preserves_ret|case_match]). }
        - apply preserves_bind; [done|by apply R_walkFn|intros err'].
          destruct (_ && _); by apply preserves_ret.
        - destruct fileInfo as [fileInfo|]; [|by apply preserves_panic].
          apply preserves_bind; [done|by apply preserves_walk_R|intros err'].
          repeat case_match; by apply preserves_ret. }
    assert (R s sa) as Hssa by (etrans; [exact Hs1|]; etrans; done).
    rewrite filepath_Join2 in Hbody.
    unfold mbind at 1, M_bind at 1 in Hbody. rewrite os_Stat_eq in Hbody.
    set (sa1 := (emit (EvStat (p ++ [n])) sa).2) in *.
    assert (R sa sa1) as Hsa1 by apply R_emit.
    assert (R s sa1) as Hssa1 by (etrans; done).
    assert (root `prefix_of` p ++ [n]) as Hpn.
    { etrans; [exact Hp|]. by apply prefix_app_r. }
    pose proof (same_kind_node_at _ _ (p ++ [n]) (R_kinds _ _ Hssa)) as Hk.
    rewrite node_at_nonempty, Hx in Hk.
    assert (∃ y, node_at (fs sa) (p ++ [n]) = Some y) as [y Hy].
    { destruct x; simpl in Hk; [destruct Hk as [d' Hd']|]; eauto. }
    rewrite Hy in Hbody. simpl in Hbody.
    unfold mbind at 1, M_bind at 1 in Hbody.
    pose proof (walk_no_skip fuel (p ++ [n]) (info_of (p ++ [n]) y) sa1) as Hns.
    destruct (walk fuel (p ++ [n]) (info_of (p ++ [n]) y) walkFn sa1)
      as [[err'| |] sb'] eqn:Hwalk; try done.
    specialize (Hns _ _ eq_refl).
    assert (err' = None ∧ sb' = sb) as [-> ->].
    { destruct err' as [e'|]; simpl in Hbody.
      - rewrite (bool_decide_true (Some e' ≠ Some SkipDir)) in Hbody by done.
        rewrite orb_true_r in Hbody. by inversion Hbody.
      - by inversion Hbody. }
    replace (p ++ n :: rel) with ((p ++ [n]) ++ rel) by by rewrite <-app_assoc.
    eapply R_post; [exact Hsb| |].
    { eapply R_inv; [|exact HI]. etrans; [exact Hssa1|].
      pose proof (preserves_walk_R fuel (p ++ [n]) (info_of (p ++ [n]) y) Hpn sa1) as H.
      by rewrite Hwalk in H. }
    eapply IH; [exact Hpn| | |exact Hwalk|].
    + by eapply R_inv.
    + unfold info_matches.
      change (fs sa1) with (fs sa). rewrite Hy.
      destruct y; simpl; split; congruence.
    + eapply file_below_kinds_kept; [|exact Hrel]. by apply R_kinds.
  - assert (node_at (fs s) p ≠ Some Dir) as Hnode.
    { intros H. apply Hinfo in H. congruence. }
    destruct rel as [|n rel].
    + apply file_below_nil in Hrel as [d Hd]. rewrite app_nil_r.
      by eapply walkFn_file.
    + apply file_below_cons in Hrel as [Hd _]. done.
Qed.

Lemma filepath_Walk_visits fuel s s' rel :
  Inv s →
  filepath_Walk fuel root walkFn s = (Ret None, s') →
  file_below (fs s) root rel →
  Q (root ++ rel) s'.
Proof.
  intros HI Hrun Hrel. unfold filepath_Walk in Hrun.
  unfold mbind at 1, M_bind at 1 in Hrun. rewrite os_Stat_eq in Hrun.
  set (s1 := (emit (EvStat root) s).2) in *.
  assert (R s s1) as Hs1 by apply R_emit.
  assert (∃ y, node_at (fs s) root = Some y) as [y Hy].
  { destruct rel as [|n rel].
    - apply file_below_nil in Hrel as [d Hd]. eauto.
    - apply file_below_cons in Hrel as [Hd _]. eauto. }
  rewrite Hy in Hrun. simpl in Hrun.
  unfold mbind at 1, M_bind at 1 in Hrun.
  pose proof (walk_no_skip fuel root (info_of root y) s1) as Hns.
  pose proof (preserves_walk_R fuel root (info_of root y) (reflexivity _) s1) as Hs2.
  destruct (walk fuel root (info_of root y) walkFn s1) as [[err| |] s2] eqn:Hwalk;
    try done.
  specialize (Hns _ _ eq_refl). simpl in Hs2.
  rewrite bool_decide_false in Hrun by done.
  injection Hrun as -> ->.
  eapply walk_visits; [reflexivity| | |exact Hwalk|].
  - by eapply R_inv.
  - unfold info_matches. change (fs s1) with (fs s). rewrite Hy.
    destruct y; simpl; split; congruence.
  - eapply file_below_kinds_kept; [|exact Hrel]. by apply R_kinds.
Qed.
End WalkVisits.

(** *** What the walk callback does to a regular file *)

Lemma decode_walkFn_file secretDir targetDir opts p i s st s' :
  IsDir i = false →
  decode_walkFn secretDir targetDir opts p (Some i) None s = (st, s') →
  let newPath := decoded_file targetDir (strings_TrimPrefix p secretDir) in
  ∃ r, st = Ret r ∧
  ((r ≠ None ∧ fs s' = fs s)
  ∨ (r ≠ None ∧ mkdir_all (fs s) [] (filepath_Dir newPath) = Some (fs s'))
  ∨ (r = None ∧ ∃ m1 content,
       mkdir_all (fs s) [] (filepath_Dir newPath) = Some m1 ∧
       fs s' = <[newPath := File content]> m1 ∧
       match opt_Secret opts with
       | None =>
           content = [] ∧
           trace s' = trace s ++ [EvMkdirAll (filepath_Dir newPath); EvWriteFile newPath []]
       | Some _ =>
           ∃ d, node_at (fs s) p = Some (File d) ∧
                content = strings_TrimRightFunc d unicode_IsSpace ∧
                trace s' = trace s ++ [EvReadFile p (Some d);
                                       EvMkdirAll (filepath_Dir newPath);
                                       EvWriteFile newPath content]
       end)).
Proof.
  intros Hi. unfold decode_walkFn, decoded_file. rewrite Hi, filepath_Join3.
  unfold decodeSecret, ioutil_ReadFile, os_MkdirAll, ioutil_WriteFile, emit, get_fs, put_fs.
  unfold mbind, M_bind, mret, M_ret. simpl.
  destruct (opt_Secret opts) as [sec|] eqn:Hsec; simpl.
  - repeat (case_match; simplify_eq/=; try done); intros; simplify_eq/=;
      (eexists; (split; [reflexivity|]));
      try (left; split; [done|done]); try (right; left; split; [done|done]);
      right; right.
    split; [done|]. eexists _, _. split_and!; [done..|].
    eexists. split_and!; [done..|]. by rewrite <-!app_assoc.
  - repeat (case_match; simplify_eq/=; try done); intros; simplify_eq/=;
      (eexists; (split; [reflexivity|]));
      try (left; split; [done|done]); try (right; left; split; [done|done]);
      right; right.
    split; [done|]. eexists _, _. split_and!; [done..|].
    by rewrite <-!app_assoc.
Qed.

Lemma decode_walkFn_other secretDir targetDir opts p i e s :
  (i = None ∨ (∃ info, i = Some info ∧ IsDir info = true) ∨ e ≠ None) →
  (decode_walkFn secretDir targetDir opts p i e s).2 = s.
Proof.
  unfold decode_walkFn. intros [->|[(info&->&Hi)|He]].
  - by destruct e.
  - rewrite Hi. by destruct e.
  - by destruct e.
Qed.

Lemma decode_walkFn_cases secretDir targetDir opts p i e s :
  (decode_walkFn secretDir targetDir opts p i e s).2 = s ∨
  (∃ info, i = Some info ∧ IsDir info = false ∧ e = None).
Proof.
  destruct e as [e|]; [left; apply decode_walkFn_other; by right; right|].
  destruct i as [info|]; [|left; apply decode_walkFn_other; by left].
  destruct (IsDir info) eqn:Hi; [left; apply decode_walkFn_other; right; left; eauto|].
  right. eauto.
Qed.

Lemma decode_walkFn_no_skip secretDir targetDir opts p i e :
  returns (decode_walkFn secretDir targetDir opts p i e) (λ r, r ≠ Some SkipDir).
Proof.
  intros s r s'. unfold decode_walkFn.
  unfold decodeSecret, ioutil_ReadFile, os_MkdirAll, ioutil_WriteFile, emit, get_fs, put_fs,
    panic, fmt_Errorf.
  unfold mbind, M_bind, mret, M_ret. simpl.
  repeat (case_match; simplify_eq/=; try done); intros; by simplify_eq/=.
Qed.

(** *** The three readings of "the decoded file is written" *)

Lemma mkdir_all_keeps m done todo m' q x :
  mkdir_all m done todo = Some m' → m !! q = Some x → m' !! q = Some x.
Proof.
  intros Hm Hq. destruct (mkdir_all_spec _ _ _ _ Hm q) as [->|(?&_)]; congruence.
Qed.

Lemma mkdir_all_outside m p m' q :
  mkdir_all m [] p = Some m' → ¬ q `prefix_of` p → m' !! q = m !! q.
Proof.
  intros Hm Hq. destruct (mkdir_all_spec _ _ _ _ Hm q) as [?|(_&_&k&_&->)]; [done|].
  destruct Hq. simpl. apply prefix_take.
Qed.

Lemma node_at_app (m : gmap path node) (dir rel : path) :
  dir ≠ [] → node_at m (dir ++ rel) = m !! (dir ++ rel).
Proof. by destruct dir. Qed.

Lemma strings_TrimPrefix_app (dir rel : path) : strings_TrimPrefix (dir ++ rel) dir = rel.
Proof. unfold strings_TrimPrefix. by rewrite path_rel_app. Qed.

Lemma emit_kinds_kept e : preserves kinds_kept (emit e).
Proof. intros s q. apply same_kind_refl. Qed.

Lemma decode_walkFn_kinds_kept secretDir targetDir opts q i e :
  preserves kinds_kept (decode_walkFn secretDir targetDir opts q i e).
Proof. apply preserves_decode_walkFn; [done|]. intros; by repeat split. Qed.

(** With a nil secret, every regular file below [secretDir] ends up with an
    empty counterpart. *)
Lemma Walk_nil_secret fuel secretDir targetDir opts s s' rel :
  opt_Secret opts = None →
  filepath_Walk fuel secretDir (decode_walkFn secretDir targetDir opts) s = (Ret None, s') →
  file_below (fs s) secretDir rel →
  fs s' !! decoded_file targetDir rel = Some (File []).
Proof.
  intros Hnil Hrun Hrel.
  set (R := λ s s' : State,
         kinds_kept s s' ∧
         ∀ x, fs s !! x = Some (File []) → fs s' !! x = Some (File [])).
  set (Q := λ (q : path) (s : State),
         fs s !! decoded_file targetDir (strings_TrimPrefix q secretDir) = Some (File [])).
  assert (PreOrder R) as HR.
  { split.
    - intros s1. split; [reflexivity|done].
    - intros s1 s2 s3 [??] [??]. split; [by etrans|auto]. }
  pose proof (filepath_Walk_visits secretDir (decode_walkFn secretDir targetDir opts)
                R (λ _, True) Q) as Hvisit.
  rewrite <-(strings_TrimPrefix_app secretDir rel).
  apply Hvisit with (fuel := fuel) (s := s); clear Hvisit; try done.
  - by intros ?? [? _].
  - intros q s1 s2 [_ H] _. apply H.
  - intros e s1. split; [apply emit_kinds_kept|done].
  - intros q i e _ s1. split; [apply decode_walkFn_kinds_kept|].
    destruct (decode_walkFn_cases secretDir targetDir opts q i e s1)
      as [->|(info&->&Hi&->)]; [done|].
    destruct (decode_walkFn _ _ _ _ _ _ s1) as [st s2] eqn:Hw. simpl.
    destruct (decode_walkFn_file _ _ _ _ _ _ _ _ Hi Hw)
      as (r&_&[[_ ->]|[[_ Hm]|(_&m1&content&Hm&->&Hc)]]); [done|..].
    + intros x Hx. by eapply mkdir_all_keeps.
    + rewrite Hnil in Hc. destruct Hc as [-> _]. intros x Hx.
      destruct (decide (decoded_file targetDir (strings_TrimPrefix q secretDir) = x))
        as [->|Hne]; [by rewrite lookup_insert_eq|].
      rewrite lookup_insert_ne by done. by eapply mkdir_all_keeps.
  - intros q i e. apply decode_walkFn_no_skip.
  - intros q i s1 s2 d _ _ Hd Hi Hw. unfold Q.
    destruct (decode_walkFn_file _ _ _ _ _ _ _ _ Hi Hw)
      as (r&[= <-]&[[? _]|[[? _]|(_&m1&content&Hm&->&Hc)]]); [done..|].
    rewrite Hnil in Hc. destruct Hc as [-> _]. by rewrite lookup_insert_eq.
Qed.

(** With a secret, every regular file below [secretDir] is read and what
    was read, right-trimmed, is written to its counterpart. *)
Lemma Walk_secret_trace fuel secretDir targetDir opts s s' rel :
  opt_Secret opts ≠ None →
  filepath_Walk fuel secretDir (decode_walkFn secretDir targetDir opts) s = (Ret None, s') →
  file_below (fs s) secretDir rel →
  ∃ d pre post,
    trace s' = trace s ++ pre ++
               [EvReadFile (secretDir ++ rel) (Some d);
                EvMkdirAll (filepath_Dir (decoded_file targetDir rel));
                EvWriteFile (decoded_file targetDir rel)
                            (strings_TrimRightFunc d unicode_IsSpace)] ++ post.
Proof.
  intros Hsec Hrun Hrel.
  set (R := λ s s' : State, kinds_kept s s' ∧ trace_grows s s').
  set (Inv := λ s1 : State, trace s `prefix_of` trace s1).
  set (Q := λ (q : path) (s1 : State),
         ∃ d pre post,
           trace s1 = trace s ++ pre ++
                      [EvReadFile q (Some d);
                       EvMkdirAll (filepath_Dir
                         (decoded_file targetDir (strings_TrimPrefix q secretDir)));
                       EvWriteFile
                         (decoded_file targetDir (strings_TrimPrefix q secretDir))
                         (strings_TrimRightFunc d unicode_IsSpace)] ++ post).
  pose proof (filepath_Walk_visits secretDir (decode_walkFn secretDir targetDir opts)
                R Inv Q) as Hvisit.
  assert (Q (secretDir ++ rel) s') as HQ;
    [|unfold Q in HQ; by rewrite strings_TrimPrefix_app in HQ].
  apply Hvisit with (fuel := fuel) (s := s); clear Hvisit; try done.
  - by intros ?? [? _].
  - intros s1 s2 [_ H12] H1. unfold Inv. by etrans.
  - intros q s1 s2 [_ [k Hk]] _ (d&pre&post&Hq). exists d, pre, (post ++ k).
    rewrite Hk, Hq. by rewrite <-!app_assoc.
  - intros e. by apply (preserves_emit (R := R)).
  - intros q i e _. apply preserves_decode_walkFn; [done|]. intros; by repeat split.
  - intros q i e. apply decode_walkFn_no_skip.
  - intros q i s1 s2 d _ [k Hk] Hd Hi Hw. unfold Q.
    destruct (decode_walkFn_file _ _ _ _ _ _ _ _ Hi Hw)
      as (r&[= <-]&[[? _]|[[? _]|(_&m1&content&Hm&_&Hc)]]); [done..|].
    destruct (opt_Secret opts); [|done].
    destruct Hc as (d'&_&->&Htr). exists d', k, [].
    rewrite Htr, Hk. by rewrite <-!app_assoc.
  - by unfold Inv.
Qed.

(** With a secret and a target that is separate from [secretDir], the
    counterpart holds the right-trimmed content the file had at the start. *)
Lemma Walk_secret_separate fuel secretDir targetDir opts s s' rel d :
  secretDir ≠ [] →
  separate secretDir targetDir →
  opt_Secret opts ≠ None →
  filepath_Walk fuel secretDir (decode_walkFn secretDir targetDir opts) s = (Ret None, s') →
  file_below (fs s) secretDir rel →
  fs s !! (secretDir ++ rel) = Some (File d) →
  fs s' !! decoded_file targetDir rel = Some (File (strings_TrimRightFunc d unicode_IsSpace)).
Proof.
  intros Hne [Hst Hts] Hsec Hrun Hrel Hd.
  set (Inv := λ s1 : State, ∀ x, secretDir `prefix_of` x → fs s1 !! x = fs s !! x).
  set (Q := λ (q : path) (s1 : State),
         secretDir `prefix_of` q →
         ∃ d, fs s !! q = Some (File d) ∧
              fs s1 !! decoded_file targetDir (strings_TrimPrefix q secretDir)
                = Some (File (strings_TrimRightFunc d unicode_IsSpace))).
  set (R := λ s1 s2 : State,
         kinds_kept s1 s2 ∧ (Inv s1 → Inv s2 ∧ ∀ q, Q q s1 → Q q s2)).
  assert (PreOrder R) as HR.
  { split.
    - intros s1. split; [reflexivity|done].
    - intros s1 s2 s3 [? H12] [? H23]. split; [by etrans|].
      intros H1. destruct (H12 H1) as [H2 HQ2]. destruct (H23 H2) as [H3 HQ3].
      split; [done|]. intros q Hq. by apply HQ3, HQ2. }
  assert (∀ x y, secretDir `prefix_of` x → targetDir `prefix_of` y → ¬ x `prefix_of` y)
    as Hsep1.
  { intros x y Hx Hy Hxy.
    destruct (prefix_weak_total _ _ _ Hy (PreOrder_Reflexive y)) as [_|_].
    all: destruct (prefix_weak_total targetDir x y Hy Hxy) as [Htx|Hxt].
    all: try (destruct (prefix_weak_total _ _ _ Hx Htx); done).
    all: destruct Hst; by etrans. }
  pose proof (filepath_Walk_visits secretDir (decode_walkFn secretDir targetDir opts)
                R Inv Q) as Hvisit.
  assert (Q (secretDir ++ rel) s') as HQ.
  { apply Hvisit with (fuel := fuel) (s := s); clear Hvisit; try done.
    - by intros ?? [? _].
    - intros s1 s2 [_ H] H1. by apply H.
    - intros q s1 s2 [_ H] H1. by apply H.
    - intros e s1. split; [apply emit_kinds_kept|done].
    - intros q i e Hq s1. split; [apply decode_walkFn_kinds_kept|].
      destruct (decode_walkFn_cases secretDir targetDir opts q i e s1)
        as [->|(info&->&Hi&->)]; [done|].
      destruct (decode_walkFn _ _ _ _ _ _ s1) as [st s2] eqn:Hw. simpl.
      destruct Hq as [relq ->].
      destruct (decode_walkFn_file _ _ _ _ _ _ _ _ Hi Hw) as (r&_&Hcases).
      rewrite strings_TrimPrefix_app in Hcases.
      destruct (decoded_path_under targetDir relq) as [Hu1 Hu2].
      rewrite filepath_Join3 in Hu1, Hu2. fold (decoded_file targetDir relq) in Hu1, Hu2.
      intros H1. unfold Inv, Q in *.
      destruct Hcases as [[_ Hfs]|[[_ Hm]|(_&m1&content&Hm&Hfs&Hc)]].
      + rewrite Hfs. done.
      + split.
        * intros x Hx. rewrite <-H1 by done.
          eapply mkdir_all_outside; [exact Hm|]. by apply Hsep1.
        * intros q HQq Hq. destruct (HQq Hq) as (dq&?&?). exists dq. split; [done|].
          by eapply mkdir_all_keeps.
      + destruct (opt_Secret opts); [|done]. destruct Hc as (d1&Hd1&->&_).
        rewrite Hfs. split.
        * intros x Hx. rewrite <-H1 by done.
          rewrite lookup_insert_ne.
          -- eapply mkdir_all_outside; [exact Hm|]. by apply Hsep1.
          -- intros <-. by apply (Hsep1 (decoded_file targetDir relq)
                                        (decoded_file targetDir relq)).
        * intros q HQq Hq. destruct (HQq Hq) as (dq&Hdq&Hdst). destruct Hq as [relq' ->].
          rewrite strings_TrimPrefix_app in *. exists dq. split; [done|].
          destruct (decide (relq = relq')) as [->|Hrel'].
          -- rewrite lookup_insert_eq. do 3 f_equal.
             rewrite node_at_app, H1 in Hd1 by (done || by apply prefix_app_r).
             congruence.
          -- rewrite lookup_insert_ne.
             ++ by eapply mkdir_all_keeps.
             ++ unfold decoded_file. intros Heq. by simplify_list_eq.
    - intros q i e. apply decode_walkFn_no_skip.
    - intros q i s1 s2 d1 Hq H1 Hd1 Hi Hw. unfold Q. intros _.
      destruct (decode_walkFn_file _ _ _ _ _ _ _ _ Hi Hw)
        as (r&[= <-]&[[? _]|[[? _]|(_&m1&content&Hm&->&Hc)]]); [done..|].
      destruct (opt_Secret opts); [|done]. destruct Hc as (d2&Hd2&->&_).
      exists d2. rewrite lookup_insert_eq. split; [|done].
      destruct Hq as [relq ->].
      rewrite node_at_app, H1 in Hd2 by (done || by apply prefix_app_r). done. }
  destruct HQ as (d'&Hd'&HQ); [by apply prefix_app_r|].
  rewrite strings_TrimPrefix_app in HQ. congruence.
Qed.

(** *** From a successful [PrepareDappChart] to its walk *)

Lemma bind_inv {A B} (m : M A) (f : A → M B) s b s' :
  (m ≫= f) s = (Ret b, s') →
  ∃ a s1, m s = (Ret a, s1) ∧ f a s1 = (Ret b, s').
Proof.
  unfold mbind, M_bind. destruct (m s) as [[a| |] s1]; try done. eauto.
Qed.

Lemma preserves_ret_eq {A} (R : relation State) (m : M A) s a s' :
  preserves R m → m s = (Ret a, s') → R s s'.
Proof. intros Hm Hs. specialize (Hm s). by rewrite Hs in Hm. Qed.

Section ReachesWalk.
Context {ok : event → Prop} {mk wr : path → Prop} {R : relation State}.
Context `{!Discipline ok mk wr R}.

Lemma PrepareDappChart_reaches_walk fuel projectDir targetDir opts s chart s' :
  (∀ s s', R s s' → chartdirs_kept s s') →
  (∀ q, projectDir `prefix_of` q → reads_ok ok q) →
  (∀ q, targetDir `prefix_of` q → writes_ok ok mk wr q) →
  mkdir_ok ok mk (filepath_Dir targetDir) →
  PrepareDappChart fuel projectDir targetDir opts s = (Ret (Some chart, None), s') →
  ∃ s1, R s s1 ∧
    (node_at (fs s1) (projectDir ++ [SecretDirName]) ≠ None →
     filepath_Walk fuel (projectDir ++ [SecretDirName])
       (decode_walkFn (projectDir ++ [SecretDirName]) targetDir opts) s1 = (Ret None, s')).
Proof.
  intros HR Hrd Hwr Hdir Hrun. unfold PrepareDappChart in Hrun.
  assert (∀ a q, projectDir ++ a `prefix_of` q → reads_ok ok q) as Hrd'.
  { intros a q Hq. apply Hrd. etrans; [|exact Hq]. by apply prefix_app_r. }
  assert (∀ a, writes_ok ok mk wr (targetDir ++ a)) as Hwr'.
  { intros a. apply Hwr. by apply prefix_app_r. }
  rewrite !filepath_Join2 in Hrun.
  apply bind_inv in Hrun as (dappChart & s0 & Hnew & Hrun).
  assert (R s s0) as HR0 by (eapply preserves_ret_eq; [apply preserves_new_chart|done]).
  assert (chart_at dappChart targetDir s0) as Hchart.
  { unfold new_chart in Hnew. injection Hnew as <- <-. eexists.
    split; [simpl; by rewrite lookup_app_r, Nat.sub_diag|done]. }
  assert (∀ s s', chart_at dappChart targetDir s → R s s' →
                  chart_at dappChart targetDir s') as HI.
  { intros sa sb (c&Hc&<-) Hss. destruct (HR _ _ Hss _ _ Hc) as (c'&?&?). by exists c'. }
  apply bind_inv in Hrun as ([e|] & s1 & Hcopy & Hrun); [by inversion Hrun|].
  assert (R s0 s1) as HR1.
  { eapply preserves_ret_eq; [|exact Hcopy].
    apply preserves_copy_Copy; [by apply Hrd'|done..]. }
  destruct (Hwr' ["templates"; "_dapp_helpers.tpl"]) as (_&Hw1&Hw2&Hw3&_).
  apply bind_inv in Hrun as ([f [e|]] & s2 & Hcreate & Hrun); [by inversion Hrun|].
  assert (R s1 s2) as HR2.
  { eapply preserves_ret_eq; [|exact Hcreate]. by apply preserves_os_Create. }
  destruct (os_Create_returns _ _ _ _ Hcreate) as [[= ->]|[e [=]]].
  apply bind_inv in Hrun as ([n [e|]] & s3 & Hwrite & Hrun); [by inversion Hrun|].
  assert (R s2 s3) as HR3.
  { eapply preserves_ret_eq; [|exact Hwrite]. by apply preserves_File_Write. }
  destruct (Hrd' [DefaultSecretValuesFile] _ (reflexivity _)) as (Hok1&Hok2&Hok3).
  apply bind_inv in Hrun as ([i1 err1] & s4 & Hstat & Hrun).
  assert (R s3 s4) as HR4.
  { eapply preserves_ret_eq; [|exact Hstat]. by apply preserves_os_Stat. }
  apply bind_inv in Hrun as ([e|] & s5 & Hvalues & Hrun); [by inversion Hrun|].
  assert (R s4 s5) as HR5.
  { assert (chart_at dappChart targetDir s4) as Hc4.
    { eapply HI; [exact Hchart|]. repeat (etrans; [eassumption|]). reflexivity. }
    destruct (negb _).
    - pose proof (preserves_on_SetSecretValuesFile dappChart targetDir
                    (projectDir ++ [DefaultSecretValuesFile]) (opt_Secret opts)
                    HR ltac:(done) Hwr s4 Hc4) as H.
      by rewrite Hvalues in H.
    - injection Hvalues as <-. reflexivity. }
  destruct (Hrd' [SecretDirName] _ (reflexivity _)) as (Hok4&Hok5&Hok6).
  apply bind_inv in Hrun as ([i2 err2] & s6 & Hstat2 & Hrun).
  assert (R s5 s6) as HR6.
  { eapply preserves_ret_eq; [|exact Hstat2]. by apply preserves_os_Stat. }
  apply bind_inv in Hrun as ([e|] & s7 & Hwalk & Hrun); [by inversion Hrun|].
  injection Hrun as <- <-.
  exists s6. split.
  { repeat (etrans; [eassumption|]). reflexivity. }
  intros Hnode. rewrite os_Stat_eq in Hstat2.
  injection Hstat2 as Herr <-. simpl in Hnode.
  destruct (node_at (fs s5) (projectDir ++ [SecretDirName])) as [y|]; [|done].
  injection Herr as <- <-. exact Hwalk.
Qed.
End ReachesWalk.

Lemma separate_not_below (a b q : path) :
  separate a b → a `prefix_of` q → ¬ b `prefix_of` q ∧ ¬ q `prefix_of` b.
Proof.
  intros [Hab Hba] Ha. split.
  - intros Hb. destruct (prefix_weak_total _ _ _ Ha Hb); done.
  - intros Hq. destruct Hab. by etrans.
Qed.

(** C4: after a successful [PrepareDappChart], for every regular file
    [secret/rel] of the project: with a nil secret the file
    [decoded-secret/rel] of the target is empty; with a secret the call has
    read the file and written what it read, with the trailing white space
    cut off, to [decoded-secret/rel] -- which is the content the file had
    before the call whenever the target lies apart from the secret
    directory. *)
Theorem PrepareDappChart_decodes_secret_files
    fuel projectDir targetDir opts s chart s' rel d :
  tree_shaped (fs s) →
  PrepareDappChart fuel projectDir targetDir opts s = (Ret (Some chart, None), s') →
  fs s !! (projectDir ++ [SecretDirName] ++ rel) = Some (File d) →
  let source := projectDir ++ [SecretDirName] ++ rel in
  let written := targetDir ++ [DecodedSecretDirName] ++ rel in
  match opt_Secret opts with
  | None => fs s' !! written = Some (File [])
  | Some _ =>
      (∃ d' pre post,
         trace s' = trace s ++ pre ++
                    [EvReadFile source (Some d');
                     EvMkdirAll (filepath_Dir written);
                     EvWriteFile written (strings_TrimRightFunc d' unicode_IsSpace)]
                    ++ post)
      ∧ (separate (projectDir ++ [SecretDirName]) targetDir →
         fs s' !! written = Some (File (strings_TrimRightFunc d unicode_IsSpace)))
  end.
Proof.
  intros Htree Hrun Hd source written.
  set (secretDir := projectDir ++ [SecretDirName]).
  assert (source = secretDir ++ rel) as Hsource.
  { subst source secretDir. by rewrite <-app_assoc. }
  assert (secretDir ≠ []) as Hne by (subst secretDir; by destruct projectDir).
  set (R := λ s s' : State,
         (frame projectDir targetDir s s' ∧ chartdirs_kept s s') ∧ kinds_kept s s').
  assert (∀ s s', R s s' → chartdirs_kept s s') as HRc by (by intros ?? [[_ ?] _]).
  destruct (PrepareDappChart_reaches_walk (R := R) fuel projectDir targetDir opts s chart s'
              HRc)
    as (s1 & [[[(new & Hnew & _) Hframe] _] Hkinds] & Hwalk).
  { intros q Hq. repeat split; simpl; auto. }
  { intros q Hq. repeat split; simpl; auto. }
  { pose proof (filepath_Dir_prefix targetDir). repeat split; simpl; auto. }
  { done. }
  fold source in Hd. rewrite Hsource in Hd.
  assert (file_below (fs s) secretDir rel) as Hbelow.
  { eapply tree_shaped_file_below; [done|]. by rewrite node_at_app. }
  assert (file_below (fs s1) secretDir rel) as Hbelow1.
  { by eapply file_below_kinds_kept. }
  assert (node_at (fs s1) secretDir ≠ None) as Hexists.
  { destruct rel as [|n rel'].
    - apply file_below_nil in Hbelow1 as [d1 Hd1]. congruence.
    - apply file_below_cons in Hbelow1 as [Hd1 _]. congruence. }
  specialize (Hwalk Hexists). fold secretDir in Hwalk.
  fold (decoded_file targetDir rel) in written. subst written. rewrite Hsource.
  destruct (opt_Secret opts) as [sec|] eqn:Hsec.
  - split.
    + destruct (Walk_secret_trace fuel secretDir targetDir opts s1 s' rel)
        as (d' & pre & post & Htr); [by rewrite Hsec|done..|].
      exists d', (new ++ pre), post. rewrite Htr, Hnew. by rewrite <-!app_assoc.
    + intros Hsep.
      apply (Walk_secret_separate fuel secretDir targetDir opts s1); try done.
      { by rewrite Hsec. }
      destruct (separate_not_below _ _ (secretDir ++ rel) Hsep) as [H1 H2];
        [by apply prefix_app_r|].
      destruct (Hframe (secretDir ++ rel)) as [->|[?|[? _]]]; done.
  - by apply (Walk_nil_secret fuel secretDir targetDir opts s1).
Qed.

(** ** Further properties of the package *)

(** *** Settings handed over as they are *)

Lemma apply_settings_run chart xs s c :
  store s !! chart = Some c →
  for_range xs (apply_setting chart) s
  = (Ret None,
     {| store := <[chart := {| ChartDir := ChartDir c;
                               Values := Values c ++ files_of xs;
                               Set_ := Set_ c ++ sets_of xs;
                               moreValuesCounter := moreValuesCounter c |}]> (store s);
        fs := fs s; trace := trace s |}).
Proof.
  revert s c. induction xs as [|x xs IH]; intros s c Hc; simpl.
  - unfold mret, M_ret, sets_of, files_of. simpl. rewrite !app_nil_r.
    destruct s as [st m t], c as [d v st' n]; simpl in *.
    by rewrite list_insert_id.
  - pose proof (lookup_lt_Some _ _ _ Hc) as Hlt.
    set (rest := for_range xs (apply_setting chart)).
    unfold mbind, M_bind.
    destruct x as [set|p]; simpl;
      unfold SetValuesSet, SetValuesFile, load, store_at, mbind, M_bind, mret, M_ret;
      simpl; repeat (rewrite Hc; simpl).
    all: subst rest; erewrite IH by (simpl; by apply list_lookup_insert_eq).
    all: simpl; rewrite list_insert_insert_eq; unfold sets_of, files_of; simpl.
    all: by rewrite <-!app_assoc.
Qed.

(** [SetValuesSet] and [SetValuesFile] never fail and check nothing:
    whatever the settings, after any run of them the chart holds its old
    [Set] and [Values] followed by the new entries in call order, the
    counter, the file system and the trace are as before; and [Deploy]
    then calls [DeployHelmChart] with these in front of the caller's. *)
Theorem settings_reach_helm chart xs releaseName namespace opts s c :
  store s !! chart = Some c →
  ∃ s1,
    for_range xs (apply_setting chart) s = (Ret None, s1) ∧
    fs s1 = fs s ∧ trace s1 = trace s ∧
    store s1 = <[chart := {| ChartDir := ChartDir c;
                             Values := Values c ++ files_of xs;
                             Set_ := Set_ c ++ sets_of xs;
                             moreValuesCounter := moreValuesCounter c |}]> (store s) ∧
    trace (Deploy chart releaseName namespace opts s1).2
    = trace s ++ [EvDeployHelmChart (ChartDir c) releaseName namespace
                    {| opt_Set := Set_ c ++ sets_of xs ++ opt_Set opts;
                       opt_Values := Values c ++ files_of xs ++ opt_Values opts;
                       KubeContext := KubeContext opts;
                       DryRun := DryRun opts;
                       Debug := Debug opts |}].
Proof.
  intros Hc. eexists. split; [by apply apply_settings_run|]. simpl.
  split_and!; [done..|].
  unfold Deploy, load, call_DeployHelmChart, emit, get_fs, put_fs, mbind, M_bind, mret, M_ret.
  simpl. rewrite list_lookup_insert_eq by (by eapply lookup_lt_Some). simpl.
  destruct (DeployHelmChart _ _ _ _ _) as [err m']. simpl. by rewrite <-!app_assoc.
Qed.


(** *** Failing and succeeding values writes *)

Lemma filepath_Dir_values_file chartDir n :
  filepath_Dir (values_file chartDir n) = chartDir ++ [MoreValuesDirName].
Proof.
  unfold values_file.
  change [MoreValuesDirName; pretty n +:+ ".yaml"]
    with ([MoreValuesDirName] ++ [pretty n +:+ ".yaml"]).
  by rewrite app_assoc, filepath_Dir_snoc.
Qed.

(** How [SetValues] fails.  The directory [ChartDir/more-values] is made
    first: when [os.MkdirAll] fails, the error it gave comes back as it
    is, nothing else done; when the values cannot be marshalled the
    directory stays and no file is written; and when the file cannot be
    written the error text ends with the marshalled YAML, not with the
    cause.  The chart is never changed. *)
Theorem SetValues_failures chart values s c :
  store s !! chart = Some c →
  let p := values_file (ChartDir c) (moreValuesCounter c) in
  let dir := ChartDir c ++ [MoreValuesDirName] in
  let after fs' events :=
    {| store := store s; fs := fs'; trace := trace s ++ events |} in
  match mkdir_all (fs s) [] dir, yaml_Marshal values with
  | None, _ =>
      ∃ e, os_MkdirAll dir s = (Ret (Some e), after (fs s) [EvMkdirAll dir]) ∧
           SetValues chart values s = (Ret (Some e), after (fs s) [EvMkdirAll dir])
  | Some m', (_, Some e) =>
      SetValues chart values s
      = (Ret (Some (ErrorString ("cannot marshal values " +:+ GoString values
                                 +:+ " to yaml: " +:+ Error e))),
         after m' [EvMkdirAll dir])
  | Some m', (data, None) =>
      ∀ en, open_for_write m' p = Some en →
        SetValues chart values s
        = (Ret (Some (ErrorString ("error writing values file " +:+ path_string p +:+ ": "
                                   +:+ String.string_of_list_byte data))),
           after m' [EvMkdirAll dir; EvWriteFile p data])
  end.
Proof.
  intros Hc p dir after.
  unfold SetValues, load, os_MkdirAll, ioutil_WriteFile, emit, get_fs, put_fs,
    mbind, M_bind, mret, M_ret.
  simpl. rewrite Hc. simpl. rewrite more_values_path_eq, filepath_Dir_values_file.
  fold dir. fold p.
  destruct (mkdir_all (fs s) [] dir) as [m'|]; simpl; [|by eexists].
  destruct (yaml_Marshal values) as [data [e|]]; simpl.
  - unfold after, fmt_Errorf. cbn [fmt_Sprintf Ascii.eqb Bool.eqb hd tl].
    by rewrite string_app_nil_r.
  - intros en Hen. rewrite Hen. simpl. unfold after, fmt_Errorf.
    cbn [fmt_Sprintf Ascii.eqb Bool.eqb hd tl]. rewrite string_app_nil_r.
    by rewrite <-app_assoc.
Qed.

(** A source that is not a regular file: [SetSecretValuesFile] reports
    the error of [ioutil.ReadFile] under its own prefix and has done
    nothing else -- no directory is made, and the chart is not even looked
    at. *)
Theorem SetSecretValuesFile_unreadable chart p secret s :
  (∀ d, node_at (fs s) p ≠ Some (File d)) →
  let after := {| store := store s; fs := fs s; trace := trace s ++ [EvReadFile p None] |} in
  ∃ e,
    ioutil_ReadFile p s = (Ret ([], Some e), after) ∧
    SetSecretValuesFile chart p secret s
    = (Ret (Some (ErrorString ("cannot read secret values file " +:+ path_string p
                               +:+ ": " +:+ Error e))),
       after).
Proof.
  intros Hp after.
  unfold SetSecretValuesFile, ioutil_ReadFile, emit, get_fs, mbind, M_bind, mret, M_ret.
  simpl. destruct (node_at (fs s) p) as [[d|]|] eqn:Hnode; simpl.
  - by destruct (Hp d).
  - eexists. split; [done|]. unfold fmt_Errorf.
    cbn [fmt_Sprintf Ascii.eqb Bool.eqb hd tl]. by rewrite string_app_nil_r.
  - eexists. split; [done|]. unfold fmt_Errorf.
    cbn [fmt_Sprintf Ascii.eqb Bool.eqb hd tl]. by rewrite string_app_nil_r.
Qed.


Lemma write_values_effect chart w s s' c :
  store s !! chart = Some c →
  write_values chart w s = (Ret None, s') →
  let target := values_file (ChartDir c) (moreValuesCounter c) in
  let dir := ChartDir c ++ [MoreValuesDirName] in
  ∃ m' data,
    mkdir_all (fs s) [] dir = Some m' ∧
    fs s' = <[target := File data]> m' ∧
    match w with
    | ByValues values => yaml_Marshal values = (data, None)
    | BySecretFile p _ => node_at (fs s) p = Some (File data)
    end.
Proof.
  intros Hc Hrun target dir.
  pose proof (lookup_lt_Some _ _ _ Hc) as Hlt. revert Hrun.
  destruct w as [values|p secret]; simpl.
  - unfold SetValues, load, os_MkdirAll, ioutil_WriteFile, store_at, emit, get_fs, put_fs.
    unfold mbind, M_bind, mret, M_ret. simpl. rewrite Hc.
    rewrite more_values_path_eq, filepath_Dir_values_file. fold dir. fold target.
    repeat (case_match; simplify_eq/=; try done).
    intros [= <-]; simpl. by eexists _, _.
  - unfold SetSecretValuesFile, decodeSecretValues, ioutil_ReadFile, load, os_MkdirAll,
      ioutil_WriteFile, store_at, emit, get_fs, put_fs.
    unfold mbind, M_bind, mret, M_ret. simpl.
    repeat (case_match; simplify_eq/=; try done).
    rewrite more_values_path_eq, filepath_Dir_values_file in *.
    intros [= <-]; simpl. by eexists _, _.
Qed.

(** What a successful [SetValues] or [SetSecretValuesFile] leaves in the
    file system: the new values file holds the marshalled values, or the
    bytes the source file had, and reading it gives them back; apart from
    that file, at most the missing directories down to
    [ChartDir/more-values] have been made. *)
Theorem values_write_content chart w s s' c :
  store s !! chart = Some c →
  write_values chart w s = (Ret None, s') →
  let target := values_file (ChartDir c) (moreValuesCounter c) in
  let dir := ChartDir c ++ [MoreValuesDirName] in
  (∃ data,
     match w with
     | ByValues values => yaml_Marshal values = (data, None)
     | BySecretFile p _ => node_at (fs s) p = Some (File data)
     end ∧
     fs s' !! target = Some (File data) ∧
     (ioutil_ReadFile target s').1 = Ret (data, None)) ∧
  (∀ q, q ≠ target →
        fs s' !! q = fs s !! q ∨
        (q `prefix_of` dir ∧ fs s !! q = None ∧ fs s' !! q = Some Dir)).
Proof.
  intros Hc Hrun target dir.
  assert (target ≠ []) as Hne by (unfold target, values_file; by destruct (ChartDir c)).
  destruct (write_values_effect _ _ _ _ _ Hc Hrun) as (m' & data & Hm & Hfs & Hdata).
  fold target in Hfs. fold dir in Hm.
  split.
  - exists data. split; [done|]. rewrite Hfs, lookup_insert_eq. split; [done|].
    unfold ioutil_ReadFile, get_fs, emit, mbind, M_bind, mret, M_ret. simpl.
    unfold node_at. destruct target; [done|]. by rewrite Hfs, lookup_insert_eq.
  - intros q Hq. rewrite Hfs, lookup_insert_ne by done.
    destruct (mkdir_all_spec _ _ _ _ Hm q) as [?|(?&?&k&?&->)]; [by left|right].
    split_and!; [apply prefix_take|done..].
Qed.

(** *** [PrepareDappChart], step by step *)

(** A project without [.helm]: the call fails on the first thing the
    copy does, looking at [.helm]; it returns the error of the copy under
    its own prefix, whatever the budget of the copy, with the file system
    untouched and the charts of the store as they were. *)
Theorem PrepareDappChart_without_helm_dir fuel projectDir targetDir opts s :
  node_at (fs s) (projectDir ++ [".helm"]) = None →
  let helm := projectDir ++ [".helm"] in
  let r := PrepareDappChart fuel projectDir targetDir opts s in
  (∃ e, (copy_Copy fuel helm targetDir s).1 = Ret (Some e) ∧
        r.1 = Ret (None, Some (ErrorString ("unable to copy project helm dir "
                                            +:+ path_string helm +:+ " into "
                                            +:+ path_string targetDir +:+ ": "
                                            +:+ Error e)))) ∧
  fs r.2 = fs s ∧
  trace r.2 = trace s ++ [EvStat helm] ∧
  (∀ i c, store s !! i = Some c → store r.2 !! i = Some c).
Proof.
  intros Hnone helm r.
  assert (r = (Ret (None, Some (fmt_Errorf "unable to copy project helm dir %s into %s: %s"
                                  [path_string helm; path_string targetDir;
                                   Error (PathError "stat" helm ENOENT)])),
               {| store := store s ++ [{| ChartDir := targetDir; Values := []; Set_ := [];
                                          moreValuesCounter := 0 |}];
                  fs := fs s; trace := trace s ++ [EvStat helm] |})) as ->.
  { subst r helm. unfold PrepareDappChart, copy_Copy, new_chart. rewrite filepath_Join2.
    unfold mbind, M_bind. rewrite os_Stat_eq. simpl. by rewrite Hnone. }
  simpl. split_and!; [|done|done|].
  - eexists. split.
    + unfold copy_Copy, mbind, M_bind. rewrite os_Stat_eq. simpl.
      unfold helm. by rewrite Hnone.
    + unfold fmt_Errorf. cbn [fmt_Sprintf Ascii.eqb Bool.eqb hd tl].
      by rewrite string_app_nil_r.
  - intros i c Hi. rewrite lookup_app_l; [done|]. by eapply lookup_lt_Some.
Qed.

(** *** Code that works on the file system only *)

(** Whatever [emit] and [put_fs] preserve, the library calls, the copy,
    the walk and the walk callback preserve: none of them touches the
    store. *)
Section FsOnly.
Context (R : relation State) `{!PreOrder R}.
Hypothesis R_emit : ∀ e, preserves R (emit e).
Hypothesis R_put : ∀ m, preserves R (put_fs m).

Ltac fs_only :=
  repeat first
    [ apply preserves_bind; [done| |intros ?]
    | apply R_emit | apply R_put
    | by apply preserves_get_fs | by apply preserves_ret | by apply preserves_panic
    | case_match ].

Lemma fs_only_os_Stat name : preserves R (os_Stat name).
Proof. unfold os_Stat. fs_only. Qed.

Lemma fs_only_ioutil_ReadDir name : preserves R (ioutil_ReadDir name).
Proof. unfold ioutil_ReadDir. fs_only. Qed.

Lemma fs_only_ioutil_ReadFile name : preserves R (ioutil_ReadFile name).
Proof. unfold ioutil_ReadFile. fs_only. Qed.

Lemma fs_only_os_MkdirAll name : preserves R (os_MkdirAll name).
Proof. unfold os_MkdirAll. fs_only. Qed.

Lemma fs_only_ioutil_WriteFile name data : preserves R (ioutil_WriteFile name data).
Proof. unfold ioutil_WriteFile. fs_only. Qed.

Lemma fs_only_os_Create name : preserves R (os_Create name).
Proof. unfold os_Create. fs_only. Qed.

Lemma fs_only_File_Write f b : preserves R (File_Write f b).
Proof. unfold File_Write. fs_only. Qed.

Lemma fs_only_copy_copy fuel src dest info : preserves R (copy_copy fuel src dest info).
Proof.
  revert src dest info. induction fuel as [|fuel IH]; intros src dest info.
  { by apply preserves_out_of_fuel. }
  simpl. destruct (IsDir info).
  - apply preserves_bind; [done|apply fs_only_os_MkdirAll|intros [e|]].
    { by apply preserves_ret. }
    apply preserves_bind; [done|apply fs_only_ioutil_ReadDir|intros [contents [e|]]].
    { by apply preserves_ret. }
    apply preserves_for_range; [done|]. intros content _. apply IH.
  - apply preserves_bind; [done|apply fs_only_os_MkdirAll|intros [e|]].
    { by apply preserves_ret. }
    apply preserves_bind; [done|apply fs_only_os_Create|intros [f [e|]]].
    { by apply preserves_ret. }
    apply preserves_bind; [done|apply fs_only_ioutil_ReadFile|intros [data [e|]]].
    { by apply preserves_ret. }
    apply preserves_bind; [done|apply fs_only_File_Write|intros [n err]].
    by apply preserves_ret.
Qed.

Lemma fs_only_copy_Copy fuel src dest : preserves R (copy_Copy fuel src dest).
Proof.
  unfold copy_Copy.
  apply preserves_bind; [done|apply fs_only_os_Stat|intros [[info|] [e|]]];
    try by apply preserves_ret.
  - apply fs_only_copy_copy.
  - by apply preserves_panic.
Qed.

Lemma fs_only_decode_walkFn secretDir targetDir opts p info err :
  preserves R (decode_walkFn secretDir targetDir opts p info err).
Proof.
  unfold decode_walkFn.
  destruct err as [e|]; [by apply preserves_ret|].
  destruct info as [info|]; [|by apply preserves_panic].
  destruct (IsDir info); [by apply preserves_ret|].
  case_bool_decide.
  - apply preserves_bind; [done|apply fs_only_os_MkdirAll|intros [e|]].
    { by apply preserves_ret. }
    apply preserves_bind; [done|apply fs_only_ioutil_WriteFile|intros [e|]];
      by apply preserves_ret.
  - apply preserves_bind; [done|apply fs_only_ioutil_ReadFile|intros [data [e|]]].
    { by apply preserves_ret. }
    simpl.
    apply preserves_bind; [done|apply fs_only_os_MkdirAll|intros [e|]].
    { by apply preserves_ret. }
    apply preserves_bind; [done|apply fs_only_ioutil_WriteFile|intros [e|]];
      by apply preserves_ret.
Qed.

Lemma fs_only_filepath_Walk fuel secretDir targetDir opts :
  preserves R (filepath_Walk fuel secretDir (decode_walkFn secretDir targetDir opts)).
Proof.
  unfold filepath_Walk.
  apply preserves_bind; [done|apply fs_only_os_Stat|intros [info [e|]]].
  - apply preserves_bind; [done|apply fs_only_decode_walkFn|intros err].
    case_match; by apply preserves_ret.
  - apply preserves_bind; [done| |intros err; case_match; by apply preserves_ret].
    destruct info as [info|]; [|by apply preserves_panic].
    apply (preserves_walk_R secretDir); [done|done| |done].
    intros q i e _. apply fs_only_decode_walkFn.
Qed.
End FsOnly.

Global Instance store_kept_preorder : PreOrder store_kept.
Proof. split; unfold store_kept; [done|]. intros s1 s2 s3 H1 H2. congruence. Qed.


Lemma store_kept_run {A} (m : M A) s :
  preserves store_kept m → store (m s).2 = store s.
Proof. intros Hm. apply Hm. Qed.

(** The states a successful [PrepareDappChart] goes through: after the
    copy, after the helpers template, after the secret values, and the
    walk over the secret directory. *)
Lemma PrepareDappChart_inv fuel projectDir targetDir opts s chart s' :
  PrepareDappChart fuel projectDir targetDir opts s = (Ret (Some chart, None), s') →
  let c0 := {| ChartDir := targetDir; Values := []; Set_ := []; moreValuesCounter := 0 |} in
  let tpl := targetDir ++ ["templates"; "_dapp_helpers.tpl"] in
  let values := projectDir ++ [DefaultSecretValuesFile] in
  let secretDir := projectDir ++ [SecretDirName] in
  ∃ s1 s3 s5,
    chart = length (store s) ∧
    copy_Copy fuel (projectDir ++ [".helm"]) targetDir (new_chart c0 s).2 = (Ret None, s1) ∧
    open_for_write (fs s1) tpl = None ∧
    s3 = {| store := store s1;
            fs := <[tpl := File DappChartHelpersTpl]> (fs s1);
            trace := trace s1 ++ [EvCreate tpl; EvWrite tpl DappChartHelpersTpl; EvStat values]
         |} ∧
    ((node_at (fs s3) values = None ∧ s5 = s3) ∨
     (node_at (fs s3) values ≠ None ∧
      SetSecretValuesFile chart values (opt_Secret opts) s3 = (Ret None, s5))) ∧
    ((node_at (fs s5) secretDir = None ∧ s' = (emit (EvStat secretDir) s5).2) ∨
     (node_at (fs s5) secretDir ≠ None ∧
      filepath_Walk fuel secretDir (decode_walkFn secretDir targetDir opts)
        (emit (EvStat secretDir) s5).2 = (Ret None, s'))).
Proof.
  intros Hrun c0 tpl values secretDir. unfold PrepareDappChart in Hrun.
  rewrite !filepath_Join2 in Hrun. fold c0 tpl values secretDir in Hrun.
  apply bind_inv in Hrun as (dappChart & s0 & Hnew & Hrun).
  unfold new_chart in Hnew. injection Hnew as <- <-.
  apply bind_inv in Hrun as ([e|] & s1 & Hcopy & Hrun); [by inversion Hrun|].
  apply bind_inv in Hrun as ([f [e|]] & s2 & Hcreate & Hrun); [by inversion Hrun|].
  apply bind_inv in Hrun as ([n [e|]] & s3 & Hwrite & Hrun); [by inversion Hrun|].
  apply bind_inv in Hrun as ([i1 err1] & s4 & Hstat & Hrun).
  apply bind_inv in Hrun as ([e|] & s5 & Hvalues & Hrun); [by inversion Hrun|].
  apply bind_inv in Hrun as ([i2 err2] & s6 & Hstat2 & Hrun).
  apply bind_inv in Hrun as ([e|] & s7 & Hwalk & Hrun); [by inversion Hrun|].
  injection Hrun as <- <-.
  assert (tpl ≠ []) as Htpl by (unfold tpl; by destruct targetDir).
  unfold os_Create, emit, get_fs, put_fs, mbind, M_bind, mret, M_ret in Hcreate.
  simpl in Hcreate.
  destruct (open_for_write (fs s1) tpl) eqn:Hopen; simpl in Hcreate; [done|].
  injection Hcreate as <- <-.
  unfold File_Write, emit, get_fs, put_fs, mbind, M_bind, mret, M_ret in Hwrite.
  simpl in Hwrite. unfold node_at in Hwrite at 1.
  destruct tpl as [|t0 tpl'] eqn:Etpl; [done|]. rewrite <-Etpl in *.
  rewrite lookup_insert_eq in Hwrite. simpl in Hwrite. injection Hwrite as _ <-.
  rewrite insert_insert_eq in Hstat. rewrite os_Stat_eq in Hstat.
  injection Hstat as Herr1 <-. simpl in *.
  rewrite os_Stat_eq in Hstat2. injection Hstat2 as Herr2 <-.
  rewrite <-!app_assoc in Hvalues. simpl in Hvalues.
  eexists s1, _, s5. split_and!; [done|exact Hcopy|done|reflexivity| |].
  - simpl.
    destruct (node_at (<[tpl:=File DappChartHelpersTpl]> (fs s1)) values) as [x|] eqn:Hv.
    + right. split; [done|]. injection Herr1 as <- <-. exact Hvalues.
    + left. split; [done|]. injection Herr1 as <- <-. simpl in Hvalues.
      by injection Hvalues as <-.
  - destruct (node_at (fs s5) secretDir) as [x|] eqn:Hv.
    + right. split; [done|]. injection Herr2 as <- <-. exact Hwalk.
    + left. split; [done|]. injection Herr2 as <- <-. simpl in Hwalk.
      by injection Hwalk as <-.
Qed.


Global Instance outside_kept_preorder dir : PreOrder (outside_kept dir).
Proof.
  split.
  - intros s q _. by left.
  - intros s1 s2 s3 H12 H23 q Hq.
    destruct (H23 q Hq) as [->|[H2 H3]]; [by apply H12|].
    destruct (H12 q Hq) as [H1|[H1 ?]]; [|congruence].
    right. by rewrite <-H1.
Qed.

Lemma outside_kept_file dir s s' q d :
  outside_kept dir s s' → ¬ dir `prefix_of` q →
  fs s !! q = Some (File d) → fs s' !! q = Some (File d).
Proof. intros H Hq Hd. destruct (H q Hq) as [->|[? _]]; congruence. Qed.

Lemma outside_kept_mkdir dir s m' p :
  mkdir_all (fs s) [] p = Some m' →
  outside_kept dir s {| store := store s; fs := m'; trace := trace s |}.
Proof.
  intros Hm q _. simpl.
  destruct (mkdir_all_spec _ _ _ _ Hm q) as [?|(?&?&_)]; [by left|by right].
Qed.

(** The walk over the secret directory changes the target's
    [decoded-secret] directory and nothing else. *)
Lemma decode_walkFn_keeps_outside secretDir targetDir opts q i e :
  preserves (outside_kept (targetDir ++ [DecodedSecretDirName]))
            (decode_walkFn secretDir targetDir opts q i e).
Proof.
  intros s.
  destruct (decode_walkFn_cases secretDir targetDir opts q i e s)
    as [->|(info&->&Hi&->)]; [reflexivity|].
  destruct (decode_walkFn _ _ _ _ _ _ s) as [st s2] eqn:Hw. simpl.
  destruct (decode_walkFn_file _ _ _ _ _ _ _ _ Hi Hw)
    as (r&_&[[_ Hs]|[[_ Hm]|(_&m1&content&Hm&Hs&_)]]).
  - intros x _. left. by rewrite Hs.
  - intros x _. destruct (mkdir_all_spec _ _ _ _ Hm x) as [?|(?&?&_)]; [by left|by right].
  - intros x Hx. rewrite Hs.
    rewrite lookup_insert_ne.
    + destruct (mkdir_all_spec _ _ _ _ Hm x) as [?|(?&?&_)]; [by left|by right].
    + intros <-. apply Hx. unfold decoded_file. rewrite app_assoc. by apply prefix_app_r.
Qed.

Lemma Walk_keeps_outside fuel secretDir targetDir opts :
  preserves (outside_kept (targetDir ++ [DecodedSecretDirName]))
            (filepath_Walk fuel secretDir (decode_walkFn secretDir targetDir opts)).
Proof.
  assert (∀ e, preserves (outside_kept (targetDir ++ [DecodedSecretDirName])) (emit e))
    as Hemit.
  { intros e s q _. by left. }
  assert (∀ name, preserves (outside_kept (targetDir ++ [DecodedSecretDirName]))
                            (os_Stat name)) as Hstat.
  { intros name s. rewrite os_Stat_eq. apply Hemit. }
  unfold filepath_Walk.
  apply preserves_bind; [apply _|apply Hstat|intros [info [e|]]].
  - apply preserves_bind; [apply _|apply decode_walkFn_keeps_outside|intros err].
    case_match; apply preserves_ret, _.
  - apply preserves_bind; [apply _| |intros err; case_match; apply preserves_ret, _].
    destruct info as [info|]; [|apply preserves_panic, _].
    apply (preserves_walk_R secretDir); [apply _|done| |done].
    intros q i e _. apply decode_walkFn_keeps_outside.
Qed.


Lemma not_under_sibling (dir : path) (a b : string) (rest : path) :
  a ≠ b → ¬ (dir ++ [a]) `prefix_of` (dir ++ b :: rest).
Proof. intros Hab H%prefix_app_inv. by apply prefix_cons_inv_1 in H. Qed.

Lemma PrepareDappChart_frame fuel projectDir targetDir opts s :
  frame projectDir targetDir s (PrepareDappChart fuel projectDir targetDir opts s).2.
Proof.
  assert (frame projectDir targetDir s (PrepareDappChart fuel projectDir targetDir opts s).2
          ∧ chartdirs_kept s (PrepareDappChart fuel projectDir targetDir opts s).2)
    as [H _]; [|done].
  apply (preserves_PrepareDappChart (R := λ s s', frame projectDir targetDir s s' ∧
                                                  chartdirs_kept s s')).
  - by intros ?? [_ ?].
  - intros q Hq. by repeat split.
  - intros q Hq. repeat split; simpl; auto.
  - pose proof (filepath_Dir_prefix targetDir). repeat split; simpl; auto.
Qed.

(** The store and the files of a successful [PrepareDappChart], state by
    state. *)
Lemma PrepareDappChart_result fuel projectDir targetDir opts s chart s' :
  PrepareDappChart fuel projectDir targetDir opts s = (Ret (Some chart, None), s') →
  let c0 := {| ChartDir := targetDir; Values := []; Set_ := []; moreValuesCounter := 0 |} in
  let file0 := values_file targetDir 0 in
  let c1 := {| ChartDir := targetDir; Values := [file0]; Set_ := [];
               moreValuesCounter := 1 |} in
  let tpl := targetDir ++ ["templates"; "_dapp_helpers.tpl"] in
  let values := projectDir ++ [DefaultSecretValuesFile] in
  ∃ s1 s5,
    chart = length (store s) ∧
    copy_Copy fuel (projectDir ++ [".helm"]) targetDir (new_chart c0 s).2 = (Ret None, s1) ∧
    ((<[tpl := File DappChartHelpersTpl]> (fs s1) !! values = None ∧
      fs s5 = <[tpl := File DappChartHelpersTpl]> (fs s1) ∧
      store s' = store s ++ [c0]) ∨
     (∃ m' d,
        <[tpl := File DappChartHelpersTpl]> (fs s1) !! values = Some (File d) ∧
        mkdir_all (<[tpl := File DappChartHelpersTpl]> (fs s1)) []
                  (targetDir ++ [MoreValuesDirName]) = Some m' ∧
        fs s5 = <[file0 := File d]> m' ∧
        store s' = store s ++ [c1])) ∧
    outside_kept (targetDir ++ [DecodedSecretDirName]) s5 s'.
Proof.
  intros Hrun c0 file0 c1 tpl values.
  destruct (PrepareDappChart_inv _ _ _ _ _ _ _ Hrun)
    as (s1 & s3 & s5 & Hchart & Hcopy & Hopen & Hs3 & Hvalues & Hwalk).
  fold c0 tpl values in Hcopy, Hopen, Hs3, Hvalues.
  assert (∀ e, preserves store_kept (emit e)) as Hemit by done.
  assert (∀ m, preserves store_kept (put_fs m)) as Hput by done.
  assert (store s1 = store s ++ [c0]) as Hst1.
  { pose proof (fs_only_copy_Copy store_kept Hemit Hput fuel (projectDir ++ [".helm"])
                  targetDir (new_chart c0 s).2) as H.
    rewrite Hcopy in H. exact H. }
  assert (values ≠ []) as Hvne by (unfold values; by destruct projectDir).
  assert (store s' = store s5 ∧ outside_kept (targetDir ++ [DecodedSecretDirName]) s5 s')
    as [Hst' Hout].
  { destruct Hwalk as [[_ ->]|[_ Hwalk]]; [split; [done|by intros q _; left]|].
    split.
    - pose proof (fs_only_filepath_Walk store_kept Hemit Hput fuel
                    (projectDir ++ [SecretDirName]) targetDir opts
                    (emit (EvStat (projectDir ++ [SecretDirName])) s5).2) as H.
      rewrite Hwalk in H. exact H.
    - pose proof (Walk_keeps_outside fuel (projectDir ++ [SecretDirName]) targetDir opts
                    (emit (EvStat (projectDir ++ [SecretDirName])) s5).2) as H.
      rewrite Hwalk in H. exact H. }
  exists s1, s5. split_and!; [done|done| |done].
  destruct Hvalues as [[Hnone ->]|[Hsome Hset]].
  - left. subst s3. simpl in *. rewrite Hst'. simpl.
    split_and!; [|done|done]. by apply node_at_lookup.
  - right.
    assert (store s3 !! chart = Some c0) as Hc.
    { subst s3 chart. simpl. rewrite Hst1. by rewrite lookup_app_r, Nat.sub_diag. }
    destruct (write_values_effect chart (BySecretFile values (opt_Secret opts)) s3 s5 c0
                Hc Hset) as (m' & d & Hm & Hfs & Hd).
    destruct (write_values_ok chart (BySecretFile values (opt_Secret opts)) s3 s5 c0
                Hc Hset) as (Hst5 & _).
    exists m', d. subst s3. simpl in *. split_and!; [by apply node_at_lookup|done|done|].
    rewrite Hst', Hst5, Hst1. subst chart.
    rewrite insert_app_r_alt by done. rewrite Nat.sub_diag. done.
Qed.


(** The chart a successful [PrepareDappChart] returns is a fresh cell at
    the end of the store, with [targetDir] as its [ChartDir] and an empty
    [Set]; its [Values] are empty and the counter is 0, or they hold the
    one file [more-values/0.yaml] of the target and the counter is 1.  The
    second is the case exactly when the project has a [secret-values.yaml]
    (for a target apart from the project), and the file then holds the
    bytes of that file. *)
Theorem PrepareDappChart_chart fuel projectDir targetDir opts s chart s' :
  PrepareDappChart fuel projectDir targetDir opts s = (Ret (Some chart, None), s') →
  let file0 := values_file targetDir 0 in
  let values := projectDir ++ [DefaultSecretValuesFile] in
  chart = length (store s) ∧
  ∃ c, store s' = store s ++ [c] ∧ ChartDir c = targetDir ∧ Set_ c = [] ∧
       ((Values c = [] ∧ moreValuesCounter c = 0%N) ∨
        (Values c = [file0] ∧ moreValuesCounter c = 1%N ∧
         ∃ d, fs s' !! file0 = Some (File d) ∧
              (separate projectDir targetDir → fs s !! values = Some (File d)))) ∧
       (separate projectDir targetDir → (Values c = [] ↔ fs s !! values = None)).
Proof.
  intros Hrun file0 values.
  destruct (PrepareDappChart_result _ _ _ _ _ _ _ Hrun)
    as (s1 & s5 & Hchart & Hcopy & Hvalues & Hout).
  fold file0 values in Hvalues.
  set (tpl := targetDir ++ ["templates"; "_dapp_helpers.tpl"]) in *.
  assert (separate projectDir targetDir →
          <[tpl := File DappChartHelpersTpl]> (fs s1) !! values = fs s !! values) as Hsep.
  { intros Hsep.
    destruct (separate_not_below projectDir targetDir values Hsep) as [Hnt Hnv].
    { by apply prefix_app_r. }
    rewrite lookup_insert_ne.
    2:{ intros Heq. apply Hnt. rewrite <-Heq. by apply prefix_app_r. }
    assert (frame projectDir targetDir
              (new_chart {| ChartDir := targetDir; Values := []; Set_ := [];
                            moreValuesCounter := 0 |} s).2 s1) as [_ Hfs].
    { eapply preserves_ret_eq; [|exact Hcopy].
      apply preserves_copy_Copy.
      - intros q Hq. assert (projectDir `prefix_of` q).
        { etrans; [|exact Hq]. by apply prefix_app_r. }
        by repeat split.
      - intros q Hq. repeat split; simpl; auto.
      - pose proof (filepath_Dir_prefix targetDir). repeat split; simpl; auto. }
    destruct (Hfs values) as [?|[?|(?&_)]]; done. }
  split; [done|].
  destruct Hvalues as [(Hnone & _ & Hst)|(m' & d & Hsome & Hm & Hfs5 & Hst)].
  - eexists. split; [exact Hst|]. simpl. split_and!; [done|done|by left|].
    intros Hs. rewrite <-(Hsep Hs). done.
  - eexists. split; [exact Hst|]. simpl. split_and!; [done|done| |].
    + right. split_and!; [done|done|]. exists d. split.
      * eapply outside_kept_file; [exact Hout| |by rewrite Hfs5, lookup_insert_eq].
        unfold file0, values_file. by apply not_under_sibling.
      * intros Hs. by rewrite <-(Hsep Hs).
    + intros Hs. rewrite <-(Hsep Hs), Hsome. done.
Qed.

(** After a successful [PrepareDappChart] the file
    [templates/_dapp_helpers.tpl] of the target holds the built-in helpers
    template, whatever the project had under that name. *)
Theorem PrepareDappChart_helpers_template fuel projectDir targetDir opts s chart s' :
  PrepareDappChart fuel projectDir targetDir opts s = (Ret (Some chart, None), s') →
  fs s' !! (targetDir ++ ["templates"; "_dapp_helpers.tpl"])
  = Some (File DappChartHelpersTpl).
Proof.
  intros Hrun.
  destruct (PrepareDappChart_result _ _ _ _ _ _ _ Hrun)
    as (s1 & s5 & _ & _ & Hvalues & Hout).
  eapply outside_kept_file; [exact Hout|by apply not_under_sibling|].
  destruct Hvalues as [(_ & -> & _)|(m' & d & _ & Hm & -> & _)].
  - by rewrite lookup_insert_eq.
  - rewrite lookup_insert_ne.
    + eapply mkdir_all_keeps; [exact Hm|]. by rewrite lookup_insert_eq.
    + unfold values_file. intros H%app_inv_head. done.
Qed.


(** *** [GenerateDappChart] *)

Lemma string_app_inv_head (a b c : string) : a +:+ b = a +:+ c → b = c.
Proof.
  induction a as [|x a IH]; [done|]. intros H. apply IH.
  change (String x (a +:+ b) = String x (a +:+ c)) in H. by injection H.
Qed.

Lemma GenerateDappChart_eq fuel uuid projectDir opts :
  GenerateDappChart fuel uuid projectDir opts
  = PrepareDappChart fuel projectDir (dapp_GetTmpDir ++ ["dapp-chart-" +:+ uuid]) opts.
Proof.
  unfold GenerateDappChart. rewrite filepath_Join2.
  assert (fmt_Sprintf "dapp-chart-%s" [uuid] = "dapp-chart-" +:+ uuid) as ->; [|done].
  cbn [fmt_Sprintf Ascii.eqb Bool.eqb hd tl]. by rewrite string_app_nil_r.
Qed.

(** [GenerateDappChart] prepares the chart in the directory
    [dapp-chart-<uuid>] of the temporary directory: that is the [ChartDir]
    of the chart it returns, and whatever lies in the directory of another
    UUID -- an earlier chart -- is left as it was. *)
Theorem GenerateDappChart_own_directory fuel uuid other projectDir opts s :
  other ≠ uuid →
  let dir u := dapp_GetTmpDir ++ ["dapp-chart-" +:+ u] in
  let r := GenerateDappChart fuel uuid projectDir opts s in
  (∀ chart, r.1 = Ret (Some chart, None) →
            ∃ c, store r.2 !! chart = Some c ∧ ChartDir c = dir uuid) ∧
  (∀ q, dir other `prefix_of` q → fs r.2 !! q = fs s !! q).
Proof.
  intros Hne dir r. subst r. rewrite GenerateDappChart_eq. fold (dir uuid).
  assert (¬ dir other `prefix_of` dir uuid) as Hdir.
  { intros H%prefix_app_inv. apply prefix_cons_inv_1 in H.
    by apply string_app_inv_head in H. }
  assert (length (dir other) = length (dir uuid)) as Hlen.
  { unfold dir. by rewrite !length_app. }
  split.
  - intros chart Hret.
    destruct (PrepareDappChart fuel projectDir (dir uuid) opts s) as [st s'] eqn:Hrun.
    cbn [fst snd] in *. subst st.
    destruct (PrepareDappChart_result _ _ _ _ _ _ _ Hrun)
      as (s1 & s5 & -> & _ & [(_ & _ & Hst)|(m' & d & _ & _ & _ & Hst)] & _).
    all: eexists; rewrite Hst, lookup_app_r, Nat.sub_diag by done; by split.
  - intros q Hq.
    destruct (PrepareDappChart_frame fuel projectDir (dir uuid) opts s) as [_ Hfs].
    destruct (Hfs q) as [?|[Hu|(Hu&_)]]; [done|..].
    + destruct Hdir. destruct (prefix_weak_total _ _ _ Hq Hu) as [?|H]; [done|].
      apply prefix_length_eq in H; [|lia]. by rewrite H.
    + destruct Hdir. by etrans.
Qed.


(** *** The copy of the project's [.helm] directory *)

Global Instance copy_rel_preorder src dest : PreOrder (copy_rel src dest).
Proof.
  split.
  - intros s. split_and!; [reflexivity|done|done].
  - intros s1 s2 s3 (Hk1 & Hs1 & Hc1) (Hk2 & Hs2 & Hc2). split_and!.
    + by etrans.
    + intros q Hq. rewrite Hs2, Hs1 by done. done.
    + intros rel d Hsrc Hdest. apply Hc2; [|by apply Hc1].
      rewrite Hs1; [done|]. by apply prefix_app_r.
Qed.

Lemma separate_under (src dest k : path) :
  separate src dest → ¬ src `prefix_of` dest ++ k ∧ ¬ dest `prefix_of` src ++ k.
Proof.
  intros [H1 H2]. split; intros H.
  - destruct (prefix_weak_total src dest (dest ++ k)); [done|by apply prefix_app_r|done..].
  - destruct (prefix_weak_total dest src (src ++ k)); [done|by apply prefix_app_r|done..].
Qed.

Lemma copy_rel_emit src dest e : preserves (copy_rel src dest) (emit e).
Proof. intros s. split_and!; [apply emit_kinds_kept|done|done]. Qed.

Lemma copy_rel_mkdir src dest k p s m' :
  separate src dest → p `prefix_of` dest ++ k →
  mkdir_all (fs s) [] p = Some m' →
  copy_rel src dest s {| store := store s; fs := m'; trace := trace s |}.
Proof.
  intros Hsep Hp Hm. split_and!; simpl.
  - intros q. by eapply mkdir_all_same_kind.
  - intros q Hq. eapply mkdir_all_outside; [exact Hm|]. intros Hqp.
    destruct (separate_under src dest k Hsep) as [H _]. apply H.
    etrans; [exact Hq|]. by etrans.
  - intros rel d _ Hd. by eapply mkdir_all_keeps.
Qed.

Lemma copy_rel_os_MkdirAll src dest k p :
  separate src dest → p `prefix_of` dest ++ k →
  preserves (copy_rel src dest) (os_MkdirAll p).
Proof.
  intros Hsep Hp s. unfold os_MkdirAll, mbind, M_bind, get_fs. simpl.
  destruct (mkdir_all (fs s) [] p) as [m'|] eqn:Hm; simpl.
  - etrans; [apply (copy_rel_emit src dest (EvMkdirAll p))|].
    by apply (copy_rel_mkdir src dest k p (emit (EvMkdirAll p) s).2).
  - apply (copy_rel_emit src dest (EvMkdirAll p)).
Qed.

Lemma copy_rel_ioutil_ReadDir src dest name :
  preserves (copy_rel src dest) (ioutil_ReadDir name).
Proof.
  unfold ioutil_ReadDir.
  apply preserves_bind; [apply _|apply copy_rel_emit|intros _].
  apply preserves_bind; [apply _|apply preserves_get_fs, _|intros m].
  repeat case_match; apply preserves_ret, _.
Qed.


(** The copy of one regular file, outcome by outcome. *)
Lemma fcopy_run fuel cs cd info s :
  IsDir info = false → cd ≠ [] → cs ≠ [] → cs ≠ cd →
  let r := copy_copy (S fuel) cs cd info s in
  (fs r.2 = fs s ∧ r.1 ≠ Ret None) ∨
  ∃ m1, mkdir_all (fs s) [] (filepath_Dir cd) = Some m1 ∧
    ((fs r.2 = m1 ∧ r.1 ≠ Ret None) ∨
     (m1 !! cd ≠ Some Dir ∧
      ((∃ d, m1 !! cs = Some (File d) ∧ fs r.2 = <[cd := File d]> m1) ∨
       ((∀ d, m1 !! cs ≠ Some (File d)) ∧ fs r.2 = <[cd := File []]> m1 ∧
        r.1 ≠ Ret None)))).
Proof.
  intros Hi Hcd Hcs Hne r. subst r. simpl. rewrite Hi.
  unfold os_MkdirAll, os_Create, ioutil_ReadFile, File_Write, emit, get_fs, put_fs,
    mbind, M_bind, mret, M_ret.
  simpl.
  destruct (mkdir_all (fs s) [] (filepath_Dir cd)) as [m1|] eqn:Hm; simpl; [|by left].
  right. exists m1. split; [done|].
  destruct (open_for_write m1 cd) as [e|] eqn:Hopen; simpl; [by left|].
  right. split.
  { apply open_for_write_not_dir in Hopen. intros H. apply Hopen.
    unfold node_at. by destruct cd. }
  assert (node_at (<[cd:=File []]> m1) cs = m1 !! cs) as ->.
  { unfold node_at. destruct cs; [done|]. by rewrite lookup_insert_ne. }
  destruct (m1 !! cs) as [[d|]|] eqn:Hsrc; simpl.
  - left. exists d. split; [done|].
    unfold node_at. destruct cd as [|c0 cd']; [done|].
    rewrite lookup_insert_eq. simpl. by rewrite insert_insert_eq.
  - right. split_and!; [done|done|done].
  - right. split_and!; [done|done|done].
Qed.


Lemma copy_rel_copy_copy src dest fuel k info :
  separate src dest →
  preserves (copy_rel src dest) (copy_copy fuel (src ++ k) (dest ++ k) info).
Proof.
  intros Hsep. revert k info. induction fuel as [|fuel IH]; intros k info.
  { apply preserves_out_of_fuel, _. }
  destruct (separate_under src dest k Hsep) as [Hsd Hds].
  assert (dest ++ k ≠ []) as Hcd.
  { intros H. destruct Hsep as [_ Hd]. apply Hd.
    apply app_eq_nil in H as [-> _]. apply prefix_nil. }
  assert (src ++ k ≠ []) as Hcs.
  { intros H. destruct Hsep as [Hs _]. apply Hs.
    apply app_eq_nil in H as [-> _]. apply prefix_nil. }
  assert (src ++ k ≠ dest ++ k) as Hne.
  { intros H. apply Hsd. rewrite <-H. by apply prefix_app_r. }
  destruct (IsDir info) eqn:Hi.
  - simpl. rewrite Hi.
    apply preserves_bind; [apply _|by apply (copy_rel_os_MkdirAll src dest k)|intros [e|]].
    { apply preserves_ret, _. }
    apply preserves_bind; [apply _|apply copy_rel_ioutil_ReadDir|intros [contents [e|]]].
    { apply preserves_ret, _. }
    apply preserves_for_range; [apply _|]. intros content _.
    rewrite !filepath_Join2, <-!app_assoc. apply IH.
  - intros s.
    pose proof (fcopy_run fuel (src ++ k) (dest ++ k) info s Hi Hcd Hcs Hne) as Hrun.
    cbv zeta in Hrun.
    set (r := copy_copy (S fuel) (src ++ k) (dest ++ k) info s) in *. clearbody r.
    destruct Hrun as [[Hfs _]|(m1 & Hm & [[Hfs _]|(Hdir & Hcase)])].
    + split_and!.
      * intros q. rewrite Hfs. apply same_kind_refl.
      * intros q _. by rewrite Hfs.
      * intros rel d _ Hd. by rewrite Hfs.
    + pose proof (copy_rel_mkdir src dest k (filepath_Dir (dest ++ k)) s m1 Hsep
                    (filepath_Dir_prefix _) Hm) as (Hk & Hs & Hc). simpl in *.
      split_and!.
      * intros q. rewrite Hfs. apply Hk.
      * intros q Hq. rewrite Hfs. by apply Hs.
      * intros rel d Hd1 Hd2. rewrite Hfs. by apply Hc.
    + pose proof (copy_rel_mkdir src dest k (filepath_Dir (dest ++ k)) s m1 Hsep
                    (filepath_Dir_prefix _) Hm) as (Hk & Hs & Hc). simpl in *.
      assert (∃ x, fs r.2 = <[dest ++ k := File x]> m1 ∧
                   ∀ d, m1 !! (src ++ k) = Some (File d) → x = d) as (x & Hfs & Hx).
      { destruct Hcase as [(d & Hd & Hfs)|(Hnot & Hfs & _)].
        - exists d. split; [done|]. intros d' Hd'. congruence.
        - exists []. split; [done|]. intros d' Hd'. by destruct (Hnot d'). }
      split_and!.
      * intros q. rewrite Hfs. destruct (decide (q = dest ++ k)) as [->|Hq].
        -- rewrite lookup_insert_eq. specialize (Hk (dest ++ k)). unfold same_kind in *.
           destruct (fs s !! (dest ++ k)) as [[d|]|]; [by eexists|done|done].
        -- rewrite lookup_insert_ne by done. apply Hk.
      * intros q Hq. rewrite Hfs, lookup_insert_ne; [by apply Hs|].
        intros Heq. subst q. by apply Hsd in Hq.
      * intros rel d Hd1 Hd2. rewrite Hfs.
        destruct (decide (dest ++ rel = dest ++ k)) as [Heq|Hq].
        -- rewrite Heq, lookup_insert_eq. apply app_inv_head in Heq as ->.
           f_equal. f_equal. apply Hx. rewrite Hs; [done|]. by apply prefix_app_r.
        -- rewrite lookup_insert_ne by done. by apply Hc.
Qed.

Lemma path_rel_Some (dir p r : path) : path_rel dir p = Some r → p = dir ++ r.
Proof.
  revert p. induction dir as [|x dir IH]; intros p; simpl.
  - by intros [= ->].
  - destruct p as [|y p]; [done|]. case_decide; [|done]. subst y.
    intros H. by rewrite (IH _ H).
Qed.

(** Every entry [ioutil.ReadDir] lists describes the node of that name. *)
Lemma entries_elem_of (m : gmap path node) (dir : path) (x : FileInfo) :
  x ∈ entries m dir →
  ∃ n, m !! (dir ++ [Name x]) = Some n ∧ (IsDir x = true ↔ n = Dir).
Proof.
  unfold entries. rewrite merge_sort_Permutation.
  intros ([p n] & Hin & Hx)%list_elem_of_omap.
  apply elem_of_map_to_list in Hin. unfold entry_of in Hx. simpl in Hx.
  destruct (path_rel dir p) as [[|c [|??]]|] eqn:Hrel; try done.
  injection Hx as <-. apply path_rel_Some in Hrel as ->.
  exists n. simpl. rewrite last_snoc. simpl. split; [done|].
  destruct n; split; congruence.
Qed.


Lemma ioutil_ReadDir_dir name s :
  node_at (fs s) name = Some Dir →
  ioutil_ReadDir name s = (Ret (entries (fs s) name, None), (emit (EvReadDir name) s).2).
Proof.
  intros Hd. unfold ioutil_ReadDir, emit, get_fs, mbind, M_bind, mret, M_ret. simpl.
  by rewrite Hd.
Qed.

(** A copy that succeeds has copied every regular file below its
    source. *)
Lemma copy_copy_visits src dest fuel k info s s' rel d :
  separate src dest →
  info_matches info (fs s) (src ++ k) →
  copy_copy fuel (src ++ k) (dest ++ k) info s = (Ret None, s') →
  file_below (fs s) (src ++ k) rel →
  fs s !! (src ++ k ++ rel) = Some (File d) →
  fs s' !! (dest ++ k ++ rel) = Some (File d).
Proof.
  intros Hsep. revert k info s s' rel.
  induction fuel as [|fuel IH]; intros k info s s' rel Hinfo Hrun Hrel Hd; [done|].
  destruct (separate_under src dest k Hsep) as [Hsd Hds].
  assert (dest ++ k ≠ []) as Hcd.
  { intros H. destruct Hsep as [_ Hx]. apply Hx.
    apply app_eq_nil in H as [-> _]. apply prefix_nil. }
  assert (src ++ k ≠ []) as Hcs.
  { intros H. destruct Hsep as [Hx _]. apply Hx.
    apply app_eq_nil in H as [-> _]. apply prefix_nil. }
  assert (src ++ k ≠ dest ++ k) as Hne.
  { intros H. apply Hsd. rewrite <-H. by apply prefix_app_r. }
  assert (∀ q, q ≠ [] → node_at (fs s) q = fs s !! q) as Hnode.
  { intros q Hq. unfold node_at. by destruct q. }
  destruct (IsDir info) eqn:Hi.
  - (* a directory *)
    assert (fs s !! (src ++ k) = Some Dir) as Hdir.
    { rewrite <-Hnode by done. by apply Hinfo. }
    destruct rel as [|n rel].
    { rewrite app_nil_r in Hd. congruence. }
    apply file_below_cons in Hrel as [_ Hrel].
    simpl in Hrun. rewrite Hi in Hrun.
    apply bind_inv in Hrun as ([e|] & s1 & Hmk & Hrun); [by inversion Hrun|].
    assert (copy_rel src dest s s1) as H01.
    { eapply preserves_ret_eq; [|exact Hmk]. by apply (copy_rel_os_MkdirAll src dest k). }
    apply bind_inv in Hrun as ([contents [e|]] & s2 & Hrd & Hrun); [by inversion Hrun|].
    assert (copy_rel src dest s1 s2) as H12.
    { eapply preserves_ret_eq; [|exact Hrd]. apply copy_rel_ioutil_ReadDir. }
    assert (∀ q, q ≠ [] → node_at (fs s1) q = fs s1 !! q) as Hnode1'.
    { intros q Hq. unfold node_at. by destruct q. }
    assert (node_at (fs s1) (src ++ k) = Some Dir) as Hnode1.
    { rewrite Hnode1' by done. destruct H01 as (_ & Hs & _). rewrite Hs; [done|]. by apply prefix_app_r. }
    assert (fs s1 !! (src ++ k) = Some Dir) as Hdir1.
    { destruct H01 as (_ & Hs & _). rewrite Hs; [done|]. by apply prefix_app_r. }
    rewrite ioutil_ReadDir_dir in Hrd by exact Hnode1.
    injection Hrd as <- <-.
    assert (∃ x, fs s !! ((src ++ k) ++ [n]) = Some x) as [x Hx].
    { destruct rel as [|n' rel].
      - apply file_below_nil in Hrel as [d' Hd']. exists (File d').
        rewrite <-Hnode; [done|]. by destruct (src ++ k).
      - apply file_below_cons in Hrel as [Hdn _]. exists Dir.
        rewrite <-Hnode; [done|]. by destruct (src ++ k). }
    assert (fs s1 !! ((src ++ k) ++ [n]) = Some x) as Hx1.
    { destruct H01 as (_ & Hs & _). rewrite Hs; [done|].
      rewrite <-app_assoc. by apply prefix_app_r. }
    pose proof (elem_of_entries _ _ _ _ Hx1) as Hn.
    apply list_elem_of_fmap in Hn as (content & Hname & Hcontent).
    pose proof (λ Hb, for_range_visits (copy_rel src dest) _ _ content _ _
                        Hb Hrun Hcontent) as Hv.
    destruct Hv as (sa & sb & H2a & Hbody & Hbs).
    { intros y. rewrite !filepath_Join2, <-!app_assoc. by apply copy_rel_copy_copy. }
    rewrite !filepath_Join2, <-!app_assoc, <-Hname in Hbody.
    assert (copy_rel src dest s sa) as H0a.
    { etrans; [exact H01|]. etrans; [|exact H2a].
      apply (copy_rel_emit src dest (EvReadDir (src ++ k))). }
    destruct H0a as (Hka & Hsa & _).
    assert (fs sb !! (dest ++ (k ++ [n]) ++ rel) = Some (File d)) as Hsb.
    { apply (IH (k ++ [n]) content sa sb rel).
      - destruct (entries_elem_of _ _ _ Hcontent) as (nd & Hnd & Hiff).
        rewrite <-Hname in Hnd. unfold info_matches.
        rewrite app_assoc, node_at_nonempty.
        rewrite Hsa by (rewrite <-app_assoc; by apply prefix_app_r).
        destruct H01 as (_ & Hs01 & _).
        rewrite <-Hs01, Hnd by (rewrite <-app_assoc; by apply prefix_app_r).
        rewrite Hiff. split; congruence.
      - exact Hbody.
      - rewrite app_assoc. eapply file_below_kinds_kept; [exact Hka|done].
      - rewrite Hsa by (by apply prefix_app_r). by rewrite <-app_assoc. }
    destruct Hbs as (_ & _ & Hc).
    specialize (Hc (k ++ n :: rel) d).
    rewrite <-!app_assoc in Hsb. simpl in Hsb. apply Hc; [|done].
    pose proof (copy_rel_copy_copy src dest fuel (k ++ [n]) content Hsep sa) as (_ & Hs' & _).
    rewrite Hbody in Hs'. simpl in Hs'.
    rewrite Hs', Hsa by (by apply prefix_app_r). done.
  - (* a regular file *)
    destruct rel as [|n rel].
    2:{ apply file_below_cons in Hrel as [Hdn _]. apply Hinfo in Hdn. congruence. }
    rewrite app_nil_r in *.
    pose proof (fcopy_run fuel (src ++ k) (dest ++ k) info s Hi Hcd Hcs Hne) as Hcase.
    cbv zeta in Hcase. rewrite Hrun in Hcase. simpl in Hcase.
    destruct Hcase as [[_ ?]|(m1 & Hm & [[_ ?]|(_ & [(d' & Hd' & ->)|(_ & _ & ?)])])];
      try done.
    rewrite lookup_insert_eq. rewrite (mkdir_all_keeps _ _ _ _ _ _ Hm Hd) in Hd'.
    congruence.
Qed.

(** After a successful [PrepareDappChart] on a tree-shaped file system,
    with the target apart from the project's [.helm] directory, every
    regular file [.helm/rel] of the project is in the target as
    [targetDir/rel] with the content it had -- except the helpers template
    [templates/_dapp_helpers.tpl], the values file [more-values/0.yaml] and
    what lies under [decoded-secret], which the later steps of the call
    write themselves. *)
Theorem PrepareDappChart_copies_helm fuel projectDir targetDir opts s chart s' rel d :
  tree_shaped (fs s) →
  separate (projectDir ++ [".helm"]) targetDir →
  PrepareDappChart fuel projectDir targetDir opts s = (Ret (Some chart, None), s') →
  fs s !! (projectDir ++ [".helm"] ++ rel) = Some (File d) →
  rel ≠ ["templates"; "_dapp_helpers.tpl"] →
  rel ≠ [MoreValuesDirName; "0.yaml"] →
  ¬ [DecodedSecretDirName] `prefix_of` rel →
  fs s' !! (targetDir ++ rel) = Some (File d).
Proof.
  intros Htree Hsep Hrun Hd Htpl Hval Hdec.
  destruct (PrepareDappChart_result _ _ _ _ _ _ _ Hrun)
    as (s1 & s5 & _ & Hcopy & Hvalues & Hout).
  set (src := projectDir ++ [".helm"]) in *.
  assert (file_below (fs s) src rel) as Hbelow.
  { apply (tree_shaped_file_below _ _ _ d); [done|].
    rewrite <-Hd. unfold src. rewrite <-app_assoc. by destruct projectDir. }
  assert (∃ n, node_at (fs s) src = Some n) as [n Hn].
  { destruct rel as [|x rel].
    - apply file_below_nil in Hbelow as [d' ?]. by eexists.
    - apply file_below_cons in Hbelow as [? _]. by eexists. }
  assert (fs s1 !! (targetDir ++ rel) = Some (File d)) as H1.
  { unfold copy_Copy in Hcopy.
    apply bind_inv in Hcopy as (r & sa & Hstat & Hcopy).
    rewrite os_Stat_eq in Hstat. simpl in Hstat. rewrite Hn in Hstat.
    injection Hstat as <- <-.
    match type of Hcopy with copy_copy _ _ _ _ ?s0 = _ =>
      pose proof (copy_copy_visits src targetDir fuel [] (info_of src n) s0 s1 rel d Hsep)
        as Hv end.
    rewrite !app_nil_r in Hv. simpl in Hv. apply Hv; try done.
    - unfold info_matches. rewrite Hn. destruct n; split; done.
    - unfold src. by rewrite <-app_assoc. }
  eapply outside_kept_file; [exact Hout| |].
  { intros H%prefix_app_inv. done. }
  assert (<[targetDir ++ ["templates"; "_dapp_helpers.tpl"] := File DappChartHelpersTpl]>
            (fs s1) !! (targetDir ++ rel) = Some (File d)) as H2.
  { rewrite lookup_insert_ne; [done|]. intros H%app_inv_head. by subst rel. }
  destruct Hvalues as [(_ & -> & _)|(m' & d' & _ & Hm & -> & _)]; [done|].
  rewrite lookup_insert_ne.
  - eapply mkdir_all_keeps; [exact Hm|exact H2].
  - unfold values_file. intros H%app_inv_head. by subst rel.
Qed.


(** *** A nil secret *)

Global Instance events_ok_preorder ok : PreOrder (events_ok ok).
Proof.
  split.
  - intros s. exists []. by rewrite app_nil_r.
  - intros s1 s2 s3 (n1&Ht1&Hn1) (n2&Ht2&Hn2).
    exists (n1 ++ n2). rewrite Ht2, Ht1, <-app_assoc. split; [done|].
    by apply Forall_app.
Qed.

Global Instance events_ok_discipline ok :
  Discipline ok (λ _, True) (λ _, True) (events_ok ok).
Proof.
  split; [apply _|..].
  - intros e s He. exists [e]. split; [done|]. by apply Forall_singleton.
  - intros p m' s _ _. exists []. by rewrite app_nil_r.
  - intros p d s _ _. exists []. by rewrite app_nil_r.
  - intros c s. exists []. by rewrite app_nil_r.
  - intros chart c c' s _ _. exists []. by rewrite app_nil_r.
Qed.

Section Listing.
Context {ok : event → Prop} {mk wr : path → Prop} {R : relation State}.
Context `{!Discipline ok mk wr R}.

(** [filepath.Walk] itself stats and lists; it reads no file. *)
Lemma preserves_walk_listing fuel root p info (walkFn : WalkFunc) :
  (∀ q, root `prefix_of` q → ok (EvStat q) ∧ ok (EvReadDir q)) →
  (∀ q i e, root `prefix_of` q → preserves R (walkFn q i e)) →
  root `prefix_of` p →
  preserves R (walk fuel p info walkFn).
Proof.
  intros Hrd Hfn. revert p info. induction fuel as [|fuel IH]; intros p info Hp.
  { apply preserves_out_of_fuel, _. }
  simpl. destruct (Hrd p) as (?&?); [done|].
  destruct (negb (IsDir info)); [by apply Hfn|].
  apply preserves_bind; [apply _|by apply preserves_readDirNames|intros [names err]].
  apply preserves_bind; [apply _|by apply Hfn|intros err1].
  destruct (_ || _); [apply preserves_ret, _|].
  apply preserves_for_range; [apply _|]. intros name _.
  rewrite filepath_Join2.
  assert (root `prefix_of` p ++ [name]) as Hpn.
  { etrans; [exact Hp|]. by apply prefix_app_r. }
  destruct (Hrd _ Hpn) as (?&?).
  apply preserves_bind; [apply _|by apply preserves_os_Stat|intros [fileInfo [e|]]].
  - apply preserves_bind; [apply _|by apply Hfn|intros err'].
    destruct (_ && _); apply preserves_ret, _.
  - destruct fileInfo as [fileInfo|]; [|apply preserves_panic, _].
    apply preserves_bind; [apply _|by apply IH|intros err'].
    repeat case_match; apply preserves_ret, _.
Qed.

Lemma preserves_filepath_Walk_listing fuel root (walkFn : WalkFunc) :
  (∀ q, root `prefix_of` q → ok (EvStat q) ∧ ok (EvReadDir q)) →
  (∀ q i e, root `prefix_of` q → preserves R (walkFn q i e)) →
  preserves R (filepath_Walk fuel root walkFn).
Proof.
  intros Hrd Hfn. unfold filepath_Walk.
  destruct (Hrd root) as (?&?); [done|].
  apply preserves_bind; [apply _|by apply preserves_os_Stat|intros [info [e|]]].
  - apply preserves_bind; [apply _|by apply Hfn|intros err].
    case_match; apply preserves_ret, _.
  - apply preserves_bind; [apply _| |intros err; case_match; apply preserves_ret, _].
    destruct info; [by apply (preserves_walk_listing _ root)|apply preserves_panic, _].
Qed.

(** With a nil secret the callback makes directories and writes, and
    that is all. *)
Lemma preserves_decode_walkFn_nil secretDir targetDir opts p info err :
  opt_Secret opts = None →
  (∀ q, targetDir `prefix_of` q → writes_ok ok mk wr q) →
  preserves R (decode_walkFn secretDir targetDir opts p info err).
Proof.
  intros Hnil Hwr. unfold decode_walkFn.
  destruct err as [e|]; [apply preserves_ret, _|].
  destruct info as [info|]; [|apply preserves_panic, _].
  destruct (IsDir info); [apply preserves_ret, _|].
  destruct (decoded_path_under targetDir (strings_TrimPrefix p secretDir)) as [Hnew Hdir].
  destruct (Hwr _ Hnew) as (_&?&_&_&?).
  destruct (Hwr _ Hdir) as ((?&?)&_).
  rewrite bool_decide_eq_true_2 by done.
  apply preserves_bind; [apply _|by apply preserves_os_MkdirAll|intros [e|]].
  { apply preserves_ret, _. }
  apply preserves_bind; [apply _|by apply preserves_ioutil_WriteFile|intros [e|]];
    apply preserves_ret, _.
Qed.

Lemma preserves_PrepareDappChart_nil fuel projectDir targetDir opts :
  opt_Secret opts = None →
  (∀ s s', R s s' → chartdirs_kept s s') →
  (∀ q, projectDir ++ [".helm"] `prefix_of` q → reads_ok ok q) →
  ok (EvStat (projectDir ++ [DefaultSecretValuesFile])) →
  (∀ got, ok (EvReadFile (projectDir ++ [DefaultSecretValuesFile]) got)) →
  (∀ q, projectDir ++ [SecretDirName] `prefix_of` q → ok (EvStat q) ∧ ok (EvReadDir q)) →
  (∀ q, targetDir `prefix_of` q → writes_ok ok mk wr q) →
  mkdir_ok ok mk (filepath_Dir targetDir) →
  preserves R (PrepareDappChart fuel projectDir targetDir opts).
Proof.
  intros Hnil HR Hhelm Hstat Hread Hsecret Hwr Hdir. unfold PrepareDappChart.
  assert (∀ a, writes_ok ok mk wr (targetDir ++ a)) as Hwr'.
  { intros a. apply Hwr. by apply prefix_app_r. }
  apply preserves_bind_new_chart. intros dappChart. simpl ChartDir.
  assert (∀ s s', chart_at dappChart targetDir s → R s s' →
                  chart_at dappChart targetDir s') as HI.
  { intros s s' (c&Hc&<-) Hss. destruct (HR _ _ Hss _ _ Hc) as (c'&?&?). by exists c'. }
  rewrite !filepath_Join2.
  apply preserves_on_bind; [done| |intros [e|]].
  { by apply preserves_copy_Copy. }
  { apply preserves_on_weaken, preserves_ret, _. }
  destruct (Hwr' ["templates"; "_dapp_helpers.tpl"]) as (_&?&?&?&_).
  eapply preserves_on_bind_returns;
    [done|by apply preserves_os_Create|apply os_Create_returns|].
  intros [f [e|]] Hf; [apply preserves_on_weaken, preserves_ret, _|].
  destruct Hf as [[= ->]|[e [=]]].
  apply preserves_on_bind; [done|by apply preserves_File_Write|intros [n [e|]]].
  { apply preserves_on_weaken, preserves_ret, _. }
  apply preserves_on_bind; [done|by apply preserves_os_Stat|intros [i1 err1]].
  intros s Hs. unfold mbind at 1, M_bind at 1.
  match goal with |- context [(if negb ?b then ?m else ?m') s] =>
    assert (R s ((if negb b then m else m') s).2) as Hstep end.
  { destruct (negb _); [|reflexivity].
    by apply (preserves_on_SetSecretValuesFile _ targetDir). }
  match type of Hstep with R _ (?x).2 => destruct x as [[[e|]| |] s1] end;
    simpl in *; try done.
  etrans; [exact Hstep|]. generalize s1.
  destruct (Hsecret (projectDir ++ [SecretDirName]) (reflexivity _)) as (?&?).
  apply preserves_bind; [apply _|by apply preserves_os_Stat|intros [i2 err2]].
  apply preserves_bind; [apply _| |intros [e|]; apply preserves_ret, _].
  destruct (negb _); [|apply preserves_ret, _].
  apply preserves_filepath_Walk_listing; [done|].
  intros q i e Hq. by apply preserves_decode_walkFn_nil.
Qed.
End Listing.

(** With a nil secret [PrepareDappChart] reads the content of no file but
    those of the project's [.helm] directory and its [secret-values.yaml]:
    on every run, however it ends, the files of the [secret] directory are
    listed but never read. *)
Theorem PrepareDappChart_nil_secret_reads fuel projectDir targetDir opts s :
  opt_Secret opts = None →
  ∃ new,
    trace (PrepareDappChart fuel projectDir targetDir opts s).2 = trace s ++ new ∧
    ∀ q got, EvReadFile q got ∈ new →
      ((projectDir ++ [".helm"]) `prefix_of` q ∨
       q = projectDir ++ [DefaultSecretValuesFile]) ∧
      ¬ (projectDir ++ [SecretDirName]) `prefix_of` q.
Proof.
  intros Hnil.
  assert (events_ok (reads_chart_only projectDir) s
            (PrepareDappChart fuel projectDir targetDir opts s).2
          ∧ chartdirs_kept s (PrepareDappChart fuel projectDir targetDir opts s).2)
    as [(new & Htrace & Hnew) _].
  { apply (preserves_PrepareDappChart_nil
             (R := λ s s', events_ok (reads_chart_only projectDir) s s' ∧
                           chartdirs_kept s s')).
    - done.
    - by intros ?? [_ ?].
    - intros q Hq. repeat split; simpl; auto.
    - by split.
    - intros got. split; [|done]. simpl. by right.
    - intros q _. by repeat split.
    - intros q _. by repeat split.
    - by repeat split. }
  exists new. split; [done|]. intros q got Hq.
  rewrite Forall_forall in Hnew. specialize (Hnew _ Hq). simpl in Hnew.
  split; [done|]. intros Hs. destruct Hnew as [Hh| ->].
  - destruct (prefix_weak_total _ _ _ Hh Hs) as [H|H];
      apply prefix_app_inv in H; by apply prefix_cons_inv_1 in H.
  - apply prefix_app_inv in Hs. by apply prefix_cons_inv_1 in Hs.
Qed.


(** [PrepareDappChart] removes nothing: on every run, however it ends,
    whatever was in the file system before -- in the project, in the
    target or elsewhere -- is still there, a directory as a directory and
    a regular file as a regular file (its content may have been
    replaced). *)
Theorem PrepareDappChart_removes_nothing fuel projectDir targetDir opts s q n :
  fs s !! q = Some n →
  ∃ n', fs (PrepareDappChart fuel projectDir targetDir opts s).2 !! q = Some n' ∧
        (n' = Dir ↔ n = Dir).
Proof.
  intros Hq.
  assert (kinds_kept s (PrepareDappChart fuel projectDir targetDir opts s).2
          ∧ chartdirs_kept s (PrepareDappChart fuel projectDir targetDir opts s).2)
    as [Hk _].
  { apply (preserves_PrepareDappChart (R := λ s s', kinds_kept s s' ∧ chartdirs_kept s s')).
    - by intros ?? [_ ?].
    - intros q' _. by repeat split.
    - intros q' _. by repeat split.
    - by repeat split. }
  specialize (Hk q). rewrite Hq in Hk. destruct n as [d|]; simpl in Hk.
  - destruct Hk as [d' Hd']. exists (File d'). split; [done|]. split; intros [=].
  - exists Dir. by split.
Qed.


End Package.

(** ** Concrete runs *)

(** A small project: a chart with one template, default secret values and
    two secret files. *)
Definition sample_fs : gmap path node :=
  list_to_map
    [ (["proj"], Dir);
      (["proj"; ".helm"], Dir);
      (["proj"; ".helm"; "Chart.yaml"], File (String.list_byte_of_string "name: app"));
      (["proj"; ".helm"; "templates"], Dir);
      (["proj"; ".helm"; "templates"; "pod.yaml"], File (String.list_byte_of_string "kind: Pod"));
      (["proj"; "secret-values.yaml"], File (String.list_byte_of_string "key: value"));
      (["proj"; "secret"], Dir);
      (["proj"; "secret"; "key"], File ["0"; "0"; "1"; "1"; " "; " "; "010"]%byte);
      (["proj"; "secret"; "sub"], Dir);
      (["proj"; "secret"; "sub"; "cert"], File ["a"; "b"; "194"; "160"]%byte) ].

Definition sample_state : State := {| store := []; fs := sample_fs; trace := [] |}.

Definition sample_tpl : bytes := String.list_byte_of_string "{{- define x -}}".

Definition sample_chart : DappChart :=
  {| ChartDir := ["chart"]; Values := [["base.yaml"]]; Set_ := ["a=b"];
     moreValuesCounter := 7 |}.

(** The same chart in a file system where [chart/more-values] is a file. *)
Definition blocked_state : State :=
  {| store := [sample_chart];
     fs := list_to_map [ (["chart"], Dir); (["chart"; "more-values"], File []) ];
     trace := [] |}.

Definition open_state : State :=
  {| store := [sample_chart; sample_chart];
     fs := list_to_map [ (["chart"], Dir); (["sv.yaml"], File ["x"]%byte) ];
     trace := [] |}.

Definition sample_yaml (values : list (string * string)) : bytes * option error :=
  (String.list_byte_of_string (String.concat "," (fst <$> values)), None).

Definition sample_GoString (values : list (string * string)) : string :=
  String.concat "," (fst <$> values).

Definition sample_helm (chartDir : path) (releaseName namespace : string)
    (opts : HelmChartOptions) (m : gmap path node) : option error * gmap path node :=
  (None, m).

(** A computable check for [tree_shaped]. *)
Definition tree_shaped_check (m : gmap path node) : bool :=
  forallb (λ kv : path * node,
             match node_at m (filepath_Dir kv.1) with
             | Some Dir => true
             | _ => false
             end) (map_to_list m).

Lemma tree_shaped_check_ok m : tree_shaped_check m = true → tree_shaped m.
Proof.
  unfold tree_shaped_check. rewrite forallb_forall. intros H p n x Hx.
  specialize (H (p ++ [n], x)). simpl in H. rewrite filepath_Dir_snoc in H.
  destruct (node_at m p) as [[?|]|]; [| done |].
  - discriminate H. apply list_elem_of_In. by apply elem_of_map_to_list.
  - discriminate H. apply list_elem_of_In. by apply elem_of_map_to_list.
Qed.

Lemma PrepareDappChart_frame_witness :
  separate ["proj"] ["tmp"; "chart"] ∧
  fs (PrepareDappChart (Secret := unit) sample_tpl 10 ["proj"] ["tmp"; "chart"]
        {| opt_Secret := None |} sample_state).2 !! ["proj"; "secret"; "key"]
    = fs sample_state !! ["proj"; "secret"; "key"].
Proof.
  assert (separate ["proj"] ["tmp"; "chart"]) as Hsep.
  { split; intros [k Hk]; discriminate. }
  split; [exact Hsep|].
  apply (PrepareDappChart_reads_project_writes_target (Secret := unit)
           sample_tpl 10 ["proj"] ["tmp"; "chart"] {| opt_Secret := None |} sample_state).
  - exact Hsep.
  - by exists ["secret"; "key"].
Defined.

(** C2 as stated fails when the target lies inside the project: the helpers
    template is then created below [projectDir]. *)
Lemma PrepareDappChart_target_inside_project :
  ¬ (∀ q, ["proj"] `prefix_of` q →
          fs (PrepareDappChart (Secret := unit) sample_tpl 10 ["proj"] ["proj"; "out"]
                {| opt_Secret := None |} sample_state).2 !! q
          = fs sample_state !! q).
Proof.
  intros H.
  specialize (H ["proj"; "out"; "templates"; "_dapp_helpers.tpl"]
                (ex_intro _ ["out"; "templates"; "_dapp_helpers.tpl"] eq_refl)).
  vm_compute in H. discriminate H.
Qed.

Lemma PrepareDappChart_decodes_witness :
  fs (PrepareDappChart (Secret := unit) sample_tpl 10 ["proj"] ["tmp"; "chart"]
        {| opt_Secret := Some tt |} sample_state).2
     !! ["tmp"; "chart"; "decoded-secret"; "key"]
  = Some (File ["0"; "0"; "1"; "1"]%byte).
Proof.
  assert (separate (["proj"] ++ [SecretDirName]) ["tmp"; "chart"]) as Hsep.
  { split; intros [k Hk]; discriminate. }
  assert (tree_shaped (fs sample_state)) as Htree.
  { apply tree_shaped_check_ok. vm_compute. reflexivity. }
  assert (PrepareDappChart (Secret := unit) sample_tpl 10 ["proj"] ["tmp"; "chart"]
            {| opt_Secret := Some tt |} sample_state
          = (Ret (Some 0, None),
             (PrepareDappChart (Secret := unit) sample_tpl 10 ["proj"] ["tmp"; "chart"]
                {| opt_Secret := Some tt |} sample_state).2)) as Hrun.
  { vm_compute. reflexivity. }
  assert (fs sample_state !! (["proj"] ++ [SecretDirName] ++ ["key"])
          = Some (File ["0"; "0"; "1"; "1"; " "; " "; "010"]%byte)) as Hd.
  { vm_compute. reflexivity. }
  pose proof (PrepareDappChart_decodes_secret_files (Secret := unit)
                sample_tpl 10 ["proj"] ["tmp"; "chart"] {| opt_Secret := Some tt |}
                sample_state 0 _ ["key"] _ Htree Hrun Hd) as H.
  cbv beta iota zeta delta [opt_Secret] in H. destruct H as [_ H]. exact (H Hsep).
Defined.

Lemma values_writes_witness :
  store (for_range [ByValues [("replicas", "2")]; BySecretFile ["sv.yaml"] (None : option unit)]
           (write_values sample_yaml sample_GoString 0) open_state).2 !! 0
  = Some {| ChartDir := ["chart"];
            Values := [["base.yaml"];
                       ["chart"; "more-values"; "7.yaml"];
                       ["chart"; "more-values"; "8.yaml"]];
            Set_ := ["a=b"];
            moreValuesCounter := 9 |}.
Proof.
  assert (store open_state !! 0 = Some sample_chart) as Hc by reflexivity.
  assert (for_range [ByValues [("replicas", "2")];
                     BySecretFile ["sv.yaml"] (None : option unit)]
            (write_values sample_yaml sample_GoString 0) open_state
          = (Ret None,
             (for_range [ByValues [("replicas", "2")];
                         BySecretFile ["sv.yaml"] (None : option unit)]
                (write_values sample_yaml sample_GoString 0) open_state).2)) as Hrun.
  { vm_compute. reflexivity. }
  exact (proj1 (values_writes_use_chart_counter sample_yaml sample_GoString
                  0 _ open_state _ sample_chart Hc Hrun)).
Defined.

Lemma failed_values_write_witness :
  store (write_values (Secret := unit) sample_yaml sample_GoString 0
           (ByValues [("replicas", "2")]) blocked_state).2
  = store blocked_state.
Proof.
  assert (write_values (Secret := unit) sample_yaml sample_GoString 0
            (ByValues [("replicas", "2")]) blocked_state
          = (Ret (Some (PathError "mkdir" ["chart"; "more-values"] ENOTDIR)),
             (write_values (Secret := unit) sample_yaml sample_GoString 0
                (ByValues [("replicas", "2")]) blocked_state).2)) as Hrun.
  { vm_compute. reflexivity. }
  exact (failed_values_write_keeps_chart sample_yaml sample_GoString 0 _ blocked_state _ _ Hrun).
Defined.

Lemma Deploy_witness :
  Deploy sample_helm 1 "rel" "ns"
    {| opt_Set := ["c=d"]; opt_Values := [["extra.yaml"]];
       KubeContext := "ctx"; DryRun := true; Debug := false |} open_state
  = (Ret None,
     {| store := store open_state;
        fs := fs open_state;
        trace := [EvDeployHelmChart ["chart"] "rel" "ns"
                    {| opt_Set := ["a=b"; "c=d"];
                       opt_Values := [["base.yaml"]; ["extra.yaml"]];
                       KubeContext := "ctx"; DryRun := true; Debug := false |}] |}).
Proof.
  assert (store open_state !! 1 = Some sample_chart) as Hc by reflexivity.
  exact (Deploy_passes_chart_then_caller sample_helm 1 "rel" "ns" _ open_state
           sample_chart Hc).
Defined.

(** The errors of the library calls name what is in the way: the
    component that is a regular file for [os.MkdirAll], and "not a
    directory" for a name below a regular file. *)
Example os_MkdirAll_names_component :
  (os_MkdirAll ["sv.yaml"; "more-values"] open_state).1
  = Ret (Some (PathError "mkdir" ["sv.yaml"] ENOTDIR)).
Proof. vm_compute. reflexivity. Qed.

Example ioutil_ReadFile_below_file :
  (ioutil_ReadFile ["sv.yaml"; "x"] open_state).1
  = Ret ([], Some (PathError "open" ["sv.yaml"; "x"] ENOTDIR)).
Proof. vm_compute. reflexivity. Qed.

Example ioutil_ReadFile_missing :
  (ioutil_ReadFile ["chart"; "x"] open_state).1
  = Ret ([], Some (PathError "open" ["chart"; "x"] ENOENT)).
Proof. vm_compute. reflexivity. Qed.

(** ** Instances of the further properties *)

Lemma settings_reach_helm_witness :
  store open_state !! 1 = Some sample_chart ∧
  ∃ s1,
    for_range [BySet "x=1"; ByFile ["f.yaml"]; BySet "y=2"] (apply_setting 1) open_state
    = (Ret None, s1) ∧
    trace (Deploy sample_helm 1 "rel" "ns"
             {| opt_Set := ["c=d"]; opt_Values := [["extra.yaml"]];
                KubeContext := "ctx"; DryRun := true; Debug := false |} s1).2
    = [EvDeployHelmChart ["chart"] "rel" "ns"
         {| opt_Set := ["a=b"; "x=1"; "y=2"; "c=d"];
            opt_Values := [["base.yaml"]; ["f.yaml"]; ["extra.yaml"]];
            KubeContext := "ctx"; DryRun := true; Debug := false |}].
Proof.
  split; [reflexivity|].
  destruct (settings_reach_helm sample_helm 1 [BySet "x=1"; ByFile ["f.yaml"]; BySet "y=2"]
              "rel" "ns"
              {| opt_Set := ["c=d"]; opt_Values := [["extra.yaml"]];
                 KubeContext := "ctx"; DryRun := true; Debug := false |}
              open_state sample_chart eq_refl) as (s1 & H1 & _ & _ & _ & H5).
  exists s1. split; [exact H1|exact H5].
Defined.

Lemma SetValues_failures_witness :
  store blocked_state !! 0 = Some sample_chart ∧
  SetValues sample_yaml sample_GoString 0 [("replicas", "2")] blocked_state
  = (Ret (Some (PathError "mkdir" ["chart"; "more-values"] ENOTDIR)),
     {| store := store blocked_state; fs := fs blocked_state;
        trace := [EvMkdirAll ["chart"; "more-values"]] |}).
Proof.
  split; [reflexivity|].
  pose proof (SetValues_failures sample_yaml sample_GoString 0 [("replicas", "2")]
                blocked_state sample_chart eq_refl) as H.
  vm_compute in H. destruct H as (e & He & Hs). injection He as <-.
  vm_compute. exact Hs.
Defined.

Lemma SetSecretValuesFile_unreadable_witness :
  (∀ d, node_at (fs open_state) ["chart"] ≠ Some (File d)) ∧
  ∃ e,
    SetSecretValuesFile 0 ["chart"] (None : option unit) open_state
    = (Ret (Some (ErrorString ("cannot read secret values file chart: " +:+ Error e))),
       {| store := store open_state; fs := fs open_state;
          trace := [EvReadFile ["chart"] None] |}).
Proof.
  assert (∀ d, node_at (fs open_state) ["chart"] ≠ Some (File d)) as Hp.
  { intros d H. vm_compute in H. discriminate H. }
  split; [exact Hp|].
  destruct (SetSecretValuesFile_unreadable 0 ["chart"] (None : option unit) open_state Hp)
    as (e & _ & He).
  exists e. exact He.
Defined.

Lemma values_write_content_witness :
  fs (write_values sample_yaml sample_GoString 0
        (BySecretFile ["sv.yaml"] (None : option unit)) open_state).2
     !! ["chart"; "more-values"; "7.yaml"]
  = Some (File ["x"]%byte).
Proof.
  assert (store open_state !! 0 = Some sample_chart) as Hc by reflexivity.
  assert (write_values sample_yaml sample_GoString 0
            (BySecretFile ["sv.yaml"] (None : option unit)) open_state
          = (Ret None,
             (write_values sample_yaml sample_GoString 0
                (BySecretFile ["sv.yaml"] (None : option unit)) open_state).2)) as Hrun.
  { vm_compute. reflexivity. }
  destruct (proj1 (values_write_content sample_yaml sample_GoString 0 _ open_state _
                     sample_chart Hc Hrun)) as (data & Hdata & Hfs & _).
  vm_compute in Hdata. injection Hdata as <-. exact Hfs.
Defined.

Lemma PrepareDappChart_without_helm_dir_witness :
  node_at (fs open_state) (["proj"] ++ [".helm"]) = None ∧
  fs (PrepareDappChart (Secret := unit) sample_tpl 10 ["proj"] ["tmp"; "chart"]
        {| opt_Secret := None |} open_state).2 = fs open_state.
Proof.
  split; [reflexivity|].
  exact (proj1 (proj2 (PrepareDappChart_without_helm_dir (Secret := unit) sample_tpl 10
                         ["proj"] ["tmp"; "chart"] {| opt_Secret := None |} open_state
                         eq_refl))).
Defined.

Lemma sample_prepare (secret : option unit) :
  PrepareDappChart sample_tpl 10 ["proj"] ["tmp"; "chart"] {| opt_Secret := secret |}
    sample_state
  = (Ret (Some 0, None),
     (PrepareDappChart sample_tpl 10 ["proj"] ["tmp"; "chart"] {| opt_Secret := secret |}
        sample_state).2).
Proof. destruct secret as [[]|]; vm_compute; reflexivity. Qed.

Lemma PrepareDappChart_chart_witness :
  ∃ c, store (PrepareDappChart sample_tpl 10 ["proj"] ["tmp"; "chart"]
                {| opt_Secret := Some tt |} sample_state).2 = store sample_state ++ [c] ∧
       ChartDir c = ["tmp"; "chart"] ∧ Set_ c = [].
Proof.
  destruct (PrepareDappChart_chart sample_yaml sample_GoString sample_tpl 10 ["proj"]
              ["tmp"; "chart"] {| opt_Secret := Some tt |} sample_state 0 _
              (sample_prepare (Some tt))) as (_ & c & Hst & Hdir & Hset & _).
  exists c. split; [exact Hst|]. split; [exact Hdir|exact Hset].
Defined.

Lemma PrepareDappChart_helpers_template_witness :
  fs (PrepareDappChart sample_tpl 10 ["proj"] ["tmp"; "chart"]
        {| opt_Secret := Some tt |} sample_state).2
     !! ["tmp"; "chart"; "templates"; "_dapp_helpers.tpl"]
  = Some (File sample_tpl).
Proof.
  exact (PrepareDappChart_helpers_template sample_yaml sample_GoString sample_tpl 10
           ["proj"] ["tmp"; "chart"] {| opt_Secret := Some tt |} sample_state 0 _
           (sample_prepare (Some tt))).
Defined.

Lemma GenerateDappChart_own_directory_witness :
  "old" ≠ "new" ∧
  fs (GenerateDappChart sample_tpl ["tmp"] 10 "new" ["proj"]
        {| opt_Secret := Some tt |} sample_state).2
     !! ["tmp"; "dapp-chart-old"; "Chart.yaml"]
  = fs sample_state !! ["tmp"; "dapp-chart-old"; "Chart.yaml"].
Proof.
  assert ("old" ≠ "new") as Hne by discriminate.
  split; [exact Hne|].
  apply (proj2 (GenerateDappChart_own_directory sample_yaml sample_GoString sample_tpl
                  ["tmp"] 10 "new" "old" ["proj"] {| opt_Secret := Some tt |}
                  sample_state Hne)).
  by exists ["Chart.yaml"].
Defined.

Lemma PrepareDappChart_copies_helm_witness :
  fs (PrepareDappChart sample_tpl 10 ["proj"] ["tmp"; "chart"]
        {| opt_Secret := Some tt |} sample_state).2
     !! ["tmp"; "chart"; "templates"; "pod.yaml"]
  = Some (File (String.list_byte_of_string "kind: Pod")).
Proof.
  assert (tree_shaped (fs sample_state)) as Htree.
  { apply tree_shaped_check_ok. vm_compute. reflexivity. }
  assert (separate (["proj"] ++ [".helm"]) ["tmp"; "chart"]) as Hsep.
  { split; intros [k Hk]; discriminate. }
  assert (fs sample_state !! (["proj"] ++ [".helm"] ++ ["templates"; "pod.yaml"])
          = Some (File (String.list_byte_of_string "kind: Pod"))) as Hd.
  { vm_compute. reflexivity. }
  apply (PrepareDappChart_copies_helm sample_yaml sample_GoString sample_tpl 10 ["proj"]
           ["tmp"; "chart"] {| opt_Secret := Some tt |} sample_state 0 _
           ["templates"; "pod.yaml"] _ Htree Hsep (sample_prepare (Some tt)) Hd).
  - discriminate.
  - discriminate.
  - intros [k Hk]. discriminate.
Defined.

Lemma PrepareDappChart_nil_secret_reads_witness :
  ∃ new,
    trace (PrepareDappChart (Secret := unit) sample_tpl 10 ["proj"] ["tmp"; "chart"]
             {| opt_Secret := None |} sample_state).2 = new ∧
    ∀ got, EvReadFile ["proj"; "secret"; "key"] got ∉ new.
Proof.
  destruct (PrepareDappChart_nil_secret_reads (Secret := unit) sample_tpl 10 ["proj"]
              ["tmp"; "chart"] {| opt_Secret := None |} sample_state eq_refl)
    as (new & Htrace & Hnew).
  exists new. split; [exact Htrace|].
  intros got Hin. apply (proj2 (Hnew _ _ Hin)). by exists ["key"].
Defined.


Lemma PrepareDappChart_removes_nothing_witness :
  ∃ n', fs (PrepareDappChart (Secret := unit) sample_tpl 10 ["proj"] ["proj"; ".helm"]
              {| opt_Secret := None |} sample_state).2
           !! ["proj"; ".helm"; "templates"; "pod.yaml"] = Some n' ∧
        n' ≠ Dir.
Proof.
  destruct (PrepareDappChart_removes_nothing (Secret := unit) sample_tpl 10 ["proj"]
              ["proj"; ".helm"] {| opt_Secret := None |} sample_state
              ["proj"; ".helm"; "templates"; "pod.yaml"]
              (File (String.list_byte_of_string "kind: Pod")) eq_refl) as (n' & Hn & Hiff).
  exists n'. split; [exact Hn|]. intros Hd. apply Hiff in Hd. discriminate Hd.
Defined.


End Deploy.

(** * The cleanup coordinator (package [pkg/cleanup]) *)

Module Cleanup.

(** Modelled from the spec: the data model of section 3 ([Stage],
    [ImageTag], [GitRefSnapshot], [CleanupPolicy], [CleanupRunOptions]);
    package [pkg/cleanup] declares them and is not among the sources. *)
Record Stage := {
  digest : string;
  parentDigest : option string;
  stage_createdAt : Z
}.

Record ImageTag := {
  imageName : string;
  tag : string;
  finalStageDigest : string;
  createdAt : Z
}.

Record GitRefSnapshot := {
  branches : list string;
  tags : list string;
  commits : list string
}.

Inductive Scheme := GitBranch | GitTag | GitCommit | Custom.

Record CleanupPolicy := {
  scheme : Scheme;
  pattern : string;
  keepLast : nat;
  expireAfter : option Z
}.

Record CleanupRunOptions := {
  projectName : string;
  imageNames : list string;
  dryRun : bool;
  withoutKube : bool;
  policies : list CleanupPolicy
}.

Global Instance Stage_eq_dec : EqDecision Stage.
Proof. solve_decision. Defined.
Global Instance ImageTag_eq_dec : EqDecision ImageTag.
Proof. solve_decision. Defined.

Definition empty_snapshot : GitRefSnapshot :=
  {| branches := []; tags := []; commits := [] |}.

(** Modelled from the spec: the lock primitive [Acquire(key)] /
    [Release(handle)] and the registry and stage storage the run deletes
    from (section 6); the calls that change them are recorded in order.
    [looks] counts how often the run has looked for an interruption
    (section 5). *)
Inductive event :=
| EvAcquire (key : string)
| EvRelease (key : string)
| EvDeleteTag (t : ImageTag)
| EvDeleteStage (st : Stage).

Record World := {
  registry : gmap string (list ImageTag);
  storage : list Stage;
  held : gset string;
  log : list event;
  looks : nat
}.

Definition with_registry (r : gmap string (list ImageTag)) (w : World) : World :=
  {| registry := r; storage := storage w; held := held w; log := log w; looks := looks w |}.
Definition with_storage (st : list Stage) (w : World) : World :=
  {| registry := registry w; storage := st; held := held w; log := log w; looks := looks w |}.
Definition with_held (h : gset string) (w : World) : World :=
  {| registry := registry w; storage := storage w; held := h; log := log w; looks := looks w |}.
Definition record (e : event) (w : World) : World :=
  {| registry := registry w; storage := storage w; held := held w; log := log w ++ [e];
     looks := looks w |}.

Definition Acquire (key : string) (w : World) : bool * World :=
  if decide (key ∈ held w) then (false, w)
  else (true, record (EvAcquire key) (with_held ({[key]} ∪ held w) w)).

Definition Release (key : string) (w : World) : World :=
  record (EvRelease key) (with_held (held w ∖ {[key]}) w).

(** Modelled from the spec: the states of the coordinator (section 4.7)
    and the report it returns.  The report holds decisions: the tags and
    stages classified for deletion and those classified to stay (a dry run
    only records the decision, section 4.4), and the delete calls that
    failed. *)
Inductive Phase := Idle | AcquiringLock | ImagesPhase | StagesPhase | Done | Failed.

Record CleanupReport := {
  deleted_tags : list ImageTag;
  kept_tags : list ImageTag;
  tag_errors : list ImageTag;
  deleted_stages : list Stage;
  kept_stages : list Stage;
  stage_errors : list Stage
}.

Definition empty_report : CleanupReport :=
  {| deleted_tags := []; kept_tags := []; tag_errors := [];
     deleted_stages := []; kept_stages := []; stage_errors := [] |}.

Record Machine := {
  phase : Phase;
  world : World;
  report : CleanupReport
}.

Section Coordinator.

(** What the coordinator consumes (section 6): the git repository, when
    there is one, and its enumerator ([None]: the repository is corrupt or
    unreadable); the result of each namespace query of the cluster
    ([None]: the query failed); the policy evaluator of section 4.3, a
    function of the tag, the snapshot, the policies and the time; which
    registry and storage requests go through; and when an external
    interruption arrives ([interrupted n]: it has arrived when the run
    looks for the [n]-th time). *)
Context {Repo : Type}.
Context (enumerate : Repo → option GitRefSnapshot).
Context (namespaces : list (option (list string))).
Context (Decide : ImageTag → GitRefSnapshot → list CleanupPolicy → Z → bool).
Context (image_ref : ImageTag → string).
Context (now : Z).
Context (registry_up : string → bool) (delete_tag_ok : ImageTag → bool).
Context (storage_up : bool) (delete_stage_ok : Stage → bool).
Context (interrupted : nat → bool).

(** Modelled from the spec: section 4.1, [Snapshot]; an absent repository
    yields the empty snapshot, a corrupt or unreadable one no snapshot. *)
Definition Snapshot (repo : option Repo) : option GitRefSnapshot :=
  match repo with
  | None => Some empty_snapshot
  | Some r => enumerate r
  end.

(** Modelled from the spec: section 4.2, [Scan]; with [withoutKube] the
    set is empty, otherwise the namespaces that answered contribute. *)
Definition Scan (withoutKube : bool) : list string :=
  if withoutKube then []
  else concat (omap id namespaces).

(** Modelled from the spec: section 5, external interruption.  The run
    looks for it before it acquires the lock, at the start of each phase
    and before each item it handles, so that no remote call is cut in
    two. *)
Definition look (w : World) : bool * World :=
  (interrupted (looks w),
   {| registry := registry w; storage := storage w; held := held w; log := log w;
      looks := S (looks w) |}).

(** Modelled from the spec: section 4.4, the decision for the tags of
    one image: policy decision, vetoed by the live set. *)
Definition doomed (snapshot : GitRefSnapshot) (liveSet : list string)
    (ps : list CleanupPolicy) (t : ImageTag) : bool :=
  negb (Decide t snapshot ps now) && negb (bool_decide (image_ref t ∈ liveSet)).

(** One [Delete(ImageTag)]: a failure is recorded and the tag stays. *)
Definition delete_tag (name : string) (errs : list ImageTag) (t : ImageTag) (w : World)
  : list ImageTag * World :=
  let w := record (EvDeleteTag t) w in
  if delete_tag_ok t
  then (errs, with_registry (alter (filter (λ t', t' ≠ t)) name (registry w)) w)
  else (errs ++ [t], w).

(** The tags classified for deletion, one after the other: look, then
    delete unless [dry].  The first component tells whether an
    interruption halted the work. *)
Fixpoint delete_tags (dry : bool) (name : string) (ts : list ImageTag)
    (errs : list ImageTag) (w : World) : bool * list ImageTag * World :=
  match ts with
  | [] => (false, errs, w)
  | t :: ts' =>
      let '(stop, w) := look w in
      if stop then (true, errs, w)
      else if dry then delete_tags dry name ts' errs w
      else
        let '(errs', w') := delete_tag name errs t w in
        delete_tags dry name ts' errs' w'
  end.

(** Modelled from the spec: section 4.4, [Clean]: for each image name,
    list, decide, delete unless [dryRun].  The first component tells
    whether the work was halted, by an interruption or because the
    registry cannot be reached; the report is the one reached by then. *)
Fixpoint clean_images (names : list string) (opts : CleanupRunOptions)
    (snapshot : GitRefSnapshot) (liveSet : list string)
    (r : CleanupReport) (w : World) : bool * CleanupReport * World :=
  match names with
  | [] => (false, r, w)
  | name :: names' =>
      let '(stop, w) := look w in
      if stop || negb (registry_up name) then (true, r, w)
      else
        let listed := default [] (registry w !! name) in
        let del := filter (λ t, doomed snapshot liveSet (policies opts) t) listed in
        let keep := filter (λ t, ¬ doomed snapshot liveSet (policies opts) t) listed in
        let '(halted, errs, w') := delete_tags (dryRun opts) name del (tag_errors r) w in
        let r' := {| deleted_tags := deleted_tags r ++ del;
                     kept_tags := kept_tags r ++ keep;
                     tag_errors := errs;
                     deleted_stages := deleted_stages r;
                     kept_stages := kept_stages r;
                     stage_errors := stage_errors r |} in
        if halted then (true, r', w')
        else clean_images names' opts snapshot liveSet r' w'
  end.

(** "The run fails only if ... every deletion in a phase failed": an
    escalation of per-item failures, which fails the run without halting
    the work that remains (section 7). *)
Definition all_failed {A B} (dry : bool) (attempted : list A) (errs : list B) : bool :=
  negb dry && (0 <? length attempted)%nat && (length errs =? length attempted)%nat.

(** Modelled from the spec: sections 4.5 and 4.6; the parent chain of a
    digest (a chain longer than the number of stages runs through a
    cycle), the ancestor closure of the surviving tags, [Collect]. *)
Fixpoint chain (fuel : nat) (stages : list Stage) (d : string) : option (list string) :=
  match fuel with
  | O => None
  | S fuel' =>
      match find (λ st, bool_decide (digest st = d)) stages with
      | None => Some [d]
      | Some st =>
          match parentDigest st with
          | None => Some [d]
          | Some p => cons d <$> chain fuel' stages p
          end
      end
  end.

Definition cyclic (stages : list Stage) : bool :=
  existsb (λ st, if chain (S (length stages)) stages (digest st) is None then true else false)
          stages.

Definition reachable (stages : list Stage) (surviving : list ImageTag) : list string :=
  concat (omap (λ t, chain (S (length stages)) stages (finalStageDigest t)) surviving).

(** Modelled from the spec: the surviving tags of sections 4.6 and 8,
    those the images phase classified to stay and those it could not
    delete. *)
Definition surviving (r : CleanupReport) : list ImageTag :=
  kept_tags r ++ tag_errors r.

Definition delete_stage (errs : list Stage) (st : Stage) (w : World) : list Stage * World :=
  let w := record (EvDeleteStage st) w in
  if delete_stage_ok st
  then (errs, with_storage (filter (λ st', st' ≠ st) (storage w)) w)
  else (errs ++ [st], w).

Fixpoint delete_stages (dry : bool) (sts : list Stage) (errs : list Stage) (w : World)
  : bool * list Stage * World :=
  match sts with
  | [] => (false, errs, w)
  | st :: sts' =>
      let '(stop, w) := look w in
      if stop then (true, errs, w)
      else if dry then delete_stages dry sts' errs w
      else
        let '(errs', w') := delete_stage errs st w in
        delete_stages dry sts' errs' w'
  end.

Definition Collect (opts : CleanupRunOptions) (r : CleanupReport) (w : World)
  : bool * CleanupReport * World :=
  let '(stop, w) := look w in
  if stop || negb storage_up || cyclic (storage w) then (true, r, w)
  else
    let live := reachable (storage w) (surviving r) in
    let del := filter (λ st, digest st ∉ live) (storage w) in
    let keep := filter (λ st, digest st ∈ live) (storage w) in
    let '(halted, errs, w') := delete_stages (dryRun opts) del [] w in
    (halted,
     {| deleted_tags := deleted_tags r; kept_tags := kept_tags r;
        tag_errors := tag_errors r;
        deleted_stages := del; kept_stages := keep; stage_errors := errs |},
     w').

(** Modelled from the spec: section 4.7, [Run] as a machine over the
    states Idle, AcquiringLock, ImagesPhase, StagesPhase, Done, Failed.
    The image names form a set (section 6): a name configured twice is
    cleaned once.  A fatal condition (lock unavailable, corrupt git
    state, registry or storage unreachable, cyclic stage graph) and an
    interruption halt the work that remains; the run then fails with the
    report reached so far, and the lock, once acquired, is released. *)
Definition step (opts : CleanupRunOptions) (repo : option Repo) (m : Machine) : Machine :=
  match phase m with
  | Idle => {| phase := AcquiringLock; world := world m; report := report m |}
  | AcquiringLock =>
      let '(stop, w) := look (world m) in
      if stop then {| phase := Failed; world := w; report := report m |}
      else
        let '(ok, w) := Acquire (projectName opts) w in
        {| phase := if ok then ImagesPhase else Failed; world := w; report := report m |}
  | ImagesPhase =>
      match Snapshot repo with
      | None =>
          {| phase := Failed; world := Release (projectName opts) (world m);
             report := report m |}
      | Some snapshot =>
          let liveSet := Scan (withoutKube opts) in
          let '(halted, r, w) :=
            clean_images (remove_dups (imageNames opts)) opts snapshot liveSet
              (report m) (world m) in
          if halted
          then {| phase := Failed; world := Release (projectName opts) w; report := r |}
          else {| phase := StagesPhase; world := w; report := r |}
      end
  | StagesPhase =>
      let '(halted, r, w) := Collect opts (report m) (world m) in
      {| phase := if halted
                     || all_failed (dryRun opts) (deleted_tags r) (tag_errors r)
                     || all_failed (dryRun opts) (deleted_stages r) (stage_errors r)
                  then Failed else Done;
         world := Release (projectName opts) w; report := r |}
  | Done => m
  | Failed => m
  end.

Definition start (w : World) : Machine :=
  {| phase := Idle; world := w; report := empty_report |}.

Definition Run (opts : CleanupRunOptions) (repo : option Repo) (w : World) : Machine :=
  Nat.iter 4 (step opts repo) (start w).


Definition is_delete (e : event) : bool :=
  match e with
  | EvDeleteTag _ | EvDeleteStage _ => true
  | _ => false
  end.

(** ** What a phase does to the world *)

(** What a phase may change: the lock table stays, the log grows by
    delete calls only. *)
Definition phase_effect (w w' : World) (dels : list event) : Prop :=
  held w' = held w ∧ log w' = log w ++ dels ∧ Forall (λ e, is_delete e = true) dels.

Lemma phase_effect_refl w : phase_effect w w [].
Proof. split_and!; [done|by rewrite app_nil_r|done]. Qed.

Lemma phase_effect_trans w1 w2 w3 d1 d2 :
  phase_effect w1 w2 d1 → phase_effect w2 w3 d2 → phase_effect w1 w3 (d1 ++ d2).
Proof.
  intros (Hh1 & Hl1 & Hf1) (Hh2 & Hl2 & Hf2). split_and!; [congruence| |by apply Forall_app].
  rewrite Hl2, Hl1. by rewrite <-app_assoc.
Qed.

Lemma delete_tags_effect dry name ts errs w :
  let res := delete_tags dry name ts errs w in
  storage res.2 = storage w ∧ held res.2 = held w ∧
  (∀ n, n ≠ name → registry res.2 !! n = registry w !! n) ∧
  ∃ issued, issued `prefix_of` ts ∧
            log res.2 = log w ++ (EvDeleteTag <$> issued) ∧
            (dry = true → issued = [] ∧ registry res.2 = registry w ∧ res.1.2 = errs) ∧
            (dry = false → res.1.1 = false → issued = ts).
Proof.
  revert errs w. induction ts as [|t ts IH]; intros errs w; simpl.
  - split_and!; [done..|]. exists []. by rewrite app_nil_r.
  - destruct (interrupted (looks w)); simpl.
    { split_and!; [done..|]. exists []. rewrite app_nil_r.
      split_and!; [apply prefix_nil|done|done|done]. }
    destruct dry.
    + match goal with |- context [delete_tags true name ts errs ?w1] =>
        destruct (IH errs w1) as (Hst & Hh & Hreg & issued & Hpre & Hlog & Hdry & _) end.
      destruct (Hdry eq_refl) as (-> & Hr & He).
      split_and!; [done..|]. exists []. split_and!; [apply prefix_nil|done|done|done].
    + unfold delete_tag. destruct (delete_tag_ok t); simpl.
      * match goal with |- context [delete_tags false name ts errs ?w1] =>
          destruct (IH errs w1) as (Hst & Hh & Hreg & issued & Hpre & Hlog & _ & Hreal) end.
        split_and!; [done|done| |].
        -- intros n Hn. rewrite Hreg by done. simpl. by rewrite lookup_alter_ne.
        -- exists (t :: issued). split_and!; [by apply prefix_cons| |done|].
           ++ rewrite Hlog. simpl. by rewrite <-app_assoc.
           ++ intros _ Hh'. by rewrite (Hreal eq_refl Hh').
      * match goal with |- context [delete_tags false name ts ?e1 ?w1] =>
          destruct (IH e1 w1) as (Hst & Hh & Hreg & issued & Hpre & Hlog & _ & Hreal) end.
        split_and!; [done|done|done|].
        exists (t :: issued). split_and!; [by apply prefix_cons| |done|].
        -- rewrite Hlog. simpl. by rewrite <-app_assoc.
        -- intros _ Hh'. by rewrite (Hreal eq_refl Hh').
Qed.


Lemma delete_tags_uninterrupted dry name ts errs w :
  (∀ n, interrupted n = false) → (delete_tags dry name ts errs w).1.1 = false.
Proof.
  intros Hn. revert errs w. induction ts as [|t ts IH]; intros errs w; simpl; [done|].
  rewrite Hn. destruct dry; [apply IH|].
  unfold delete_tag. destruct (delete_tag_ok t); apply IH.
Qed.

Lemma clean_images_effect names opts snapshot liveSet r w :
  let res := clean_images names opts snapshot liveSet r w in
  storage res.2 = storage w ∧ held res.2 = held w ∧
  deleted_stages res.1.2 = deleted_stages r ∧
  kept_stages res.1.2 = kept_stages r ∧
  stage_errors res.1.2 = stage_errors r ∧
  ∃ new issued,
    deleted_tags res.1.2 = deleted_tags r ++ new ∧
    issued `prefix_of` new ∧
    log res.2 = log w ++ (EvDeleteTag <$> issued) ∧
    (dryRun opts = true →
     issued = [] ∧ registry res.2 = registry w ∧ tag_errors res.1.2 = tag_errors r) ∧
    (dryRun opts = false → (∀ n, interrupted n = false) → issued = new).
Proof.
  revert r w. induction names as [|name names IH]; intros r w; simpl.
  { split_and!; [done..|]. exists [], []. by rewrite !app_nil_r. }
  destruct (interrupted (looks w) || negb (registry_up name)); simpl.
  { split_and!; [done..|]. exists [], []. by rewrite !app_nil_r. }
  set (w0 := {| registry := registry w; storage := storage w; held := held w;
                log := log w; looks := S (looks w) |}).
  set (del := filter (λ t, doomed snapshot liveSet (policies opts) t)
                     (default [] (registry w !! name))).
  set (keep := filter (λ t, ¬ doomed snapshot liveSet (policies opts) t)
                      (default [] (registry w !! name))).
  pose proof (delete_tags_effect (dryRun opts) name del (tag_errors r) w0)
    as (Hst1 & Hh1 & _ & i1 & Hp1 & Hl1 & Hd1 & Hr1).
  pose proof (delete_tags_uninterrupted (dryRun opts) name del (tag_errors r) w0) as Hu1.
  destruct (delete_tags (dryRun opts) name del (tag_errors r) w0) as [[halted errs] w1].
  simpl in *. destruct halted; simpl.
  - split_and!; [done..|]. exists del, i1. split_and!; [done|done|done| |].
    + intros Hdry. by destruct (Hd1 Hdry) as (-> & -> & ->).
    + intros _ Hn. by specialize (Hu1 Hn).
  - match goal with |- context [clean_images names opts snapshot liveSet ?r1 w1] =>
      destruct (IH r1 w1)
        as (Hst & Hh & Hs1 & Hs2 & Hs3 & new & issued & Hnew & Hpre & Hlog & Hdry & Hreal) end.
    simpl in *.
    split_and!; [congruence..|].
    exists (del ++ new), (i1 ++ issued). split_and!.
    + by rewrite Hnew, <-app_assoc.
    + destruct (dryRun opts) eqn:Hd.
      * destruct (Hd1 eq_refl) as (-> & _). destruct (Hdry eq_refl) as (-> & _).
        apply prefix_nil.
      * rewrite (Hr1 eq_refl eq_refl). by apply prefix_app.
    + rewrite Hlog, Hl1, fmap_app. by rewrite <-app_assoc.
    + intros Hd. destruct (Hd1 Hd) as (-> & Hreg1 & ->).
      destruct (Hdry Hd) as (-> & Hreg & He). split_and!; [done|congruence|done].
    + intros Hd Hn. by rewrite (Hr1 Hd eq_refl), (Hreal Hd Hn).
Qed.


Lemma delete_stages_effect dry sts errs w :
  let res := delete_stages dry sts errs w in
  registry res.2 = registry w ∧ held res.2 = held w ∧
  ∃ issued, issued `prefix_of` sts ∧
            log res.2 = log w ++ (EvDeleteStage <$> issued) ∧
            (dry = true → issued = [] ∧ storage res.2 = storage w) ∧
            (dry = false → (∀ n, interrupted n = false) → issued = sts).
Proof.
  revert errs w. induction sts as [|st sts IH]; intros errs w; simpl.
  - split_and!; [done..|]. exists []. by rewrite app_nil_r.
  - destruct (interrupted (looks w)) eqn:Hi; simpl.
    { split_and!; [done..|]. exists []. rewrite app_nil_r.
      split_and!; [apply prefix_nil|done|done|]. intros _ Hn. by rewrite Hn in Hi. }
    destruct dry.
    + match goal with |- context [delete_stages true sts errs ?w1] =>
        destruct (IH errs w1) as (Hreg & Hh & issued & Hpre & Hlog & Hdry & _) end.
      destruct (Hdry eq_refl) as (-> & Hs).
      split_and!; [done..|]. exists []. split_and!; [apply prefix_nil|done|done|done].
    + unfold delete_stage. destruct (delete_stage_ok st); simpl.
      * match goal with |- context [delete_stages false sts errs ?w1] =>
          destruct (IH errs w1) as (Hreg & Hh & issued & Hpre & Hlog & _ & Hreal) end.
        split_and!; [done|done|].
        exists (st :: issued). split_and!; [by apply prefix_cons| |done|].
        -- rewrite Hlog. simpl. by rewrite <-app_assoc.
        -- intros _ Hn. by rewrite (Hreal eq_refl Hn).
      * match goal with |- context [delete_stages false sts ?e1 ?w1] =>
          destruct (IH e1 w1) as (Hreg & Hh & issued & Hpre & Hlog & _ & Hreal) end.
        split_and!; [done|done|].
        exists (st :: issued). split_and!; [by apply prefix_cons| |done|].
        -- rewrite Hlog. simpl. by rewrite <-app_assoc.
        -- intros _ Hn. by rewrite (Hreal eq_refl Hn).
Qed.

Lemma Collect_effect opts r w :
  let res := Collect opts r w in
  registry res.2 = registry w ∧ held res.2 = held w ∧
  deleted_tags res.1.2 = deleted_tags r ∧
  kept_tags res.1.2 = kept_tags r ∧
  tag_errors res.1.2 = tag_errors r ∧
  ∃ issued,
    log res.2 = log w ++ (EvDeleteStage <$> issued) ∧
    (deleted_stages r = [] → issued `prefix_of` deleted_stages res.1.2) ∧
    (dryRun opts = true → issued = [] ∧ storage res.2 = storage w) ∧
    (dryRun opts = false → (∀ n, interrupted n = false) → deleted_stages r = [] →
     issued = deleted_stages res.1.2).
Proof.
  unfold Collect, look.
  destruct (interrupted (looks w) || negb storage_up || cyclic _) eqn:Hstop; simpl.
  { split_and!; [done..|]. exists []. rewrite app_nil_r.
    split_and!; [done|intros; apply prefix_nil|done|by intros _ _ ->]. }
  match goal with |- context [delete_stages (dryRun opts) ?del [] ?w1] =>
    pose proof (delete_stages_effect (dryRun opts) del [] w1)
      as (Hreg & Hh & issued & Hpre & Hlog & Hdry & Hreal);
    destruct (delete_stages (dryRun opts) del [] w1) as [[halted errs] w'] end.
  simpl in *. split_and!; [done..|]. exists issued. split_and!; [done|done|done|].
  intros Hd Hn _. by apply Hreal.
Qed.



(** ** The run, path by path *)

(** The run spelled out: look, lock, snapshot, images phase, stages
    phase, release. *)
Lemma Run_cases opts repo w :
  let k := projectName opts in
  let w0 := (look w).2 in
  let w1 := record (EvAcquire k) (with_held ({[k]} ∪ held w0) w0) in
  Run opts repo w =
    if interrupted (looks w) then {| phase := Failed; world := w0; report := empty_report |}
    else if decide (k ∈ held w)
    then {| phase := Failed; world := w0; report := empty_report |}
    else
      match Snapshot repo with
      | None => {| phase := Failed; world := Release k w1; report := empty_report |}
      | Some snapshot =>
          let images := clean_images (remove_dups (imageNames opts)) opts snapshot
                          (Scan (withoutKube opts)) empty_report w1 in
          if images.1.1
          then {| phase := Failed; world := Release k images.2; report := images.1.2 |}
          else
            let stages := Collect opts images.1.2 images.2 in
            {| phase := if stages.1.1
                           || all_failed (dryRun opts) (deleted_tags stages.1.2)
                                (tag_errors stages.1.2)
                           || all_failed (dryRun opts) (deleted_stages stages.1.2)
                                (stage_errors stages.1.2)
                        then Failed else Done;
               world := Release k stages.2; report := stages.1.2 |}
      end.
Proof.
  intros k w0 w1. unfold Run, start. simpl.
  unfold step at 3. simpl. destruct (interrupted (looks w)); [done|].
  unfold Acquire. simpl. fold k. destruct (decide (k ∈ held w)); [done|].
  unfold step at 2. simpl. fold w0 w1. destruct (Snapshot repo) as [snapshot|]; [|done].
  destruct (clean_images _ _ _ _ _ _) as [[halted r] w2]. simpl.
  destruct halted; [done|]. unfold step. simpl.
  by destruct (Collect opts r w2) as [[halted' r'] w3].
Qed.

Lemma Release_after_acquire k w w' dels :
  k ∉ held w →
  held w' = {[k]} ∪ held w →
  log w' = log w ++ [EvAcquire k] ++ dels →
  held (Release k w') = held w ∧
  log (Release k w') = log w ++ [EvAcquire k] ++ dels ++ [EvRelease k].
Proof.
  intros Hk Hh Hl. simpl. rewrite Hh, Hl. split; [|by rewrite <-!app_assoc].
  apply set_eq. intros x. rewrite elem_of_difference, elem_of_union, !elem_of_singleton.
  split; [by intros [[?|?] ?]|]. intros Hx. split; [by right|]. by intros ->.
Qed.

(** What every run does to the lock and to the log.  A run that does not
    get as far as the lock (it is interrupted first, or the lock is taken)
    fails with the log and the lock table as they were.  Every other run
    acquires the lock once and releases it once, as its first and its last
    call, with delete calls only in between: the tags of the report's
    decisions, then the stages, each list cut short where the run was
    halted. *)
Lemma Run_log opts repo w :
  let m := Run opts repo w in
  let k := projectName opts in
  (phase m = Done ∨ phase m = Failed) ∧
  held (world m) = held w ∧
  (((interrupted (looks w) = true ∨ k ∈ held w) ∧
    phase m = Failed ∧ log (world m) = log w ∧ report m = empty_report ∧
    registry (world m) = registry w ∧ storage (world m) = storage w)
   ∨
   (interrupted (looks w) = false ∧ (k ∉ held w) ∧
    ∃ dt ds,
     dt `prefix_of` deleted_tags (report m) ∧
     ds `prefix_of` deleted_stages (report m) ∧
     log (world m) = log w ++ [EvAcquire k] ++ (EvDeleteTag <$> dt)
                           ++ (EvDeleteStage <$> ds) ++ [EvRelease k] ∧
     (dryRun opts = true →
      dt = [] ∧ ds = [] ∧
      registry (world m) = registry w ∧ storage (world m) = storage w) ∧
     (dryRun opts = false → (∀ n, interrupted n = false) →
      dt = deleted_tags (report m) ∧ ds = deleted_stages (report m)))).
Proof.
  intros m k. subst m. rewrite Run_cases. fold k. cbv zeta. unfold look. cbn [fst snd].
  destruct (interrupted (looks w)) eqn:Hi; cbn [phase world report].
  { split_and!; [by right|done|]. left. split_and!; auto. }
  destruct (decide (k ∈ held w)) as [Hk|Hk]; cbn [phase world report].
  { split_and!; [by right|done|]. left. split_and!; auto. }
  set (w0 := {| registry := registry w; storage := storage w; held := held w;
                log := log w; looks := S (looks w) |}).
  set (w1 := record (EvAcquire k) (with_held ({[k]} ∪ held w0) w0)).
  destruct (Snapshot repo) as [snapshot|].
  2:{ destruct (Release_after_acquire k w w1 [] Hk eq_refl eq_refl) as [Hh Hl].
      cbn [phase world report].
      split_and!; [by right|done|]. right. split_and!; [done..|].
      exists [], []. rewrite Hl. simpl.
      split_and!; [done|done|done|done|done]. }
  pose proof (clean_images_effect (remove_dups (imageNames opts)) opts snapshot
                (Scan (withoutKube opts)) empty_report w1)
    as (Hst2 & Hh2 & Hds2 & Hks2 & Hse2 & new & dt & Hnew & Hpre & Hl2 & Hdry2 & Hreal2).
  destruct (clean_images _ _ _ _ _ _) as [[halted r] w2]. cbn [fst snd] in *.
  destruct halted; cbn [phase world report].
  - destruct (Release_after_acquire k w w2 (EvDeleteTag <$> dt) Hk Hh2) as [Hh Hl].
    { rewrite Hl2. simpl. by rewrite <-app_assoc. }
    split_and!; [by right|done|]. right. split_and!; [done..|].
    exists dt, []. rewrite Hl, Hds2. simpl.
    split_and!; [by rewrite Hnew|done|done| |].
    + intros Hd. destruct (Hdry2 Hd) as (-> & -> & _). by rewrite Hst2.
    + intros Hd Hn. by rewrite Hnew, (Hreal2 Hd Hn).
  - pose proof (Collect_effect opts r w2)
      as (Hreg3 & Hh3 & Hdt3 & Hkt3 & Hte3 & ds & Hl3 & Hpre3 & Hdry3 & Hreal3).
    destruct (Collect opts r w2) as [[halted' r'] w3]. cbn [fst snd phase world report] in *.
    destruct (Release_after_acquire k w w3 ((EvDeleteTag <$> dt) ++ (EvDeleteStage <$> ds))
                Hk) as [Hh Hl].
    { by rewrite Hh3, Hh2. }
    { rewrite Hl3, Hl2. simpl. by rewrite <-!app_assoc. }
    split_and!; [destruct (_ || _); auto|done|]. right. split_and!; [done..|].
    exists dt, ds. rewrite Hl, Hdt3, Hnew. simpl.
    split_and!; [done|by apply Hpre3|by rewrite <-!app_assoc| |].
    + intros Hd. destruct (Hdry2 Hd) as (-> & Hr2 & _). destruct (Hdry3 Hd) as (-> & Hs3).
      split_and!; [done|done|by rewrite Hreg3, Hr2|by rewrite Hs3, Hst2].
    + intros Hd Hn. by rewrite (Hreal2 Hd Hn), (Hreal3 Hd Hn Hds2).
Qed.

(** C8: every run ends in [Done] or [Failed] with the lock table as it
    found it, whatever halts it -- the lock taken, a corrupt git
    repository, the registry unreachable in the middle of the images
    phase, the storage unreachable or its graph cyclic, an interruption
    before any call, or every deletion failing.  A run that has acquired
    the project lock has released it by the time it returns: the acquire
    is the first call it logs, the release the last, and between them are
    delete calls only (the lock spans both phases). *)
Theorem Run_releases_lock opts repo w :
  let m := Run opts repo w in
  let k := projectName opts in
  (phase m = Done ∨ phase m = Failed) ∧
  held (world m) = held w ∧
  (k ∉ held w → k ∉ held (world m)) ∧
  (log (world m) = log w ∨
   ∃ dels, Forall (λ e, is_delete e = true) dels ∧
           log (world m) = log w ++ [EvAcquire k] ++ dels ++ [EvRelease k]) ∧
  (k ∉ held w → interrupted (looks w) = false →
   ∃ dels, log (world m) = log w ++ [EvAcquire k] ++ dels ++ [EvRelease k]).
Proof.
  intros m k.
  destruct (Run_log opts repo w) as (Hphase & Hheld & Hlog). fold m k in Hphase, Hheld, Hlog.
  assert (∀ (dt : list ImageTag) (ds : list Stage),
            Forall (λ e, is_delete e = true) ((EvDeleteTag <$> dt) ++ (EvDeleteStage <$> ds)))
    as Hdel.
  { intros dt ds. apply Forall_app. split; by apply Forall_fmap, Forall_true. }
  split_and!; [done|done|by rewrite Hheld| |].
  - destruct Hlog as [(_ & _ & Hl & _)|(_ & _ & dt & ds & _ & _ & Hl & _)]; [by left|].
    right. exists ((EvDeleteTag <$> dt) ++ (EvDeleteStage <$> ds)).
    split; [apply Hdel|]. rewrite Hl. by rewrite <-!app_assoc.
  - intros Hk Hi.
    destruct Hlog as [([Hi'|Hk'] & _)|(_ & _ & dt & ds & _ & _ & Hl & _)];
      [congruence|done|].
    exists ((EvDeleteTag <$> dt) ++ (EvDeleteStage <$> ds)). rewrite Hl.
    by rewrite <-!app_assoc.
Qed.

(** ** Dry runs *)




End Coordinator.

(** ** A sample registry, storage and collaborators *)

Definition tag_v1 : ImageTag :=
  {| imageName := "app"; tag := "v1"; finalStageDigest := "s1"; createdAt := 10 |}.
Definition tag_v2 : ImageTag :=
  {| imageName := "app"; tag := "v2"; finalStageDigest := "s2"; createdAt := 20 |}.

Definition stage_s0 : Stage := {| digest := "s0"; parentDigest := None; stage_createdAt := 1 |}.
Definition stage_s1 : Stage := {| digest := "s1"; parentDigest := Some "s0"; stage_createdAt := 2 |}.
Definition stage_s2 : Stage := {| digest := "s2"; parentDigest := Some "s0"; stage_createdAt := 3 |}.

Definition sample_world : World :=
  {| registry := {[ "app" := [tag_v1; tag_v2] ]};
     storage := [stage_s0; stage_s1; stage_s2];
     held := ∅;
     log := [];
     looks := 0 |}.

Definition sample_opts (names : list string) (dry : bool) : CleanupRunOptions :=
  {| projectName := "proj"; imageNames := names; dryRun := dry;
     withoutKube := true; policies := [] |}.

(** Keeps ["v2"] only; the registry does not answer for the image
    ["down"]; every delete call goes through, nothing interrupts. *)
Definition sample_Decide (t : ImageTag) (_ : GitRefSnapshot) (_ : list CleanupPolicy) (_ : Z)
  : bool := bool_decide (tag t = "v2").

Definition sample_Run (names : list string) (dry : bool) : Machine :=
  Run (Repo := unit) (λ _, Some empty_snapshot) [] sample_Decide tag 0
      (λ n, bool_decide (n ≠ "down")) (λ _, true) true (λ _, true) (λ _, false)
      (sample_opts names dry) None sample_world.

(** The same, interrupted when the run looks for the [n]-th time. *)
Definition sample_Run_interrupted (n : nat) : Machine :=
  Run (Repo := unit) (λ _, Some empty_snapshot) [] sample_Decide tag 0
      (λ _, true) (λ _, true) true (λ _, true) (λ i, bool_decide (i = n))
      (sample_opts ["app"] false) None sample_world.

Example sample_Run_real :
  let m := sample_Run ["app"] false in
  phase m = Done ∧
  deleted_tags (report m) = [tag_v1] ∧ kept_tags (report m) = [tag_v2] ∧
  deleted_stages (report m) = [stage_s1] ∧ kept_stages (report m) = [stage_s0; stage_s2] ∧
  registry (world m) !! "app" = Some [tag_v2] ∧
  storage (world m) = [stage_s0; stage_s2] ∧
  log (world m) = [EvAcquire "proj"; EvDeleteTag tag_v1; EvDeleteStage stage_s1;
                   EvRelease "proj"].
Proof. vm_compute. by repeat split. Qed.

Example sample_Run_dry :
  let m := sample_Run ["app"] true in
  phase m = Done ∧
  deleted_tags (report m) = [tag_v1] ∧ kept_tags (report m) = [tag_v2] ∧
  deleted_stages (report m) = [stage_s1] ∧ kept_stages (report m) = [stage_s0; stage_s2] ∧
  registry (world m) !! "app" = Some [tag_v1; tag_v2] ∧
  storage (world m) = [stage_s0; stage_s1; stage_s2] ∧
  log (world m) = [EvAcquire "proj"; EvRelease "proj"].
Proof. vm_compute. by repeat split. Qed.

(** An image name configured twice is cleaned once. *)
Example sample_Run_twice :
  report (sample_Run ["app"; "app"] false) = report (sample_Run ["app"] false) ∧
  report (sample_Run ["app"; "app"] true) = report (sample_Run ["app"] true).
Proof. vm_compute. by split. Qed.

(** The lock-release check of section 8: the registry fails in the middle
    of the images phase.  The report is the one reached by then. *)
Example sample_Run_fatal :
  let m := sample_Run ["app"; "down"] false in
  phase m = Failed ∧
  deleted_tags (report m) = [tag_v1] ∧
  held (world m) = ∅ ∧
  log (world m) = [EvAcquire "proj"; EvDeleteTag tag_v1; EvRelease "proj"].
Proof. vm_compute. by repeat split. Qed.

(** A corrupt git repository: fatal, before any decision. *)
Example sample_Run_corrupt_git :
  let m :=
    Run (Repo := unit) (λ _, None) [] sample_Decide tag 0
        (λ _, true) (λ _, true) true (λ _, true) (λ _, false)
        (sample_opts ["app"] false) (Some tt) sample_world in
  phase m = Failed ∧ report m = empty_report ∧
  held (world m) = ∅ ∧
  log (world m) = [EvAcquire "proj"; EvRelease "proj"].
Proof. vm_compute. by repeat split. Qed.

(** An interruption before the lock is acquired, before the first delete
    call of the images phase, and before the first delete call of the
    stages phase. *)
Example sample_Run_interrupted_early :
  let m := sample_Run_interrupted 0 in
  phase m = Failed ∧ held (world m) = ∅ ∧ log (world m) = [].
Proof. vm_compute. by repeat split. Qed.

Example sample_Run_interrupted_images :
  let m := sample_Run_interrupted 2 in
  phase m = Failed ∧ held (world m) = ∅ ∧
  deleted_tags (report m) = [tag_v1] ∧
  registry (world m) !! "app" = Some [tag_v1; tag_v2] ∧
  log (world m) = [EvAcquire "proj"; EvRelease "proj"].
Proof. vm_compute. by repeat split. Qed.

Example sample_Run_interrupted_stages :
  let m := sample_Run_interrupted 4 in
  phase m = Failed ∧ held (world m) = ∅ ∧
  deleted_stages (report m) = [stage_s1] ∧
  storage (world m) = [stage_s0; stage_s1; stage_s2] ∧
  log (world m) = [EvAcquire "proj"; EvDeleteTag tag_v1; EvRelease "proj"].
Proof. vm_compute. by repeat split. Qed.

(** Every delete call of the images phase fails: the run is [Failed],
    the tag that could not be deleted survives and keeps its stage, and the
    lock is released. *)
Example sample_Run_deletes_fail :
  let m :=
    Run (Repo := unit) (λ _, Some empty_snapshot) [] sample_Decide tag 0
        (λ _, true) (λ _, false) true (λ _, true) (λ _, false)
        (sample_opts ["app"] false) None sample_world in
  phase m = Failed ∧
  deleted_tags (report m) = [tag_v1] ∧ tag_errors (report m) = [tag_v1] ∧
  deleted_stages (report m) = [] ∧
  registry (world m) !! "app" = Some [tag_v1; tag_v2] ∧
  storage (world m) = [stage_s0; stage_s1; stage_s2] ∧
  log (world m) = [EvAcquire "proj"; EvDeleteTag tag_v1; EvRelease "proj"].
Proof. vm_compute. by repeat split. Qed.

Lemma Run_releases_lock_witness :
  let m := sample_Run_interrupted 2 in
  held (world m) = ∅ ∧
  ∃ dels, log (world m) = [] ++ [EvAcquire "proj"] ++ dels ++ [EvRelease "proj"].
Proof.
  pose proof (Run_releases_lock (Repo := unit) (λ _, Some empty_snapshot) [] sample_Decide
                tag 0 (λ _, true) (λ _, true) true (λ _, true) (λ i, bool_decide (i = 2))
                (sample_opts ["app"] false) None sample_world) as (_ & Hh & _ & _ & Hl).
  split; [exact Hh|]. apply Hl; [apply not_elem_of_empty|reflexivity].
Defined.

End Cleanup.

(** * The cleanup command (package [cmd/werf/cleanup]) *)

Module CleanupCmd.

(** ** Flags and commands ([spf13/pflag], [spf13/cobra]) *)

(** The variable a flag is bound to: the field of this package's
    [CmdData], or a field of [CommonCmdData]. *)
Inductive FlagVar :=
| CmdData_WithoutKube
| CommonCmdData_field (field : string).

Inductive FlagValue :=
| boolValue (value : bool)
| stringValue (value : string).

Record Flag := {
  Name : string;
  Shorthand : string;
  Usage : string;
  DefValue : FlagValue;
  Value : FlagVar
}.

Global Instance FlagVar_eq_dec : EqDecision FlagVar.
Proof. solve_decision. Defined.
Global Instance FlagValue_eq_dec : EqDecision FlagValue.
Proof. solve_decision. Defined.
Global Instance Flag_eq_dec : EqDecision Flag.
Proof. solve_decision. Defined.

(** A flag set keeps its flags in the order they were defined.
    [FlagSet.AddFlag] panics ([None]) when the name is defined already,
    when the shorthand is longer than one character, or when it is taken. *)
Abbreviation FlagSet := (list Flag).

Definition AddFlag (flag : Flag) (f : FlagSet) : option FlagSet :=
  if bool_decide (Name flag ∈ Name <$> f) then None
  else if bool_decide (Shorthand flag = "") then Some (f ++ [flag])
  else if bool_decide (1 < String.length (Shorthand flag))%nat then None
  else if bool_decide (Shorthand flag ∈ Shorthand <$> f) then None
  else Some (f ++ [flag]).

(** [f.BoolVarP(p, name, shorthand, value, usage)] *)
Definition BoolVarP (p : FlagVar) (name shorthand : string) (value : bool) (usage : string)
    (f : FlagSet) : option FlagSet :=
  AddFlag {| Name := name; Shorthand := shorthand; Usage := usage;
             DefValue := boolValue value; Value := p |} f.

(** [f.StringVarP(p, name, shorthand, value, usage)] *)
Definition StringVarP (p : FlagVar) (name shorthand : string) (value : string) (usage : string)
    (f : FlagSet) : option FlagSet :=
  AddFlag {| Name := name; Shorthand := shorthand; Usage := usage;
             DefValue := stringValue value; Value := p |} f.

Fixpoint AddFlags (flags : list Flag) (f : FlagSet) : option FlagSet :=
  match flags with
  | [] => Some f
  | flag :: flags' => f' ← AddFlag flag f; AddFlags flags' f'
  end.

(** The fields of [cobra.Command] that [NewCmd] sets, and the flag set
    [cmd.Flags()] gives access to; [R] is the type of [RunE]. *)
Record Command (R : Type) := {
  Use : string;
  DisableFlagsInUseLine : bool;
  Short : string;
  Long : string;
  Example_ : string;
  RunE : R;
  Flags : FlagSet
}.
Arguments Use {R} _.
Arguments DisableFlagsInUseLine {R} _.
Arguments Short {R} _.
Arguments Long {R} _.
Arguments Example_ {R} _.
Arguments RunE {R} _.
Arguments Flags {R} _.

Definition with_Flags {R} (f : FlagSet) (cmd : Command R) : Command R :=
  {| Use := Use cmd; DisableFlagsInUseLine := DisableFlagsInUseLine cmd;
     Short := Short cmd; Long := Long cmd; Example_ := Example_ cmd;
     RunE := RunE cmd; Flags := f |}.

(** Modelled from the spec: the helpers [common.Setup...] of package
    [cmd/werf/common], which is not among the sources.  Each defines flags
    on the command and binds them to fields of [common.CmdData]; a helper
    is given by the flags it defines, in order. *)
Record common_Setup := {
  common_SetupDir : list Flag;
  common_SetupTmpDir : list Flag;
  common_SetupHomeDir : list Flag;
  common_SetupStagesStorage : list Flag;
  common_SetupImagesRepo : list Flag;
  common_SetupDockerConfig : string → list Flag;
  common_SetupInsecureRepo : list Flag;
  common_SetupImagesCleanupPolicies : list Flag;
  common_SetupKubeConfig : list Flag;
  common_SetupKubeContext : list Flag;
  common_SetupDryRun : list Flag
}.

Definition setup {R} (flags : list Flag) (cmd : Command R) : option (Command R) :=
  f ← AddFlags flags (Flags cmd); Some (with_Flags f cmd).

(** ** The data of one run *)

(** The fields of [common.CmdData] that [runCleanup] reads (pointers the
    helpers above allocate when the command is built), and this package's
    [CmdData]. *)
Record common_CmdData := {
  TmpDir : string;
  HomeDir : string;
  DockerConfig : string;
  InsecureRepo : bool;
  KubeConfig : string;
  KubeContext : string;
  DryRun : bool
}.

Record CmdData_t := { WithoutKube : bool }.

(** [config.WerfConfig], as far as [runCleanup] reads it. *)
Record Image := { image_Name : string }.
Record Meta_t := { Project : string }.
Record WerfConfig := { Meta : Meta_t; Images : list Image }.

Record git_repo_Local := { Path : path; GitDir : path }.

(** The option structs of package [pkg/cleanup]; a field that embeds a
    struct carries the name of the struct it belongs to as a prefix. *)
Record CommonRepoOptions := {
  ImagesRepo : string;
  StagesStorage : string;
  ImagesNames : list string;
  repo_DryRun : bool
}.

Record CommonOptions := { common_DryRun : bool }.

Record CommonProjectOptions := {
  ProjectName : string;
  project_CommonOptions : CommonOptions
}.

Record ImagesCleanupOptions := {
  images_CommonRepoOptions : CommonRepoOptions;
  LocalGit : option git_repo_Local;
  images_WithoutKube : bool;
  Policies : list Cleanup.CleanupPolicy
}.

Record StagesCleanupOptions := {
  stages_CommonRepoOptions : CommonRepoOptions;
  stages_CommonProjectOptions : CommonProjectOptions
}.

Record CleanupOptions := {
  cleanup_StagesCleanupOptions : StagesCleanupOptions;
  cleanup_ImagesCleanupOptions : ImagesCleanupOptions
}.

(** [path.Join] on component lists. *)
Definition path_Join (elem : list path) : path := concat elem.
Global Arguments path_Join : simpl never.

(** ** Collaborators, calls and runs *)

(** The calls [runCleanup] makes, with the arguments it passes and, where
    the run depends on it, what came back. *)
Inductive call :=
| Call_LogVersion
| Call_werf_Init (tmpDir homeDir : string)
| Call_lock_Init
| Call_docker_registry_Init (AllowInsecureRepo : bool)
| Call_docker_Init (dockerConfig : string)
| Call_GetKubeContext (kubeContext : string)
| Call_kube_Init (kubeContext kubeConfig : string)
| Call_GetProjectDir (projectDir : path) (err : option error)
| Call_LogProjectDir (projectDir : path)
| Call_CreateProjectDir (projectTmpDir : path) (err : option error)
| Call_ReleaseProjectDir (projectTmpDir : path)
| Call_GetWerfConfig (projectDir : path)
| Call_GetImagesRepo (projectName : string)
| Call_GetStagesRepo
| Call_DirExists (dir : path) (exist : bool) (err : option error)
| Call_GetImagesCleanupPolicies (err : option error)
| Call_Cleanup (options : CleanupOptions) (err : option error).

(** The packages the command calls into, over a world [W] of their own. *)
Record Env (W : Type) := {
  common_GetLongCommandDescription : string → string;
  common_LogVersion : W → W;
  werf_Init : string → string → W → option error * W;
  lock_Init : W → option error * W;
  docker_registry_Init : bool → W → option error * W;
  docker_Init : string → W → option error * W;
  common_GetKubeContext : string → W → string * W;
  kube_Init : string → string → W → option error * W;
  common_GetProjectDir : common_CmdData → W → (path * option error) * W;
  common_LogProjectDir : path → W → W;
  tmp_manager_CreateProjectDir : W → (path * option error) * W;
  tmp_manager_ReleaseProjectDir : path → W → W;
  common_GetWerfConfig : path → W → (option WerfConfig * option error) * W;
  common_GetImagesRepo : string → common_CmdData → W → (string * option error) * W;
  common_GetStagesRepo : common_CmdData → W → (string * option error) * W;
  util_DirExists : path → W → (bool * option error) * W;
  common_GetImagesCleanupPolicies :
    common_CmdData → W → (list Cleanup.CleanupPolicy * option error) * W;
  cleanup_Cleanup : CleanupOptions → W → option error * W
}.
Arguments common_GetLongCommandDescription {W} _.
Arguments common_LogVersion {W} _.
Arguments werf_Init {W} _.
Arguments lock_Init {W} _.
Arguments docker_registry_Init {W} _.
Arguments docker_Init {W} _.
Arguments common_GetKubeContext {W} _.
Arguments kube_Init {W} _.
Arguments common_GetProjectDir {W} _.
Arguments common_LogProjectDir {W} _.
Arguments tmp_manager_CreateProjectDir {W} _.
Arguments tmp_manager_ReleaseProjectDir {W} _.
Arguments common_GetWerfConfig {W} _.
Arguments common_GetImagesRepo {W} _.
Arguments common_GetStagesRepo {W} _.
Arguments util_DirExists {W} _.
Arguments common_GetImagesCleanupPolicies {W} _.
Arguments cleanup_Cleanup {W} _.


(** A run threads the collaborators' world and the calls made so far;
    it returns or panics (a nil dereference). *)
Record State (W : Type) := { world : W; calls : list call }.
Arguments world {W} _.
Arguments calls {W} _.

Inductive result (A : Type) :=
| Ok (a : A)
| Panic.
Arguments Ok {A} a.
Arguments Panic {A}.

Definition M (W A : Type) : Type := State W → result A * State W.

Definition ret {W A} (a : A) : M W A := λ s, (Ok a, s).
Definition bind {W A B} (m : M W A) (k : A → M W B) : M W B := λ s,
  match m s with
  | (Ok a, s') => k a s'
  | (Panic, s') => (Panic, s')
  end.

Notation "'let*' x := m 'in' k" := (bind m (λ x, k))
  (at level 10, x pattern, m at level 100, k at level 200, only parsing).

(** One call of a collaborator [f], recorded as [c] of what it returned. *)
Definition invoke {W A} (f : W → A * W) (c : A → call) : M W A := λ s,
  let '(a, w) := f (world s) in
  (Ok a, {| world := w; calls := calls s ++ [c a] |}).

(** [defer f(); body]: [f] runs when [body] is left, also by a panic. *)
Definition defer {W A} (deferred : M W unit) (body : M W A) : M W A := λ s,
  let '(r, s') := body s in
  (r, (deferred s').2).

(** [*p] for a pointer that may be nil *)
Definition deref {W A} (p : option A) : M W A := λ s,
  match p with
  | Some a => (Ok a, s)
  | None => (Panic, s)
  end.

Definition start {W} (w : W) : State W := {| world := w; calls := [] |}.

Section Run.

Context {W : Type} (env : Env W).
Context (CommonCmdData : common_CmdData) (CmdData : CmdData_t).

Definition runCleanup : M W (option error) :=
  let* err := invoke (werf_Init env (TmpDir CommonCmdData) (HomeDir CommonCmdData))
                (λ _, Call_werf_Init (TmpDir CommonCmdData) (HomeDir CommonCmdData)) in
  if err is Some err then ret (Some (fmt_Errorf "initialization error: %s" [Error err])) else
  let* err := invoke (lock_Init env) (λ _, Call_lock_Init) in
  if err is Some err then ret (Some err) else
  let* err := invoke (docker_registry_Init env (InsecureRepo CommonCmdData))
                (λ _, Call_docker_registry_Init (InsecureRepo CommonCmdData)) in
  if err is Some err then ret (Some err) else
  let* err := invoke (docker_Init env (DockerConfig CommonCmdData))
                (λ _, Call_docker_Init (DockerConfig CommonCmdData)) in
  if err is Some err then ret (Some err) else
  let* kubeContext := invoke (common_GetKubeContext env (KubeContext CommonCmdData))
                        Call_GetKubeContext in
  let* err := invoke (kube_Init env kubeContext (KubeConfig CommonCmdData))
                (λ _, Call_kube_Init kubeContext (KubeConfig CommonCmdData)) in
  if err is Some err then ret (Some (fmt_Errorf "cannot initialize kube: %s" [Error err])) else
  let* (projectDir, err) := invoke (common_GetProjectDir env CommonCmdData)
                               (λ r, Call_GetProjectDir r.1 r.2) in
  if err is Some err
  then ret (Some (fmt_Errorf "getting project dir failed: %s" [Error err])) else
  let* _ := invoke (λ w, (tt, common_LogProjectDir env projectDir w))
              (λ _, Call_LogProjectDir projectDir) in
  let* (projectTmpDir, err) := invoke (tmp_manager_CreateProjectDir env)
                                  (λ r, Call_CreateProjectDir r.1 r.2) in
  if err is Some err
  then ret (Some (fmt_Errorf "getting project tmp dir failed: %s" [Error err])) else
  defer (invoke (λ w, (tt, tmp_manager_ReleaseProjectDir env projectTmpDir w))
                (λ _, Call_ReleaseProjectDir projectTmpDir)) (
  let* (werfConfig, err) := invoke (common_GetWerfConfig env projectDir)
                               (λ _, Call_GetWerfConfig projectDir) in
  if err is Some err then ret (Some (fmt_Errorf "bad config: %s" [Error err])) else
  let* werfConfig := deref werfConfig in
  let projectName := Project (Meta werfConfig) in
  let* (imagesRepo, err) := invoke (common_GetImagesRepo env projectName CommonCmdData)
                               (λ _, Call_GetImagesRepo projectName) in
  if err is Some err then ret (Some err) else
  let* (stagesRepo, err) := invoke (common_GetStagesRepo env CommonCmdData)
                               (λ _, Call_GetStagesRepo) in
  if err is Some err then ret (Some err) else
  let imagesNames :=
    foldl (λ imagesNames image, imagesNames ++ [image_Name image]) [] (Images werfConfig) in
  let commonRepoOptions :=
    {| ImagesRepo := imagesRepo;
       StagesStorage := stagesRepo;
       ImagesNames := imagesNames;
       repo_DryRun := DryRun CommonCmdData |} in
  let gitDir := path_Join [projectDir; [".git"]] in
  let* (exist_, err) := invoke (util_DirExists env gitDir)
                               (λ r, Call_DirExists gitDir r.1 r.2) in
  if err is Some err then ret (Some err) else
  let localGitRepo :=
    if (exist_ : bool) then Some {| Path := projectDir; GitDir := gitDir |} else None in
  let* (policies, err) := invoke (common_GetImagesCleanupPolicies env CommonCmdData)
                             (λ r, Call_GetImagesCleanupPolicies r.2) in
  if err is Some err then ret (Some err) else
  let commonProjectOptions :=
    {| ProjectName := projectName;
       project_CommonOptions := {| common_DryRun := DryRun CommonCmdData |} |} in
  let imagesCleanupOptions :=
    {| images_CommonRepoOptions := commonRepoOptions;
       LocalGit := localGitRepo;
       images_WithoutKube := WithoutKube CmdData;
       Policies := policies |} in
  let stagesCleanupOptions :=
    {| stages_CommonRepoOptions := commonRepoOptions;
       stages_CommonProjectOptions := commonProjectOptions |} in
  let cleanupOptions :=
    {| cleanup_StagesCleanupOptions := stagesCleanupOptions;
       cleanup_ImagesCleanupOptions := imagesCleanupOptions |} in
  let* err := invoke (cleanup_Cleanup env cleanupOptions) (Call_Cleanup cleanupOptions) in
  if err is Some err then ret (Some err) else
  ret None).

Context (common_LogRunningTime : M W (option error) → M W (option error)).
Context (helpers : common_Setup).

Definition NewCmd : option (Command (M W (option error))) :=
  let cmd :=
    {| Use := "cleanup";
       DisableFlagsInUseLine := true;
       Short := "Safely cleanup unused project images and stages";
       Long := common_GetLongCommandDescription env
"Safely cleanup unused project images and stages.

First step is 'werf images cleanup' command, which will delete unused images from images repo. Second step is 'werf stages cleanup' command, which will delete unused stages from stages storage to be in sync with the images repo.

It is safe to run this command periodically (daily is enough) by automated cleanup job in parallel with other werf commands such as build, deploy and host cleanup.";
       Example_ :=
         "  $ werf cleanup --stages-storage :local --images-repo registry.mydomain.com/myproject";
       RunE :=
         (let* _ := invoke (λ w, (tt, common_LogVersion env w)) (λ _, Call_LogVersion) in
          common_LogRunningTime runCleanup);
       Flags := [] |} in
  cmd ← setup (common_SetupDir helpers) cmd;
  cmd ← setup (common_SetupTmpDir helpers) cmd;
  cmd ← setup (common_SetupHomeDir helpers) cmd;
  cmd ← setup (common_SetupStagesStorage helpers) cmd;
  cmd ← setup (common_SetupImagesRepo helpers) cmd;
  cmd ← setup (common_SetupDockerConfig helpers
"Command needs granted permissions to read, pull and delete images from the specified stages storage and images repo")
              cmd;
  cmd ← setup (common_SetupInsecureRepo helpers) cmd;
  cmd ← setup (common_SetupImagesCleanupPolicies helpers) cmd;
  cmd ← setup (common_SetupKubeConfig helpers) cmd;
  cmd ← setup (common_SetupKubeContext helpers) cmd;
  cmd ← setup (common_SetupDryRun helpers) cmd;
  f ← BoolVarP CmdData_WithoutKube "without-kube" "" false
        "Do not skip deployed kubernetes images" (Flags cmd);
  Some (with_Flags f cmd).

End Run.


(** ** The flags of the command *)

Definition string_flag (name field usage : string) : Flag :=
  {| Name := name; Shorthand := ""; Usage := usage;
     DefValue := stringValue ""; Value := CommonCmdData_field field |}.

Definition bool_flag (name field usage : string) : Flag :=
  {| Name := name; Shorthand := ""; Usage := usage;
     DefValue := boolValue false; Value := CommonCmdData_field field |}.

(** Modelled from the spec: what each helper of package [common] defines.
    The CLI line of section 6 is the flag surface of the subcommand.  It
    gives the flag that goes with eight of the helpers ([<ref>], [<path>],
    [<spec>] and [<name>] are strings, a flag without an operand is a
    boolean); it has no flag for [SetupDir], [SetupTmpDir] and
    [SetupHomeDir], which define none here. *)
Definition spec_helpers : common_Setup :=
  {| common_SetupDir := [];
     common_SetupTmpDir := [];
     common_SetupHomeDir := [];
     common_SetupStagesStorage := [string_flag "stages-storage" "StagesStorage" ""];
     common_SetupImagesRepo := [string_flag "images-repo" "ImagesRepo" ""];
     common_SetupDockerConfig := λ extraDesc,
       [string_flag "docker-config" "DockerConfig" extraDesc];
     common_SetupInsecureRepo := [bool_flag "insecure-repo" "InsecureRepo" ""];
     common_SetupImagesCleanupPolicies :=
       [string_flag "images-cleanup-policies" "ImagesCleanupPolicies" ""];
     common_SetupKubeConfig := [string_flag "kube-config" "KubeConfig" ""];
     common_SetupKubeContext := [string_flag "kube-context" "KubeContext" ""];
     common_SetupDryRun := [bool_flag "dry-run" "DryRun" ""] |}.

Definition without_kube_flag : Flag :=
  {| Name := "without-kube"; Shorthand := "";
     Usage := "Do not skip deployed kubernetes images";
     DefValue := boolValue false; Value := CmdData_WithoutKube |}.

Definition docker_config_usage : string :=
"Command needs granted permissions to read, pull and delete images from the specified stages storage and images repo".

(** The flags [NewCmd] asks for, in the order of its calls. *)
Definition registered (helpers : common_Setup) : list Flag :=
  common_SetupDir helpers ++ common_SetupTmpDir helpers ++ common_SetupHomeDir helpers ++
  common_SetupStagesStorage helpers ++ common_SetupImagesRepo helpers ++
  common_SetupDockerConfig helpers docker_config_usage ++
  common_SetupInsecureRepo helpers ++ common_SetupImagesCleanupPolicies helpers ++
  common_SetupKubeConfig helpers ++ common_SetupKubeContext helpers ++
  common_SetupDryRun helpers ++ [without_kube_flag].

(** The flags of the CLI line of section 6. *)
Definition cli_flags : list string :=
  ["stages-storage"; "images-repo"; "docker-config"; "insecure-repo";
   "images-cleanup-policies"; "kube-config"; "kube-context"; "dry-run"; "without-kube"].

Lemma AddFlags_app a b f : AddFlags (a ++ b) f = AddFlags a f ≫= AddFlags b.
Proof.
  revert f. induction a as [|x a IH]; intros f; simpl; [done|].
  destruct (AddFlag x f); simpl; [apply IH|done].
Qed.

Lemma AddFlag_Some flag f f' : AddFlag flag f = Some f' → f' = f ++ [flag].
Proof. unfold AddFlag. repeat case_bool_decide; congruence. Qed.

Lemma AddFlags_Some flags f f' : AddFlags flags f = Some f' → f' = f ++ flags.
Proof.
  revert f. induction flags as [|x flags IH]; intros f; simpl.
  - intros [= <-]. by rewrite app_nil_r.
  - destruct (AddFlag x f) as [f1|] eqn:Hx; simpl; [|done].
    intros ->%IH. apply AddFlag_Some in Hx as ->. by rewrite <-app_assoc.
Qed.

(** ** Running the command, call by call *)

Section RunFacts.

Context {W : Type} (env : Env W).
Context (CommonCmdData : common_CmdData) (CmdData : CmdData_t).

(** One step of a run: case analysis on what the next collaborator
    returns. *)
Ltac run_step :=
  match goal with
  | |- context [werf_Init env ?a ?b ?w] => destruct (werf_Init env a b w) as [[?|] ?]
  | |- context [lock_Init env ?w] => destruct (lock_Init env w) as [[?|] ?]
  | |- context [docker_registry_Init env ?a ?w] =>
      destruct (docker_registry_Init env a w) as [[?|] ?]
  | |- context [docker_Init env ?a ?w] => destruct (docker_Init env a w) as [[?|] ?]
  | |- context [common_GetKubeContext env ?a ?w] =>
      destruct (common_GetKubeContext env a w) as [? ?]
  | |- context [kube_Init env ?a ?b ?w] => destruct (kube_Init env a b w) as [[?|] ?]
  | |- context [common_GetProjectDir env ?a ?w] =>
      destruct (common_GetProjectDir env a w) as [[? [?|]] ?]
  | |- context [tmp_manager_CreateProjectDir env ?w] =>
      destruct (tmp_manager_CreateProjectDir env w) as [[? [?|]] ?]
  | |- context [common_GetWerfConfig env ?a ?w] =>
      destruct (common_GetWerfConfig env a w) as [[[?|] [?|]] ?]
  | |- context [common_GetImagesRepo env ?a ?b ?w] =>
      destruct (common_GetImagesRepo env a b w) as [[? [?|]] ?]
  | |- context [common_GetStagesRepo env ?a ?w] =>
      destruct (common_GetStagesRepo env a w) as [[? [?|]] ?]
  | |- context [util_DirExists env ?a ?w] =>
      destruct (util_DirExists env a w) as [[? [?|]] ?]
  | |- context [common_GetImagesCleanupPolicies env ?a ?w] =>
      destruct (common_GetImagesCleanupPolicies env a w) as [[? [?|]] ?]
  | |- context [cleanup_Cleanup env ?a ?w] =>
      destruct (cleanup_Cleanup env a w) as [[?|] ?]
  end; simpl.

Ltac run_all :=
  unfold runCleanup, bind, invoke, defer, deref, ret, start; simpl; repeat run_step.

(** A membership in a list of calls written out. *)
Ltac which_call H :=
  repeat (apply elem_of_cons in H as [H|H]);
  try (by apply elem_of_nil in H); try discriminate H.

Ltac find_call := repeat first [apply list_elem_of_here | apply list_elem_of_further].

(** What [cleanup.Cleanup] is called with, and that the run returns what
    it returns. *)
Lemma runCleanup_Cleanup_call w r s' o err :
  runCleanup env CommonCmdData CmdData (start w) = (r, s') →
  Call_Cleanup o err ∈ calls s' →
  r = Ok err ∧
  repo_DryRun (images_CommonRepoOptions (cleanup_ImagesCleanupOptions o))
    = DryRun CommonCmdData ∧
  repo_DryRun (stages_CommonRepoOptions (cleanup_StagesCleanupOptions o))
    = DryRun CommonCmdData ∧
  common_DryRun (project_CommonOptions (stages_CommonProjectOptions
                                          (cleanup_StagesCleanupOptions o)))
    = DryRun CommonCmdData ∧
  images_WithoutKube (cleanup_ImagesCleanupOptions o) = WithoutKube CmdData ∧
  ∃ projectDir exist_,
    Call_DirExists (path_Join [projectDir; [".git"]]) exist_ None ∈ calls s' ∧
    LocalGit (cleanup_ImagesCleanupOptions o) =
      if (exist_ : bool)
      then Some {| Path := projectDir; GitDir := path_Join [projectDir; [".git"]] |}
      else None.
Proof.
  run_all.
  all: intros [= <- <-]; simpl; intros Hc; which_call Hc.
  all: injection Hc as -> ->; simpl.
  all: split_and!; try done.
  all: eexists _, _; split; [find_call|done].
Qed.

(** The existence check of [.git]: made once, on the project directory;
    its error ends the run, and nothing else about it does. *)
Lemma runCleanup_DirExists_call w r s' gitDir exist_ err :
  runCleanup env CommonCmdData CmdData (start w) = (r, s') →
  Call_DirExists gitDir exist_ err ∈ calls s' →
  (∃ projectDir, Call_GetProjectDir projectDir None ∈ calls s' ∧
                 gitDir = path_Join [projectDir; [".git"]]) ∧
  (∀ gitDir' exist' err', Call_DirExists gitDir' exist' err' ∈ calls s' →
                          gitDir' = gitDir ∧ exist' = exist_ ∧ err' = err) ∧
  match err with
  | Some e => r = Ok (Some e) ∧ ∀ o cerr, Call_Cleanup o cerr ∉ calls s'
  | None =>
      ∃ perr, Call_GetImagesCleanupPolicies perr ∈ calls s' ∧
        match perr with
        | Some e => r = Ok (Some e)
        | None => ∃ o cerr, Call_Cleanup o cerr ∈ calls s' ∧ r = Ok cerr
        end
  end.
Proof.
  run_all.
  all: intros [= <- <-]; simpl; intros Hc; which_call Hc.
  all: injection Hc as -> -> ->; simpl.
  all: split_and!.
  all: try (eexists; split; [find_call|done]).
  all: try (intros g' e' r' Hc'; which_call Hc'; by injection Hc' as -> -> ->).
  all: try done.
  all: try (intros o cerr Hc'; by which_call Hc').
  all: eexists; split; [find_call|]; simpl; try done.
  all: eexists _, _; split; [find_call|done].
Qed.

(** ** The claims about the command *)


(** C5: when the check of [projectDir/.git] answers without an error,
    the run goes on to the cleanup policies and, these read, to
    [cleanup.Cleanup], whose images-cleanup options hold a [LocalGit] only
    if the directory exists: without [.git] it is nil, and the snapshot of
    an absent repository is the empty one.  Only an error of the check
    ends the run there, [cleanup.Cleanup] not called. *)
Theorem runCleanup_without_git_dir w r s' gitDir exist_ err :
  runCleanup env CommonCmdData CmdData (start w) = (r, s') →
  Call_DirExists gitDir exist_ err ∈ calls s' →
  match err with
  | Some e => r = Ok (Some e) ∧ ∀ o cerr, Call_Cleanup o cerr ∉ calls s'
  | None =>
      (∃ perr, Call_GetImagesCleanupPolicies perr ∈ calls s' ∧
               (perr = None → ∃ o cerr, Call_Cleanup o cerr ∈ calls s' ∧ r = Ok cerr)) ∧
      ∀ o cerr, Call_Cleanup o cerr ∈ calls s' →
        (exist_ = false →
         LocalGit (cleanup_ImagesCleanupOptions o) = None ∧
         ∀ enumerate : git_repo_Local → option Cleanup.GitRefSnapshot,
           Cleanup.Snapshot enumerate (LocalGit (cleanup_ImagesCleanupOptions o))
           = Some Cleanup.empty_snapshot) ∧
        (exist_ = true →
         ∃ projectDir, gitDir = path_Join [projectDir; [".git"]] ∧
           LocalGit (cleanup_ImagesCleanupOptions o)
           = Some {| Path := projectDir; GitDir := gitDir |})
  end.
Proof.
  intros Hrun Hc.
  destruct (runCleanup_DirExists_call _ _ _ _ _ _ Hrun Hc) as (_ & Huniq & Hm).
  destruct err as [e|]; [done|].
  split.
  - destruct Hm as (perr & Hperr & Hm). exists perr. split; [done|]. by intros ->.
  - intros o cerr Ho.
    destruct (runCleanup_Cleanup_call _ _ _ _ _ Hrun Ho)
      as (_ & _ & _ & _ & _ & projectDir & e' & Hd & HL).
    destruct (Huniq _ _ _ Hd) as (<- & -> & _).
    split; intros ->; simpl in HL.
    + by rewrite HL.
    + by exists projectDir.
Qed.



(** ** More about a run *)

(** As [run_step], keeping what each collaborator returned. *)
Ltac run_step_eq :=
  match goal with
  | |- context [werf_Init env ?a ?b ?w] => destruct (werf_Init env a b w) as [[?|] ?] eqn:?
  | |- context [lock_Init env ?w] => destruct (lock_Init env w) as [[?|] ?] eqn:?
  | |- context [docker_registry_Init env ?a ?w] =>
      destruct (docker_registry_Init env a w) as [[?|] ?] eqn:?
  | |- context [docker_Init env ?a ?w] => destruct (docker_Init env a w) as [[?|] ?] eqn:?
  | |- context [common_GetKubeContext env ?a ?w] =>
      destruct (common_GetKubeContext env a w) as [? ?] eqn:?
  | |- context [kube_Init env ?a ?b ?w] => destruct (kube_Init env a b w) as [[?|] ?] eqn:?
  | |- context [common_GetProjectDir env ?a ?w] =>
      destruct (common_GetProjectDir env a w) as [[? [?|]] ?] eqn:?
  | |- context [tmp_manager_CreateProjectDir env ?w] =>
      destruct (tmp_manager_CreateProjectDir env w) as [[? [?|]] ?] eqn:?
  | |- context [common_GetWerfConfig env ?a ?w] =>
      destruct (common_GetWerfConfig env a w) as [[[?|] [?|]] ?] eqn:?
  | |- context [common_GetImagesRepo env ?a ?b ?w] =>
      destruct (common_GetImagesRepo env a b w) as [[? [?|]] ?] eqn:?
  | |- context [common_GetStagesRepo env ?a ?w] =>
      destruct (common_GetStagesRepo env a w) as [[? [?|]] ?] eqn:?
  | |- context [util_DirExists env ?a ?w] =>
      destruct (util_DirExists env a w) as [[? [?|]] ?] eqn:?
  | |- context [common_GetImagesCleanupPolicies env ?a ?w] =>
      destruct (common_GetImagesCleanupPolicies env a w) as [[? [?|]] ?] eqn:?
  | |- context [cleanup_Cleanup env ?a ?w] =>
      destruct (cleanup_Cleanup env a w) as [[?|] ?] eqn:?
  end; simpl.

(** A run that reaches [cleanup.Cleanup] has made every call once, in
    the order of the source: the five initialisations, the project
    directory and its temporary directory, the configuration, the two
    repositories, the check of [.git], the policies, [cleanup.Cleanup],
    and the deferred release of the temporary directory last. *)
Theorem runCleanup_call_sequence w r s' o err :
  runCleanup env CommonCmdData CmdData (start w) = (r, s') →
  Call_Cleanup o err ∈ calls s' →
  ∃ kubeContext projectDir projectTmpDir exist_,
    calls s' =
      [Call_werf_Init (TmpDir CommonCmdData) (HomeDir CommonCmdData);
       Call_lock_Init;
       Call_docker_registry_Init (InsecureRepo CommonCmdData);
       Call_docker_Init (DockerConfig CommonCmdData);
       Call_GetKubeContext kubeContext;
       Call_kube_Init kubeContext (KubeConfig CommonCmdData);
       Call_GetProjectDir projectDir None;
       Call_LogProjectDir projectDir;
       Call_CreateProjectDir projectTmpDir None;
       Call_GetWerfConfig projectDir;
       Call_GetImagesRepo
         (ProjectName (stages_CommonProjectOptions (cleanup_StagesCleanupOptions o)));
       Call_GetStagesRepo;
       Call_DirExists (path_Join [projectDir; [".git"]]) exist_ None;
       Call_GetImagesCleanupPolicies None;
       Call_Cleanup o err;
       Call_ReleaseProjectDir projectTmpDir].
Proof.
  run_all.
  all: intros [= <- <-]; simpl; intros Hc; which_call Hc.
  all: injection Hc as -> ->; simpl.
  all: by eexists _, _, _, _.
Qed.

(** The deferred release: once [tmp_manager.CreateProjectDir] has
    succeeded, the run ends with the release of that directory, whether it
    returns an error, returns nil or panics; a directory is released only
    if it was created by this run, and nothing is released when the
    creation failed. *)
Theorem runCleanup_releases_tmp_dir w r s' :
  runCleanup env CommonCmdData CmdData (start w) = (r, s') →
  (∀ d, Call_CreateProjectDir d None ∈ calls s' →
        last (calls s') = Some (Call_ReleaseProjectDir d)) ∧
  (∀ d, Call_ReleaseProjectDir d ∈ calls s' → Call_CreateProjectDir d None ∈ calls s') ∧
  (∀ d e, Call_CreateProjectDir d (Some e) ∈ calls s' →
          ∀ d', Call_ReleaseProjectDir d' ∉ calls s') ∧
  (r = Panic → ∃ d, last (calls s') = Some (Call_ReleaseProjectDir d)).
Proof.
  run_all.
  all: intros [= <- <-]; simpl; split_and!.
  all: try (intros d Hc; which_call Hc; by injection Hc as ->).
  all: try (intros d Hc; which_call Hc; injection Hc as ->; find_call).
  all: try (intros d e' Hc; which_call Hc; injection Hc as -> ->;
            intros d' Hc'; by which_call Hc').
  all: try done.
  all: intros _; by eexists.
Qed.


(** The run returns nil exactly when it has called [cleanup.Cleanup] and
    that call returned nil: no other path of [runCleanup] ends without an
    error. *)
Theorem runCleanup_nil_iff_Cleanup_nil w r s' :
  runCleanup env CommonCmdData CmdData (start w) = (r, s') →
  (r = Ok None ↔ ∃ o, Call_Cleanup o None ∈ calls s').
Proof.
  run_all.
  all: intros [= <- <-]; simpl; split.
  all: try done.
  all: try (intros [o Hc]; by which_call Hc).
  intros _. eexists. find_call.
Qed.

(** The first failure that an event records ends the run: a failed
    [common.GetProjectDir] or [tmp_manager.CreateProjectDir] is the last
    call, and its error comes back under the prefix of the source; a failed
    [common.GetImagesCleanupPolicies] comes back as it is. *)
Theorem runCleanup_wraps_errors w r s' :
  runCleanup env CommonCmdData CmdData (start w) = (r, s') →
  (∀ d e, Call_GetProjectDir d (Some e) ∈ calls s' →
          r = Ok (Some (ErrorString ("getting project dir failed: " +:+ Error e))) ∧
          last (calls s') = Some (Call_GetProjectDir d (Some e))) ∧
  (∀ d e, Call_CreateProjectDir d (Some e) ∈ calls s' →
          r = Ok (Some (ErrorString ("getting project tmp dir failed: " +:+ Error e))) ∧
          last (calls s') = Some (Call_CreateProjectDir d (Some e))) ∧
  (∀ e, Call_GetImagesCleanupPolicies (Some e) ∈ calls s' →
        r = Ok (Some e) ∧ ∀ o cerr, Call_Cleanup o cerr ∉ calls s').
Proof.
  run_all.
  all: intros [= <- <-]; simpl; split_and!.
  all: try (intros d e' Hc; by which_call Hc).
  all: try (intros e' Hc; by which_call Hc).
  all: try (intros d e' Hc; which_call Hc; injection Hc as -> ->; split; [|done];
            unfold fmt_Errorf; cbn; by rewrite string_app_nil_r).
  all: intros e' Hc; which_call Hc; injection Hc as ->; split; [done|];
       intros o cerr Hc'; by which_call Hc'.
Qed.


Lemma imagesNames_loop (images : list Image) (acc : list string) :
  foldl (λ imagesNames image, imagesNames ++ [image_Name image]) acc images
  = acc ++ (image_Name <$> images).
Proof.
  revert acc. induction images as [|image images IH]; intros acc; simpl.
  - by rewrite app_nil_r.
  - by rewrite IH, <-app_assoc.
Qed.

(** The options [cleanup.Cleanup] gets: both phases hold the same repo
    options; the project name is the one of the configuration read for the
    project directory, and the images repo was asked for under that name;
    the image names are the names of the configuration's images, in the
    order of the configuration; repos and policies are what the getters
    returned, called one after the other. *)
Theorem runCleanup_assembles_options w r s' o err :
  runCleanup env CommonCmdData CmdData (start w) = (r, s') →
  Call_Cleanup o err ∈ calls s' →
  let images := cleanup_ImagesCleanupOptions o in
  let stages := cleanup_StagesCleanupOptions o in
  stages_CommonRepoOptions stages = images_CommonRepoOptions images ∧
  ∃ projectDir cfg w1 w2 w3 w4 w5 w6,
    Call_GetWerfConfig projectDir ∈ calls s' ∧
    common_GetWerfConfig env projectDir w1 = ((Some cfg, None), w2) ∧
    ProjectName (stages_CommonProjectOptions stages) = Project (Meta cfg) ∧
    ImagesNames (images_CommonRepoOptions images) = image_Name <$> Images cfg ∧
    common_GetImagesRepo env (Project (Meta cfg)) CommonCmdData w2
      = ((ImagesRepo (images_CommonRepoOptions images), None), w3) ∧
    common_GetStagesRepo env CommonCmdData w3
      = ((StagesStorage (images_CommonRepoOptions images), None), w4) ∧
    common_GetImagesCleanupPolicies env CommonCmdData w5 = ((Policies images, None), w6).
Proof.
  unfold runCleanup, bind, invoke, defer, deref, ret, start; simpl; repeat run_step_eq.
  all: intros [= <- <-]; simpl; intros Hc; which_call Hc.
  all: injection Hc as -> ->; simpl.
  all: split; [done|].
  all: eexists _, _, _, _, _, _, _, _.
  all: split_and!; [find_call|eassumption|done| |eassumption..].
  all: by rewrite imagesNames_loop.
Qed.


(** ** Building the command *)

Context (common_LogRunningTime : M W (option error) → M W (option error)).

Lemma NewCmd_Flags helpers :
  Flags <$> NewCmd env CommonCmdData CmdData common_LogRunningTime helpers
  = AddFlags (registered helpers) [].
Proof.
  unfold NewCmd, registered, setup, BoolVarP, docker_config_usage.
  repeat (rewrite AddFlags_app; cbn;
          match goal with |- _ = mbind _ (AddFlags ?fl ?f) =>
            destruct (AddFlags fl f); cbn; [|done] end).
  fold without_kube_flag. by destruct (AddFlag _ _).
Qed.

(** C7: the flags of the command are those its helper calls define, in
    the order of the calls, followed by [--without-kube], a boolean flag
    that defaults to [false] and is bound to [CmdData.WithoutKube]; with
    the helpers of the spec these are exactly the nine flags of the CLI
    line.  Every run passes [CmdData.WithoutKube] as the [WithoutKube]
    field of the images-cleanup options. *)
Theorem NewCmd_registers_flags helpers :
  Flags <$> NewCmd env CommonCmdData CmdData common_LogRunningTime helpers
    = AddFlags (registered helpers) [] ∧
  (∀ cmd, NewCmd env CommonCmdData CmdData common_LogRunningTime helpers = Some cmd →
          Flags cmd = registered helpers ∧
          last (Flags cmd) = Some without_kube_flag) ∧
  fmap Name <$> (Flags <$> NewCmd env CommonCmdData CmdData common_LogRunningTime spec_helpers)
    = Some cli_flags ∧
  ∀ w r s' o err,
    runCleanup env CommonCmdData CmdData (start w) = (r, s') →
    Call_Cleanup o err ∈ calls s' →
    images_WithoutKube (cleanup_ImagesCleanupOptions o) = WithoutKube CmdData.
Proof.
  split_and!.
  - apply NewCmd_Flags.
  - intros cmd Hcmd. pose proof (NewCmd_Flags helpers) as HF. rewrite Hcmd in HF.
    symmetry in HF. apply AddFlags_Some in HF. simpl in HF. split; [done|].
    rewrite HF. unfold registered. rewrite !app_assoc. apply last_snoc.
  - by rewrite NewCmd_Flags.
  - intros w r s' o err Hrun Ho.
    by destruct (runCleanup_Cleanup_call _ _ _ _ _ Hrun Ho) as (_ & _ & _ & _ & ? & _).
Qed.


End RunFacts.

(** ** A sample project *)

Definition sample_config : WerfConfig :=
  {| Meta := {| Project := "proj" |}; Images := [{| image_Name := "app" |}] |}.

(** Collaborators that succeed; the existence check of [.git] answers
    [dir_exists]. *)
Definition sample_env (dir_exists : bool * option error) : Env unit :=
  {| common_GetLongCommandDescription := λ s, s;
     common_LogVersion := λ w, w;
     werf_Init := λ _ _ w, (None, w);
     lock_Init := λ w, (None, w);
     docker_registry_Init := λ _ w, (None, w);
     docker_Init := λ _ w, (None, w);
     common_GetKubeContext := λ c w, (c, w);
     kube_Init := λ _ _ w, (None, w);
     common_GetProjectDir := λ _ w, ((["proj"], None), w);
     common_LogProjectDir := λ _ w, w;
     tmp_manager_CreateProjectDir := λ w, ((["tmp"; "werf-1"], None), w);
     tmp_manager_ReleaseProjectDir := λ _ w, w;
     common_GetWerfConfig := λ _ w, ((Some sample_config, None), w);
     common_GetImagesRepo := λ _ _ w, (("registry/proj", None), w);
     common_GetStagesRepo := λ _ w, ((":local", None), w);
     util_DirExists := λ _ w, (dir_exists, w);
     common_GetImagesCleanupPolicies := λ _ w, (([], None), w);
     cleanup_Cleanup := λ _ w, (None, w) |}.

Definition sample_CommonCmdData : common_CmdData :=
  {| TmpDir := "/tmp"; HomeDir := "/home/werf"; DockerConfig := "";
     InsecureRepo := false; KubeConfig := ""; KubeContext := "ctx"; DryRun := true |}.

Definition sample_CmdData : CmdData_t := {| WithoutKube := true |}.

Definition sample_options (localGit : option git_repo_Local) : CleanupOptions :=
  let commonRepoOptions :=
    {| ImagesRepo := "registry/proj"; StagesStorage := ":local";
       ImagesNames := ["app"]; repo_DryRun := true |} in
  {| cleanup_StagesCleanupOptions :=
       {| stages_CommonRepoOptions := commonRepoOptions;
          stages_CommonProjectOptions :=
            {| ProjectName := "proj";
               project_CommonOptions := {| common_DryRun := true |} |} |};
     cleanup_ImagesCleanupOptions :=
       {| images_CommonRepoOptions := commonRepoOptions;
          LocalGit := localGit;
          images_WithoutKube := true;
          Policies := [] |} |}.

Definition sample_calls (tail : list call) : list call :=
  [Call_werf_Init "/tmp" "/home/werf"; Call_lock_Init; Call_docker_registry_Init false;
   Call_docker_Init ""; Call_GetKubeContext "ctx"; Call_kube_Init "ctx" "";
   Call_GetProjectDir ["proj"] None; Call_LogProjectDir ["proj"];
   Call_CreateProjectDir ["tmp"; "werf-1"] None; Call_GetWerfConfig ["proj"];
   Call_GetImagesRepo "proj"; Call_GetStagesRepo] ++ tail
  ++ [Call_ReleaseProjectDir ["tmp"; "werf-1"]].

Definition sample_run (dir_exists : bool * option error) : result (option error) * State unit :=
  runCleanup (sample_env dir_exists) sample_CommonCmdData sample_CmdData (start tt).

Example sample_run_without_git :
  sample_run (false, None)
  = (Ok None,
     {| world := tt;
        calls := sample_calls [Call_DirExists ["proj"; ".git"] false None;
                               Call_GetImagesCleanupPolicies None;
                               Call_Cleanup (sample_options None) None] |}).
Proof. reflexivity. Qed.

Example sample_run_with_git :
  sample_run (true, None)
  = (Ok None,
     {| world := tt;
        calls := sample_calls
                   [Call_DirExists ["proj"; ".git"] true None;
                    Call_GetImagesCleanupPolicies None;
                    Call_Cleanup (sample_options
                                    (Some {| Path := ["proj"];
                                             GitDir := ["proj"; ".git"] |})) None] |}).
Proof. reflexivity. Qed.

Example sample_run_check_fails :
  sample_run (false, Some (PathError "stat" ["proj"; ".git"] ENOTDIR))
  = (Ok (Some (PathError "stat" ["proj"; ".git"] ENOTDIR)),
     {| world := tt;
        calls := sample_calls
                   [Call_DirExists ["proj"; ".git"] false
                      (Some (PathError "stat" ["proj"; ".git"] ENOTDIR))] |}).
Proof. reflexivity. Qed.


Lemma sample_run_eq dir_exists :
  runCleanup (sample_env dir_exists) sample_CommonCmdData sample_CmdData (start tt)
  = ((sample_run dir_exists).1, (sample_run dir_exists).2).
Proof. unfold sample_run. by destruct (runCleanup _ _ _ _). Qed.

Lemma runCleanup_without_git_dir_witness :
  Call_DirExists ["proj"; ".git"] false None ∈ calls (sample_run (false, None)).2 ∧
  Call_Cleanup (sample_options None) None ∈ calls (sample_run (false, None)).2 ∧
  LocalGit (cleanup_ImagesCleanupOptions (sample_options None)) = None ∧
  Cleanup.Snapshot (λ _ : git_repo_Local, None)
    (LocalGit (cleanup_ImagesCleanupOptions (sample_options None)))
  = Some Cleanup.empty_snapshot.
Proof.
  assert (Call_DirExists ["proj"; ".git"] false None ∈ calls (sample_run (false, None)).2)
    as Hc.
  { apply (list_elem_of_lookup_2 _ 12). reflexivity. }
  assert (Call_Cleanup (sample_options None) None ∈ calls (sample_run (false, None)).2)
    as Ho.
  { apply (list_elem_of_lookup_2 _ 14). reflexivity. }
  split; [exact Hc|]. split; [exact Ho|].
  pose proof (proj1 (proj2 (runCleanup_without_git_dir (sample_env (false, None))
                              sample_CommonCmdData sample_CmdData tt _ _ _ _ _
                              (sample_run_eq (false, None)) Hc)
                       (sample_options None) None Ho) eq_refl) as [HL HS].
  split; [exact HL|]. exact (HS (λ _, None)).
Defined.



Lemma NewCmd_registers_flags_witness :
  Call_Cleanup (sample_options None) None ∈ calls (sample_run (false, None)).2 ∧
  images_WithoutKube (cleanup_ImagesCleanupOptions (sample_options None))
  = WithoutKube sample_CmdData.
Proof.
  assert (Call_Cleanup (sample_options None) None ∈ calls (sample_run (false, None)).2)
    as Ho.
  { apply (list_elem_of_lookup_2 _ 14). reflexivity. }
  split; [exact Ho|].
  exact (proj2 (proj2 (proj2 (NewCmd_registers_flags (sample_env (false, None))
                                sample_CommonCmdData sample_CmdData (λ run, run)
                                spec_helpers)))
           tt _ _ (sample_options None) None (sample_run_eq (false, None)) Ho).
Defined.

(** ** Instances of the further properties of [runCleanup] *)

(** The sample collaborators, with a temporary directory that cannot be
    created. *)
Definition sample_env_no_tmp (e : error) : Env unit :=
  {| common_GetLongCommandDescription := λ s, s;
     common_LogVersion := λ w, w;
     werf_Init := λ _ _ w, (None, w);
     lock_Init := λ w, (None, w);
     docker_registry_Init := λ _ w, (None, w);
     docker_Init := λ _ w, (None, w);
     common_GetKubeContext := λ c w, (c, w);
     kube_Init := λ _ _ w, (None, w);
     common_GetProjectDir := λ _ w, ((["proj"], None), w);
     common_LogProjectDir := λ _ w, w;
     tmp_manager_CreateProjectDir := λ w, (([], Some e), w);
     tmp_manager_ReleaseProjectDir := λ _ w, w;
     common_GetWerfConfig := λ _ w, ((Some sample_config, None), w);
     common_GetImagesRepo := λ _ _ w, (("registry/proj", None), w);
     common_GetStagesRepo := λ _ w, ((":local", None), w);
     util_DirExists := λ _ w, ((false, None), w);
     common_GetImagesCleanupPolicies := λ _ w, (([], None), w);
     cleanup_Cleanup := λ _ w, (None, w) |}.

Definition sample_run_no_tmp : result (option error) * State unit :=
  runCleanup (sample_env_no_tmp (ErrorString "disk full")) sample_CommonCmdData
    sample_CmdData (start tt).

Lemma sample_run_no_tmp_eq :
  runCleanup (sample_env_no_tmp (ErrorString "disk full")) sample_CommonCmdData
    sample_CmdData (start tt)
  = (sample_run_no_tmp.1, sample_run_no_tmp.2).
Proof. unfold sample_run_no_tmp. by destruct (runCleanup _ _ _ _). Qed.

Lemma runCleanup_call_sequence_witness :
  Call_Cleanup (sample_options None) None ∈ calls (sample_run (false, None)).2 ∧
  length (calls (sample_run (false, None)).2) = 16.
Proof.
  assert (Call_Cleanup (sample_options None) None ∈ calls (sample_run (false, None)).2)
    as Ho.
  { apply (list_elem_of_lookup_2 _ 14). reflexivity. }
  split; [exact Ho|].
  destruct (runCleanup_call_sequence (sample_env (false, None)) sample_CommonCmdData
              sample_CmdData tt _ _ _ _ (sample_run_eq (false, None)) Ho)
    as (kubeContext & projectDir & projectTmpDir & exist_ & Hcalls).
  rewrite Hcalls. reflexivity.
Defined.

Lemma runCleanup_releases_tmp_dir_witness :
  last (calls (sample_run (false, None)).2)
  = Some (Call_ReleaseProjectDir ["tmp"; "werf-1"]).
Proof.
  apply (proj1 (runCleanup_releases_tmp_dir (sample_env (false, None)) sample_CommonCmdData
                  sample_CmdData tt _ _ (sample_run_eq (false, None)))).
  apply (list_elem_of_lookup_2 _ 8). reflexivity.
Defined.

Lemma runCleanup_nil_iff_Cleanup_nil_witness :
  (sample_run (false, None)).1 = Ok None.
Proof.
  apply (proj2 (runCleanup_nil_iff_Cleanup_nil (sample_env (false, None))
                  sample_CommonCmdData sample_CmdData tt _ _
                  (sample_run_eq (false, None)))).
  exists (sample_options None). apply (list_elem_of_lookup_2 _ 14). reflexivity.
Defined.

Lemma runCleanup_wraps_errors_witness :
  sample_run_no_tmp.1
  = Ok (Some (ErrorString ("getting project tmp dir failed: "
                           +:+ Error (ErrorString "disk full")))) ∧
  last (calls sample_run_no_tmp.2)
  = Some (Call_CreateProjectDir [] (Some (ErrorString "disk full"))).
Proof.
  apply (proj1 (proj2 (runCleanup_wraps_errors (sample_env_no_tmp (ErrorString "disk full"))
                         sample_CommonCmdData sample_CmdData tt _ _
                         sample_run_no_tmp_eq))).
  apply (list_elem_of_lookup_2 _ 8). reflexivity.
Defined.

Lemma runCleanup_assembles_options_witness :
  stages_CommonRepoOptions (cleanup_StagesCleanupOptions (sample_options None))
  = images_CommonRepoOptions (cleanup_ImagesCleanupOptions (sample_options None)).
Proof.
  apply (runCleanup_assembles_options (sample_env (false, None)) sample_CommonCmdData
           sample_CmdData tt _ _ (sample_options None) None (sample_run_eq (false, None))).
  apply (list_elem_of_lookup_2 _ 14). reflexivity.
Defined.


End CleanupCmd.
